(** * gitree: discovery, status extraction, tree assembly and rendering

    A shallow embedding of the Go packages [models], [gitstatus], [tree] and
    [scanner], followed by the properties proved about them.

    Conventions.
    - A Go [int] is a 64-bit two's complement number: a [Z] whose increments
      go through [Go.wrap64].
    - A Go [error] is a value of [Go.error]; a [nil] error or pointer is
      [None].
    - A Go map is a stdpp [gmap]; a missing key reads as the zero value.
    - Output written to the standard error stream (the [Debug] option, the
      spinner) is not part of the model. *)

From Stdlib Require Import ZArith String Ascii List Lia Permutation Sorted DecimalString.
From stdpp Require Import base gmap strings list sorting.

Set Warnings "-register-all".

Open Scope string_scope.
Open Scope Z_scope.

(** Strings are joined with [+:+]; [++] is kept for lists. *)
Disable Notation "_ ++ _" : string_scope.

(* ===================================================================== *)
(** * Part I. The embedding                                               *)
(* ===================================================================== *)

(** ** Go values shared by all packages *)

Module Go.

Definition int : Type := Z.

(** Two's complement wrap-around of a 64-bit [int]. *)
Definition wrap64 (z : Z) : Z := (z + 2 ^ 63) mod 2 ^ 64 - 2 ^ 63.

(** [n++] on an [int]. *)
Definition incr (n : int) : int := wrap64 (n + 1).

Definition maxInt : Z := 2 ^ 63 - 1.

(** [syscall.Errno] values the file system calls of the model may fail with. *)
Inductive Errno : Type := EACCES | EPERM | ENOENT | ENOTDIR | EIO | ELOOP.

Definition Errno_text (e : Errno) : string :=
  match e with
  | EACCES => "permission denied"
  | EPERM => "operation not permitted"
  | ENOENT => "no such file or directory"
  | ENOTDIR => "not a directory"
  | EIO => "input/output error"
  | ELOOP => "too many levels of symbolic links"
  end.

(** Error values.  [New var text] is a package-level [errors.New(text)]
    bound to the variable [var] (its identity); [Lib text] is an error of a
    collaborator library of which only the message matters; [PathError] is
    [*fs.PathError]; [Errorf text w] is [fmt.Errorf] with one [%w] operand
    and [Errorf2] with two, [text] being the formatted message. *)
Inductive error : Type :=
| New (var text : string)
| Lib (text : string)
| PathError (op path : string) (errno : Errno)
| Errorf (text : string) (wrapped : error)
| Errorf2 (text : string) (wrapped1 wrapped2 : error).

(** [err.Error()]. *)
Definition Error (e : error) : string :=
  match e with
  | New _ t => t
  | Lib t => t
  | PathError op p en => op +:+ " " +:+ p +:+ ": " +:+ Errno_text en
  | Errorf t _ => t
  | Errorf2 t _ _ => t
  end.

#[global] Instance Errno_eq_dec : EqDecision Errno.
Proof. solve_decision. Defined.

#[global] Instance error_eq_dec : EqDecision error.
Proof. solve_decision. Defined.

(** [errors.Is(err, target)]: identity, then the chain of wrapped errors. *)
Fixpoint errors_Is (err target : error) : bool :=
  if decide (err = target) then true
  else match err with
       | Errorf _ w => errors_Is w target
       | Errorf2 _ w1 w2 => errors_Is w1 target || errors_Is w2 target
       | _ => false
       end.

(** [os.IsPermission(err)]: looks through a [PathError] only. *)
Definition os_IsPermission (err : error) : bool :=
  match err with
  | PathError _ _ EACCES | PathError _ _ EPERM => true
  | _ => false
  end.

(** [fmt.Errorf(prefix + "%w", err)]. *)
Definition wrapf (prefix : string) (err : error) : error :=
  Errorf (prefix +:+ Error err) err.

(** The two context errors. *)
Definition context_Canceled : error := New "context.Canceled" "context canceled".
Definition context_DeadlineExceeded : error :=
  New "context.DeadlineExceeded" "context deadline exceeded".

(** Results of fallible calls: [(v, nil)] or [(_, err)]. *)
Inductive result (A : Type) : Type :=
| Ok (v : A)
| Err (e : error).
Arguments Ok {A} v.
Arguments Err {A} e.

(** [fmt.Sprintf("%d", n)]. *)
Definition itoa (n : int) : string := NilZero.string_of_int (Z.to_int n).

(** [strings.Join(parts, sep)]. *)
Fixpoint strings_Join (parts : list string) (sep : string) : string :=
  match parts with
  | [] => ""
  | [p] => p
  | p :: rest => p +:+ sep +:+ strings_Join rest sep
  end.

(** [strings.HasPrefix(s, prefix)]. *)
Definition strings_HasPrefix (s prefix : string) : bool := String.prefix prefix s.

(** [strings.Contains(s, substr)]. *)
Fixpoint strings_Contains (s substr : string) : bool :=
  String.prefix substr s ||
  match s with
  | EmptyString => false
  | String _ s' => strings_Contains s' substr
  end.

(** [filepath.IsAbs(path)] on a Unix system. *)
Definition filepath_IsAbs (path : string) : bool := strings_HasPrefix path "/".

(** [sort.Slice(s, less)].  The library promises a permutation of [s] in
    which no element is [less] than an earlier one, ties in no particular
    order; the model is the insertion sort the library itself runs on
    slices of at most twelve elements. *)
Fixpoint sort_insert {A : Type} (less : A -> A -> bool) (x : A) (l : list A) : list A :=
  match l with
  | [] => [x]
  | y :: l' => if less x y then x :: y :: l' else y :: sort_insert less x l'
  end.

Definition sort_Slice {A : Type} (less : A -> A -> bool) (s : list A) : list A :=
  fold_left (fun acc x => sort_insert less x acc) s [].

End Go.

(** ** Package [models] *)

Module models.
Import Go.

(** The four colour functions of the package ([color.New(..).SprintFunc()]);
    with colours disabled each is the identity, see [noColor]. *)
Record Palette : Type := mkPalette {
  grayColor : string -> string;
  yellowColor : string -> string;
  greenColor : string -> string;
  redColor : string -> string
}.

Definition noColor : Palette := mkPalette id id id id.

Definition errScanResultValidation : error :=
  New "errScanResultValidation" "scan result validation error".
Definition errRepositoryValidation : error :=
  New "errRepositoryValidation" "repository validation error".
Definition errGitStatusValidation : error :=
  New "errGitStatusValidation" "git status validation error".
Definition errTreeNodeValidation : error :=
  New "errTreeNodeValidation" "tree node validation error".

Module GitStatus.

Record t : Type := mk {
  Branch : string;
  IsDetached : bool;
  HasRemote : bool;
  Ahead : int;
  Behind : int;
  HasStashes : bool;
  HasChanges : bool;
  Error : string
}.

(** [&models.GitStatus{}]: every field at its zero value. *)
Definition zero : t := mk "" false false 0 0 false false "".

Definition with_Branch (v : string) (g : t) : t :=
  mk v (IsDetached g) (HasRemote g) (Ahead g) (Behind g) (HasStashes g) (HasChanges g) (Error g).
Definition with_IsDetached (v : bool) (g : t) : t :=
  mk (Branch g) v (HasRemote g) (Ahead g) (Behind g) (HasStashes g) (HasChanges g) (Error g).
Definition with_HasRemote (v : bool) (g : t) : t :=
  mk (Branch g) (IsDetached g) v (Ahead g) (Behind g) (HasStashes g) (HasChanges g) (Error g).
Definition with_Ahead (v : int) (g : t) : t :=
  mk (Branch g) (IsDetached g) (HasRemote g) v (Behind g) (HasStashes g) (HasChanges g) (Error g).
Definition with_Behind (v : int) (g : t) : t :=
  mk (Branch g) (IsDetached g) (HasRemote g) (Ahead g) v (HasStashes g) (HasChanges g) (Error g).
Definition with_HasStashes (v : bool) (g : t) : t :=
  mk (Branch g) (IsDetached g) (HasRemote g) (Ahead g) (Behind g) v (HasChanges g) (Error g).
Definition with_HasChanges (v : bool) (g : t) : t :=
  mk (Branch g) (IsDetached g) (HasRemote g) (Ahead g) (Behind g) (HasStashes g) v (Error g).
Definition with_Error (v : string) (g : t) : t :=
  mk (Branch g) (IsDetached g) (HasRemote g) (Ahead g) (Behind g) (HasStashes g) (HasChanges g) v.

(** [func (g *GitStatus) Validate() error]. *)
Definition Validate (g : t) : option error :=
  if String.eqb (Branch g) "" then
    Some (wrapf "branch cannot be empty: " errGitStatusValidation)
  else if IsDetached g && negb (String.eqb (Branch g) "DETACHED") then
    Some (wrapf "detached HEAD must have branch = 'DETACHED': " errGitStatusValidation)
  else if negb (HasRemote g) && (negb (Ahead g =? 0) || negb (Behind g =? 0)) then
    Some (wrapf "no remote but ahead/behind counts are non-zero: " errGitStatusValidation)
  else if (Ahead g <? 0) || (Behind g <? 0) then
    Some (wrapf "ahead/behind counts cannot be negative: " errGitStatusValidation)
  else None.

(** The [parts] slice built by [Format]. *)
Definition Format_parts (c : Palette) (g : t) : list string :=
  [ if String.eqb (Branch g) "main" || String.eqb (Branch g) "master"
    then grayColor c (Branch g) else yellowColor c (Branch g) ]
  ++ (if HasRemote g then
        (if Ahead g >? 0 then [greenColor c ("↑" +:+ itoa (Ahead g))] else [])
        ++ (if Behind g >? 0 then [redColor c ("↓" +:+ itoa (Behind g))] else [])
      else [grayColor c "○"])
  ++ (if HasStashes g then [redColor c "$"] else [])
  ++ (if HasChanges g then [redColor c "*"] else []).

(** [func (g *GitStatus) Format() string]. *)
Definition Format (c : Palette) (g : t) : string :=
  let parts := Format_parts c g in
  let result :=
    match parts with
    | [] => ""
    | [p0] => grayColor c "[[" +:+ " " +:+ p0 +:+ " " +:+ grayColor c "]]"
    | p0 :: rest =>
        let separator := " " +:+ grayColor c "|" +:+ " " in
        let statusParts := strings_Join rest " " in
        grayColor c "[[" +:+ " " +:+ p0 +:+ separator +:+ statusParts +:+ " " +:+ grayColor c "]]"
    end in
  if negb (String.eqb (Error g) "") then result +:+ " error" else result.

End GitStatus.

Module Repository.

Record t : Type := mk {
  Path : string;
  Name : string;
  IsBare : bool;
  IsSymlink : bool;
  GitStatus : option GitStatus.t;
  Error : option error;
  HasTimeout : bool
}.

(** [&models.Repository{Path: p, Name: n}]. *)
Definition at_path (p n : string) : t := mk p n false false None None false.

Definition with_GitStatus (v : option GitStatus.t) (r : t) : t :=
  mk (Path r) (Name r) (IsBare r) (IsSymlink r) v (Error r) (HasTimeout r).

(** [func (r *Repository) Validate() error]. *)
Definition Validate (r : t) : option error :=
  if String.eqb (Path r) "" then
    Some (wrapf "path cannot be empty: " errRepositoryValidation)
  else if negb (filepath_IsAbs (Path r)) then
    Some (wrapf "path must be absolute: " errRepositoryValidation)
  else if String.eqb (Name r) "" then
    Some (wrapf "name cannot be empty: " errRepositoryValidation)
  else if IsBare r && match GitStatus r with
                      | Some g => GitStatus.HasChanges g
                      | None => false
                      end then
    Some (wrapf "bare repository cannot have uncommitted changes: " errRepositoryValidation)
  else None.

End Repository.

Module TreeNode.

(** A node owns its children: no node of a tree built by this program is
    shared, so the in-place updates of the source are modelled by rebuilding
    the node.  [Repository] is never [nil] in such a tree. *)
Inductive t : Type := mk {
  Repository : Repository.t;
  Depth : int;
  IsLast : bool;
  Children : list t;
  RelativePath : string
}.

Definition with_Depth (v : int) (n : t) : t :=
  mk (Repository n) v (IsLast n) (Children n) (RelativePath n).
Definition with_IsLast (v : bool) (n : t) : t :=
  mk (Repository n) (Depth n) v (Children n) (RelativePath n).
Definition with_Children (v : list t) (n : t) : t :=
  mk (Repository n) (Depth n) (IsLast n) v (RelativePath n).

Definition Name (n : t) : string := Repository.Name (Repository n).

(** The comparison handed to [sort.Slice]. *)
Definition less (a b : t) : bool := String.ltb (Name a) (Name b).

(** The loop [for i, child := range t.Children] of [SortChildren]. *)
Definition markLast (children : list t) : list t :=
  imap (fun i child =>
          with_IsLast (Z.of_nat i =? Z.of_nat (length children) - 1) child)
       children.

(** [func (t *TreeNode) SortChildren()], as the new child list. *)
Definition SortChildren_list (children : list t) : list t :=
  markLast (sort_Slice less children).

Definition SortChildren (n : t) : t :=
  with_Children (SortChildren_list (Children n)) n.

(** [func (t *TreeNode) AddChild(child *TreeNode)]. *)
Definition AddChild (child : t) (n : t) : t :=
  with_Children (Children n ++ [with_Depth (incr (Depth n)) child]) n.

(** [func (t *TreeNode) Validate() error]. *)
Definition Validate (n : t) : option error :=
  if Depth n <? 0 then
    Some (wrapf ("depth cannot be negative: " +:+ itoa (Depth n) +:+ ": ") errTreeNodeValidation)
  else if String.eqb (RelativePath n) "" then
    Some (wrapf ("relative path cannot be empty: " +:+ Repository.Path (Repository n) +:+ ": ")
                errTreeNodeValidation)
  else None.

End TreeNode.

Module ScanResult.

Record t : Type := mk {
  RootPath : string;
  Repositories : list Repository.t;
  Tree : TreeNode.t;
  TotalScanned : int;
  TotalRepos : int;
  Errors : list error;
  Duration : int
}.

(** [func (s *ScanResult) HasErrors() bool]. *)
Definition HasErrors (s : t) : bool := Z.of_nat (length (Errors s)) >? 0.

(** [func (s *ScanResult) Validate() error], on the fields of the record:
    [repositories] and [tree] are [None] where the slice and the pointer
    are [nil]. *)
Definition Validate_fields (rootPath : string) (repositories : option (list Repository.t))
    (tree : option TreeNode.t) (totalScanned totalRepos duration : int) : option error :=
  if String.eqb rootPath "" then
    Some (wrapf "root path cannot be empty: " errScanResultValidation)
  else if negb (filepath_IsAbs rootPath) then
    Some (wrapf ("root path must be absolute: " +:+ rootPath +:+ ": ") errScanResultValidation)
  else
    match repositories with
    | None => Some (wrapf "repositories slice cannot be nil: " errScanResultValidation)
    | Some repositories =>
        match tree with
        | None => Some (wrapf "tree cannot be nil: " errScanResultValidation)
        | Some _ =>
            if negb (totalRepos =? Z.of_nat (length repositories)) then
              Some (wrapf ("total repos mismatch: " +:+ itoa totalRepos +:+ " != "
                             +:+ itoa (Z.of_nat (length repositories)) +:+ ": ")
                          errScanResultValidation)
            else if totalScanned <? totalRepos then
              Some (wrapf ("total scanned < total repos: " +:+ itoa totalScanned +:+ " < "
                             +:+ itoa totalRepos +:+ ": ")
                          errScanResultValidation)
            else if duration <? 0 then
              Some (wrapf "duration cannot be negative: " errScanResultValidation)
            else None
        end
    end.

(** [Validate] on a result whose slice and tree are there, as [Scan]
    returns it. *)
Definition Validate (s : t) : option error :=
  Validate_fields (RootPath s) (Some (Repositories s)) (Some (Tree s))
                  (TotalScanned s) (TotalRepos s) (Duration s).

End ScanResult.

End models.

(** ** The repository access library, as far as this program calls it *)

Module git.
Import Go.

(** [plumbing.Hash]: the 160-bit object name, read as a number. *)
Definition Hash : Type := N.

(** [object.Commit]: its own name and the names of its parents. *)
Record Commit : Type := mkCommit {
  Commit_Hash : Hash;
  ParentHashes : list Hash
}.

(** [plumbing.ReferenceName], through the two methods called on it. *)
Record ReferenceName : Type := mkReferenceName {
  IsBranch : bool;
  Short : string
}.

Record Reference : Type := mkReference {
  Name : ReferenceName;
  Ref_Hash : Hash
}.

(** [plumbing.NewRemoteReferenceName(remote, name)]. *)
Definition NewRemoteReferenceName (remote name : string) : string :=
  "refs/remotes/" +:+ remote +:+ "/" +:+ name.

(** [object.CommitIter]: the commits it hands over, in order, and the error
    it stops with, if any. *)
Record CommitIter : Type := mkCommitIter {
  commits : list Commit;
  failure : option error
}.

(** [iter.ForEach(cb)] for a callback that updates a state and never
    fails. *)
Definition ForEach {S : Type} (iter : CommitIter) (cb : Commit -> S -> S) (s : S)
  : S * option error :=
  (fold_left (fun acc c => cb c acc) (commits iter) s, failure iter).

Inductive StatusCode : Type :=
| Unmodified | Untracked | Modified | Added | Deleted | Renamed | Copied | UpdatedButUnmerged.

#[global] Instance StatusCode_eq_dec : EqDecision StatusCode.
Proof. solve_decision. Defined.

Record FileStatus : Type := mkFileStatus {
  Staging : StatusCode;
  Worktree_code : StatusCode
}.

(** [git.Status] and its [IsClean] method. *)
Definition IsClean (s : gmap string FileStatus) : bool :=
  bool_decide (map_Forall (fun _ fs => Worktree_code fs = Unmodified /\ Staging fs = Unmodified) s).

(** [git.Worktree]: its exclude patterns, and the status it computes under
    a given list of exclude patterns. *)
Record Worktree : Type := mkWorktree {
  Excludes : list string;
  StatusUnder : list string -> result (gmap string FileStatus)
}.

(** [wt.Status()]. *)
Definition Status (wt : Worktree) : result (gmap string FileStatus) :=
  StatusUnder wt (Excludes wt).

Definition ErrIsBareRepository : error :=
  New "git.ErrIsBareRepository" "worktree not available in a bare repository".

(** [*git.Repository]: the answers of an opened repository. *)
Record Repository : Type := mkRepository {
  Head : result Reference;
  Remotes : result (list string);
  Reference_ : string -> result Reference;
  CommitObject : Hash -> result Commit;
  Log : Hash -> result CommitIter;
  Worktree_ : result Worktree
}.

End git.

(** ** Package [gitstatus] *)

Module gitstatus.
Import Go models.

Record ExtractOptions : Type := mkExtractOptions {
  Timeout : int;          (* a [time.Duration], in nanoseconds *)
  MaxConcurrency : int;
  Debug : bool
}.

Definition second : int := 1000000000.
Definition defaultExtractTimeout : int := 10 * second.
Definition defaultMaxConcurrency : int := 10.

Definition errNoRemotes : error := New "errNoRemotes" "no remotes configured".

Definition DefaultOptions : ExtractOptions :=
  mkExtractOptions defaultExtractTimeout defaultMaxConcurrency false.

(** [if opts == nil { opts = DefaultOptions() }]. *)
Definition orDefault (opts : option ExtractOptions) : ExtractOptions :=
  match opts with
  | Some o => o
  | None => DefaultOptions
  end.

(** [extractBranch(repo, status)]: the updated status and the error. *)
Definition extractBranch (repo : git.Repository) (status : GitStatus.t)
  : GitStatus.t * option error :=
  match git.Head repo with
  | Err err => (status, Some (wrapf "failed to get HEAD: " err))
  | Ok head =>
      if negb (git.IsBranch (git.Name head)) then
        (GitStatus.with_Branch "DETACHED" (GitStatus.with_IsDetached true status), None)
      else
        (GitStatus.with_Branch (git.Short (git.Name head))
           (GitStatus.with_IsDetached false status), None)
  end.

(** [extractRemote(repo, status)]. *)
Definition extractRemote (repo : git.Repository) (status : GitStatus.t)
  : GitStatus.t * option error :=
  match git.Remotes repo with
  | Err err => (status, Some err)
  | Ok remotes =>
      if Z.of_nat (length remotes) >? 0 then (GitStatus.with_HasRemote true status, None)
      else (GitStatus.with_HasRemote false status, Some errNoRemotes)
  end.

(** [countCommitsBetween(repo, from, to)]. *)
Definition countCommitsBetween (repo : git.Repository) (from to : git.Commit)
  : int * option error :=
  match git.Log repo (git.Commit_Hash to) with
  | Err err => (0, Some err)
  | Ok iter =>
      let '(toCommits, err) :=
        git.ForEach iter
          (fun c (m : gmap git.Hash bool) => <[git.Commit_Hash c := true]> m) ∅ in
      match err with
      | Some err => (0, Some (wrapf "failed to iterate over commits: " err))
      | None =>
          match git.Log repo (git.Commit_Hash from) with
          | Err err => (0, Some err)
          | Ok iter =>
              let '(count, err) :=
                git.ForEach iter
                  (fun c (count : int) =>
                     if negb (default false (toCommits !! git.Commit_Hash c))
                     then incr count else count) 0 in
              match err with
              | Some err => (0, Some err)
              | None => (count, None)
              end
          end
      end
  end.

(** [extractAheadBehind(repo, status)]. *)
Definition extractAheadBehind (repo : git.Repository) (status : GitStatus.t)
  : GitStatus.t * option error :=
  match git.Head repo with
  | Err err => (status, Some err)
  | Ok head =>
      let branchName := git.Short (git.Name head) in
      let remoteBranchRefName := git.NewRemoteReferenceName "origin" branchName in
      match git.Reference_ repo remoteBranchRefName with
      | Err err => (GitStatus.with_Behind 0 (GitStatus.with_Ahead 0 status), Some err)
      | Ok remoteRef =>
          match git.CommitObject repo (git.Ref_Hash head) with
          | Err err => (status, Some err)
          | Ok localCommit =>
              match git.CommitObject repo (git.Ref_Hash remoteRef) with
              | Err err => (status, Some err)
              | Ok remoteCommit =>
                  match countCommitsBetween repo localCommit remoteCommit with
                  | (_, Some err) => (status, Some err)
                  | (ahead, None) =>
                      let status := GitStatus.with_Ahead ahead status in
                      match countCommitsBetween repo remoteCommit localCommit with
                      | (_, Some err) => (status, Some err)
                      | (behind, None) => (GitStatus.with_Behind behind status, None)
                      end
                  end
              end
          end
      end
  end.

(** [extractStashes(repo)]. *)
Definition extractStashes (repo : git.Repository) : bool :=
  match git.Reference_ repo "refs/stash" with
  | Err _ => false
  | Ok _ => true
  end.

(** [extractUncommittedChanges(repo, status, opts, ignorePatterns)]. *)
Definition extractUncommittedChanges (repo : git.Repository) (status : GitStatus.t)
    (opts : ExtractOptions) (ignorePatterns : list string)
  : GitStatus.t * option error :=
  match git.Worktree_ repo with
  | Err err =>
      let status := GitStatus.with_HasChanges false status in
      if errors_Is err git.ErrIsBareRepository then (status, Some git.ErrIsBareRepository)
      else (status, Some (wrapf "failed to get worktree: " err))
  | Ok worktree =>
      let worktree :=
        if Z.of_nat (length ignorePatterns) >? 0
        then git.mkWorktree (git.Excludes worktree ++ ignorePatterns) (git.StatusUnder worktree)
        else worktree in
      match git.Status worktree with
      | Err err => (status, Some (wrapf "failed to get worktree status: " err))
      | Ok wtStatus => (GitStatus.with_HasChanges (negb (git.IsClean wtStatus)) status, None)
      end
  end.

(** [if status.Error == "" { status.Error = err.Error() }]. *)
Definition noteError (err : error) (status : GitStatus.t) : GitStatus.t :=
  if String.eqb (GitStatus.Error status) "" then GitStatus.with_Error (Error err) status
  else status.

(** [extractGitStatus(repoPath, opts, ignorePatterns)], given the answer
    [opened] of [git.PlainOpen(repoPath)]. *)
Definition extractGitStatus (opened : result git.Repository) (opts : ExtractOptions)
    (ignorePatterns : list string) : option GitStatus.t * option error :=
  match opened with
  | Err err => (None, Some (wrapf "failed to open repository: " err))
  | Ok repo =>
      let status := GitStatus.zero in
      let status :=
        match extractBranch repo status with
        | (status, Some err) =>
            GitStatus.with_Error (Error err) (GitStatus.with_Branch "N/A" status)
        | (status, None) => status
        end in
      let status :=
        match extractRemote repo status with
        | (status, Some _) => GitStatus.with_HasRemote false status
        | (status, None) => status
        end in
      let status :=
        if GitStatus.HasRemote status then
          match extractAheadBehind repo status with
          | (status, Some err) => noteError err status
          | (status, None) => status
          end
        else status in
      let status := GitStatus.with_HasStashes (extractStashes repo) status in
      let status :=
        match extractUncommittedChanges repo status opts ignorePatterns with
        | (status, Some err) =>
            if negb (errors_Is err git.ErrIsBareRepository) then noteError err status
            else status
        | (status, None) => status
        end in
      (Some status, None)
  end.

(** What decides the [select] of [Extract]: when the worker goroutine
    delivers, when and why the caller's context is done (if ever), and the
    case taken when both channels are ready at once.  An extraction that
    never comes back is no timing of a call that returns: without a
    deadline and with a context that is never done, [Extract] then waits
    for ever; [batch.hangs] has such extractions. *)
Record Timing : Type := mkTiming {
  delivered : Z;
  parentDone : option (Z * error);
  workerOnTie : bool
}.

(** [ctx.Done()] of the context [Extract] waits on: the caller's context,
    narrowed by [context.WithTimeout] when [opts.Timeout > 0]. *)
Definition doneAt (opts : ExtractOptions) (tm : Timing) : option (Z * error) :=
  if Timeout opts >? 0 then
    match parentDone tm with
    | Some (t, cause) =>
        if t <=? Timeout opts then Some (t, cause)
        else Some (Timeout opts, context_DeadlineExceeded)
    | None => Some (Timeout opts, context_DeadlineExceeded)
    end
  else parentDone tm.

(** The [select] of [Extract] takes the case [<-ctx.Done()]: the context
    is done before the worker delivers, or at the same moment and the
    choice falls on it.  The answer is [ctx.Err()]. *)
Definition ctxCase (opts : ExtractOptions) (tm : Timing) : option error :=
  match doneAt opts tm with
  | Some (t, cause) =>
      if (t <? delivered tm) || ((t =? delivered tm) && negb (workerOnTie tm))
      then Some cause else None
  | None => None
  end.

(** [Extract(ctx, repoPath, opts, ignorePatterns)], given the answer
    [opened] of [git.PlainOpen(repoPath)]. *)
Definition Extract (tm : Timing) (opened : result git.Repository)
    (opts : option ExtractOptions) (ignorePatterns : list string)
  : option GitStatus.t * option error :=
  let opts := orDefault opts in
  match ctxCase opts tm with
  | Some cause =>
      (Some (GitStatus.with_Error "timeout" (GitStatus.with_Branch "N/A" GitStatus.zero)),
       Some cause)
  | None =>
      match extractGitStatus opened opts ignorePatterns with
      | (_, Some err) =>
          (Some (GitStatus.with_Error (Error err) (GitStatus.with_Branch "N/A" GitStatus.zero)),
           Some err)
      | (status, None) => (status, None)
      end
  end.

End gitstatus.

(** ** The path functions of the standard library *)

Module filepath.
Import Go.

(** [filepath.Rel], [filepath.Join], [filepath.Base] and [filepath.Abs] as
    the program calls them on strings.  The properties below hold whatever
    these four functions answer; [unix] is one concrete choice, used to
    evaluate examples: right for cleaned absolute paths with the target of
    [Rel] at the base or below it, and for a relative target under an
    absolute base, which [Rel] refuses.  For a target beside the base the
    library answers a path through [..], where [unix] refuses. *)
Record API : Type := mkAPI {
  Rel : string -> string -> result string;
  Join : string -> string -> string;
  Base : string -> string;
  Abs : string -> result string
}.

(** [strings.Split(s, "/")]: the pieces between slashes, at least one. *)
Fixpoint splitSlash (s : string) : list string :=
  match s with
  | EmptyString => [""]
  | String c s' =>
      if Ascii.eqb c "/" then "" :: splitSlash s'
      else match splitSlash s' with
           | [] => [String c ""]
           | p :: ps => String c p :: ps
           end
  end.

(** The prefix under which the entries of directory [path] are named:
    [path + "/"], or ["/"] for the root directory. *)
Definition dirPrefix (path : string) : string :=
  if String.eqb path "/" then "/" else path +:+ "/".

(** [filepath.Join(path, name)] for a cleaned [path] and a plain file
    name. *)
Definition joinName (path name : string) : string := dirPrefix path +:+ name.

(** Removes [prefix] from the front of [s], if it is there. *)
Fixpoint stripPrefix (prefix s : string) : option string :=
  match prefix, s with
  | EmptyString, _ => Some s
  | String a p', String b s' => if Ascii.eqb a b then stripPrefix p' s' else None
  | String _ _, EmptyString => None
  end.

Definition unix : API :=
  mkAPI
    (fun base targ =>
       if String.eqb base targ then Ok "."
       else match stripPrefix (dirPrefix base) targ with
            | Some rest => Ok rest
            | None => Err (Lib ("Rel: can't make " +:+ targ +:+ " relative to " +:+ base))
            end)
    joinName
    (fun p => List.last (splitSlash p) "")
    (fun p => if strings_HasPrefix p "/" then Ok p else Ok (joinName "/work" p)).

End filepath.

(** ** Package [tree] *)

Module tree.
Import Go models.

Record FormatOptions : Type := mkFormatOptions {
  ShowRoot : bool;
  RootLabel : string
}.

Definition DefaultFormatOptions : FormatOptions := mkFormatOptions true ".".

Definition orDefault (opts : option FormatOptions) : FormatOptions :=
  match opts with
  | Some o => o
  | None => DefaultFormatOptions
  end.

(** The search [for _, child := range current.Children] of
    [insertIntoTree]: the index of the first child named [part]. *)
Definition findChild (part : string) (children : list TreeNode.t) : option nat :=
  fst <$> list_find (fun child => TreeNode.Name child = part) children.

(** The body of [insertIntoTree] from loop index [length seen] on: [seen]
    are the parts already walked, [todo] the parts still ahead, the last of
    which names the repository itself. *)
Fixpoint insertFrom (fp : filepath.API) (repo : Repository.t) (relPath : string)
    (seen todo : list string) (currentPath : string) (current : TreeNode.t)
    {struct todo} : TreeNode.t :=
  match todo with
  | part :: ((_ :: _) as rest) =>
      let currentPath := filepath.Join fp currentPath part in
      match findChild part (TreeNode.Children current) with
      | Some k =>
          TreeNode.with_Children
            (alter (insertFrom fp repo relPath (seen ++ [part]) rest currentPath) k
                   (TreeNode.Children current))
            current
      | None =>
          let newNode :=
            TreeNode.mk (Repository.at_path currentPath part) 0 false []
                        (strings_Join (seen ++ [part]) "/") in
          TreeNode.with_Children
            (TreeNode.Children current
               ++ [insertFrom fp repo relPath (seen ++ [part]) rest currentPath newNode])
            current
      end
  | _ =>
      let repoNode := TreeNode.mk repo 0 false [] relPath in
      TreeNode.with_Children (TreeNode.Children current ++ [repoNode]) current
  end.

(** [insertIntoTree(root, repo, relPath, rootPath)]; [filepath.ToSlash] is
    the identity on a Unix system. *)
Definition insertIntoTree (fp : filepath.API) (root : TreeNode.t) (repo : Repository.t)
    (relPath rootPath : string) : TreeNode.t :=
  insertFrom fp repo relPath [] (filepath.splitSlash relPath) rootPath root.

(** [sortTree(node)] for a node whose [Depth] has just been set to
    [depth]. *)
Fixpoint sortTreeFrom (depth : int) (node : TreeNode.t) : TreeNode.t :=
  match node with
  | TreeNode.mk repo _ isLast children relPath =>
      TreeNode.mk repo depth isLast
        (TreeNode.SortChildren_list (map (sortTreeFrom (incr depth)) children))
        relPath
  end.

(** [sortTree(node)]. *)
Definition sortTree (node : TreeNode.t) : TreeNode.t :=
  sortTreeFrom (TreeNode.Depth node) node.

(** [Build(rootPath, repos, opts)].  A [nil] slice is the empty list: the
    early return leaves the childless root that the loop and [sortTree]
    leave as well. *)
Definition Build (fp : filepath.API) (rootPath : string) (repos : list Repository.t)
    (opts : option FormatOptions) : TreeNode.t :=
  let opts := orDefault opts in
  let root :=
    TreeNode.mk (Repository.at_path rootPath (RootLabel opts)) 0 false [] (RootLabel opts) in
  let root :=
    fold_left
      (fun root repo =>
         match filepath.Rel fp rootPath (Repository.Path repo) with
         | Err _ => root
         | Ok relPath => insertIntoTree fp root repo relPath rootPath
         end)
      repos root in
  sortTree root.

(** [formatNode(builder, node, prefix, isLast)]: the text it appends. *)
Fixpoint formatNode (c : Palette) (node : TreeNode.t) (prefix : string) (isLast : bool)
  : string :=
  let repo := TreeNode.Repository node in
  let connector := if isLast then "└── " else "├── " in
  let line := prefix +:+ connector +:+ Repository.Name repo in
  let line :=
    match Repository.GitStatus repo with
    | Some g => line +:+ " " +:+ GitStatus.Format c g
    | None => line
    end in
  let line :=
    match Repository.Error repo, Repository.GitStatus repo with
    | Some _, None => line +:+ " error"
    | _, _ => line
    end in
  let line :=
    match Repository.GitStatus repo with
    | Some g =>
        if Repository.HasTimeout repo && negb (String.eqb (GitStatus.Error g) "")
        then line +:+ " timeout" else line
    | None => line
    end in
  let line :=
    match Repository.GitStatus repo with
    | Some g =>
        if Repository.IsBare repo && negb (strings_Contains (GitStatus.Format c g) "bare")
        then line +:+ " bare" else line
    | None => line
    end in
  let childPrefix := if isLast then prefix +:+ "    " else prefix +:+ "│   " in
  line +:+ String "010" "" +:+
  (fix children (l : list TreeNode.t) : string :=
     match l with
     | [] => ""
     | [child] => formatNode c child childPrefix true
     | child :: rest => formatNode c child childPrefix false +:+ children rest
     end) (TreeNode.Children node).

(** [Format(root, opts)]. *)
Definition Format (c : Palette) (root : option TreeNode.t) (opts : option FormatOptions)
  : string :=
  let opts := orDefault opts in
  match root with
  | None => ""
  | Some root =>
      if Z.of_nat (length (TreeNode.Children root)) =? 0 then
        (if ShowRoot opts then RootLabel opts +:+ String "010" "" else "")
      else
        (if ShowRoot opts then RootLabel opts +:+ String "010" "" else "") +:+
        (fix children (l : list TreeNode.t) : string :=
           match l with
           | [] => ""
           | [child] => formatNode c child "" true
           | child :: rest => formatNode c child "" false +:+ children rest
           end) (TreeNode.Children root)
  end.

End tree.

(** ** The file system, as the scan reads it *)

Module os.
Import Go.

(** What [os.Stat] finds behind a symbolic link. *)
Inductive LinkTarget : Type :=
| Dangling (errno : Errno)
| ToFile
| ToDir (ino : option N).

(** A directory: its inode number ([None] where [info.Sys()] is no
    [syscall.Stat_t]), whether [os.Lstat] on it fails, whether names can be
    looked up in it, and whether [os.ReadDir] on it fails. *)
Record DirInfo : Type := mkDirInfo {
  Ino : option N;
  LstatErr : option Errno;
  Search : bool;
  ReadDirErr : option Errno
}.

(** A directory entry with what lies below it; the entries of a directory
    stand in the order [os.ReadDir] lists them (sorted by file name). *)
Inductive Entry : Type :=
| File (name : string) (ino : option N)
| Symlink (name : string) (target : LinkTarget)
| Dir (name : string) (info : DirInfo) (entries : list Entry).

Definition Name (d : Entry) : string :=
  match d with
  | File n _ | Symlink n _ | Dir n _ _ => n
  end.

(** [d.IsDir()] of the [fs.DirEntry]: a symbolic link is no directory. *)
Definition IsDir (d : Entry) : bool :=
  match d with
  | Dir _ _ _ => true
  | _ => false
  end.

(** [fs.FileInfo], through what the scan reads of it. *)
Record FileInfo : Type := mkFileInfo {
  fi_IsDir : bool;
  fi_IsSymlink : bool;       (* [info.Mode()&os.ModeSymlink != 0] *)
  fi_Ino : option N          (* the [Ino] of [info.Sys()], when it is a [syscall.Stat_t] *)
}.

(** [os.Lstat(path)] for the entry at [path]. *)
Definition Lstat (path : string) (d : Entry) : result FileInfo :=
  match d with
  | File _ ino => Ok (mkFileInfo false false ino)
  | Symlink _ _ => Ok (mkFileInfo false true None)
  | Dir _ info _ =>
      match LstatErr info with
      | Some en => Err (PathError "lstat" path en)
      | None => Ok (mkFileInfo true false (Ino info))
      end
  end.

(** [os.Stat(path)] for the entry at [path]: follows a symbolic link. *)
Definition Stat (path : string) (d : Entry) : result FileInfo :=
  match d with
  | Symlink _ (Dangling en) => Err (PathError "stat" path en)
  | Symlink _ ToFile => Ok (mkFileInfo false false None)
  | Symlink _ (ToDir ino) => Ok (mkFileInfo true false ino)
  | _ => Lstat path d
  end.

(** [os.Stat(filepath.Join(path, name))] for the directory [d] at [path]. *)
Definition StatIn (path : string) (d : Entry) (name : string) : result FileInfo :=
  let child := filepath.joinName path name in
  match d with
  | Dir _ info entries =>
      if negb (Search info) then Err (PathError "stat" child EACCES)
      else match List.find (fun e => String.eqb (Name e) name) entries with
           | Some e => Stat child e
           | None => Err (PathError "stat" child ENOENT)
           end
  | _ => Err (PathError "stat" child ENOTDIR)
  end.

End os.

(** ** Package [scanner] *)

Module scanner.
Import Go models.

Record ScanOptions : Type := mkScanOptions { RootPath : string }.

(** [IsGitRepository(path)] for the entry [d] at [path]. *)
Definition IsGitRepository (path : string) (d : os.Entry) : bool * bool :=
  let regular :=
    match os.StatIn path d ".git" with Ok info => os.fi_IsDir info | Err _ => false end in
  if regular then (true, false)
  else
    let headExists := match os.StatIn path d "HEAD" with Ok _ => true | Err _ => false end in
    let refsExists :=
      match os.StatIn path d "refs" with Ok info => os.fi_IsDir info | Err _ => false end in
    let objsExists :=
      match os.StatIn path d "objects" with Ok info => os.fi_IsDir info | Err _ => false end in
    if headExists && refsExists && objsExists then (true, true) else (false, false).

(** [type scanner struct]. *)
Record scanner : Type := mkScanner {
  rootPath : string;
  repositories : list Repository.t;
  errors : list error;
  visited : gmap N bool;
  dirCount : int
}.

(** One call of [IsGitRepository] and its answer. *)
Record Probe : Type := mkProbe {
  probed : string;
  isRepo : bool;
  isBare : bool
}.

(** The state of a walk: the [scanner], and two records of what happened so
    far, the calls of [IsGitRepository] in order and the number of calls of
    the walk function. *)
Record Run : Type := mkRun {
  sc : scanner;
  probes : list Probe;
  calls : nat
}.

(** [context.Context]: [ctx.Done()] is closed from call number [firesAt]
    of the walk function on, and [ctx.Err()] is then [cause]. *)
Record Context : Type := mkContext {
  firesAt : option nat;
  cause : error
}.

Definition Background : Context := mkContext None context_Canceled.

Definition ctx_Err (ctx : Context) (call : nat) : option error :=
  match firesAt ctx with
  | Some k => if (k <=? call)%nat then Some (cause ctx) else None
  | None => None
  end.

Definition errScanResultValidation : error :=
  New "errScanResultValidation" "scan result validation error".
Definition errPermissionDenied : error := New "errPermissionDenied" "permission denied".
Definition fs_SkipDir : error := New "fs.SkipDir" "skip this directory".
Definition fs_SkipAll : error := New "fs.SkipAll" "skip everything and stop the walk".

(** [s.shouldVisit(path)] for the entry [d] at [path]: the scanner, and
    [(shouldVisit, isSymlink, err)].  For a link, [filepath.EvalSymlinks]
    followed by [os.Stat] on the target is [os.Stat] on the link; for a
    broken link the error of the code names the target, which the model of
    the file system does not record, where this one names the link.  The
    walk calls the function on directories only, never on a link. *)
Definition shouldVisit (path : string) (d : os.Entry) (s : scanner)
  : scanner * (bool * bool * option error) :=
  match os.Lstat path d with
  | Err err => (s, (false, false, Some err))
  | Ok info =>
      let isSymlink := os.fi_IsSymlink info in
      let resolved : result (option os.FileInfo) :=
        if isSymlink then
          match os.Stat path d with
          | Err err => Err err
          | Ok info => if negb (os.fi_IsDir info) then Ok None else Ok (Some info)
          end
        else Ok (Some info) in
      match resolved with
      | Err err => (s, (false, false, Some err))
      | Ok None => (s, (false, false, None))
      | Ok (Some info) =>
          match os.fi_Ino info with
          | None => (s, (true, isSymlink, None))
          | Some inode =>
              if default false (visited s !! inode) then (s, (false, isSymlink, None))
              else
                (mkScanner (rootPath s) (repositories s) (errors s)
                           (<[inode := true]> (visited s)) (dirCount s),
                 (true, isSymlink, None))
          end
      end
  end.

(** The arguments [(d, err)] of a call of the walk function: the first
    visit of an entry, or the report of a failure ([d] is [nil] when the
    root could not be read at all). *)
Inductive Visit : Type :=
| Entered (d : os.Entry)
| Failed (d : option os.Entry) (err : error).

Definition add_error (e : error) (s : scanner) : scanner :=
  mkScanner (rootPath s) (repositories s) (errors s ++ [e]) (visited s) (dirCount s).

Definition add_repository (repo : Repository.t) (s : scanner) : scanner :=
  mkScanner (rootPath s) (repositories s ++ [repo]) (errors s) (visited s) (dirCount s).

Definition count_dir (s : scanner) : scanner :=
  mkScanner (rootPath s) (repositories s) (errors s) (visited s) (incr (dirCount s)).

(** [s.walkFunc(ctx, path, d, err)]. *)
Definition walkFunc (fp : filepath.API) (ctx : Context) (path : string) (v : Visit) (r : Run)
  : Run * option error :=
  let now := calls r in
  let r := mkRun (sc r) (probes r) (S now) in
  match ctx_Err ctx now with
  | Some err => (r, Some err)
  | None =>
      match v with
      | Failed _ err =>
          if os_IsPermission err then
            (mkRun (add_error
                      (Errorf ("permission denied: " +:+ path +:+ ": " +:+ Error errPermissionDenied)
                              errPermissionDenied) (sc r))
                   (probes r) (calls r),
             Some fs_SkipDir)
          else (r, Some err)
      | Entered d =>
          if negb (os.IsDir d) then (r, None)
          else
            let s := count_dir (sc r) in
            match shouldVisit path d s with
            | (s, (_, _, Some err)) =>
                (mkRun (add_error (wrapf ("error checking path " +:+ path +:+ ": ") err) s)
                       (probes r) (calls r),
                 Some fs_SkipDir)
            | (s, (false, _, None)) => (mkRun s (probes r) (calls r), Some fs_SkipDir)
            | (s, (true, isSymlink, None)) =>
                let '(isRepo, isBare) := IsGitRepository path d in
                let log := probes r ++ [mkProbe path isRepo isBare] in
                if isRepo then
                  let repo :=
                    Repository.mk path (filepath.Base fp path) isBare isSymlink None None false in
                  (mkRun (add_repository repo s) log (calls r), Some fs_SkipDir)
                else (mkRun s log (calls r), None)
            end
      end
  end.

(** [filepath.walkDir(path, d, walkDirFn)] of the standard library.  When
    [os.ReadDir] fails, nothing of the directory is listed. *)
Fixpoint walkDir (fn : string -> Visit -> Run -> Run * option error)
    (path : string) (d : os.Entry) (r : Run) : Run * option error :=
  match fn path (Entered d) r with
  | (r, Some err) =>
      (r, if bool_decide (err = fs_SkipDir) && os.IsDir d then None else Some err)
  | (r, None) =>
      match d with
      | os.Dir _ info entries =>
          match os.ReadDirErr info with
          | Some en =>
              match fn path (Failed (Some d) (PathError "open" path en)) r with
              | (r, Some err) =>
                  (r, if bool_decide (err = fs_SkipDir) && os.IsDir d then None else Some err)
              | (r, None) => (r, None)
              end
          | None =>
              (fix each (l : list os.Entry) (r : Run) : Run * option error :=
                 match l with
                 | [] => (r, None)
                 | d1 :: rest =>
                     match walkDir fn (filepath.joinName path (os.Name d1)) d1 r with
                     | (r, Some err) =>
                         if bool_decide (err = fs_SkipDir) then (r, None) else (r, Some err)
                     | (r, None) => each rest r
                     end
                 end) entries r
          end
      | _ => (r, None)
      end
  end.

(** The loop [for _, d1 := range dirs] of [walkDir] on its own. *)
Definition walkEntries (fn : string -> Visit -> Run -> Run * option error) (path : string)
  : list os.Entry -> Run -> Run * option error :=
  fix each (l : list os.Entry) (r : Run) : Run * option error :=
    match l with
    | [] => (r, None)
    | d1 :: rest =>
        match walkDir fn (filepath.joinName path (os.Name d1)) d1 r with
        | (r, Some err) =>
            if bool_decide (err = fs_SkipDir) then (r, None) else (r, Some err)
        | (r, None) => each rest r
        end
    end.

(** [filepath.WalkDir(root, fn)], given the answer [found] of
    [os.Lstat(root)]: the entry there with what lies below it. *)
Definition WalkDir (found : result os.Entry)
    (fn : string -> Visit -> Run -> Run * option error) (root : string) (r : Run)
  : Run * option error :=
  let '(r, err) :=
    match found with
    | Err err => fn root (Failed None err) r
    | Ok d => walkDir fn root d r
    end in
  match err with
  | Some e =>
      if bool_decide (e = fs_SkipDir) || bool_decide (e = fs_SkipAll) then (r, None)
      else (r, Some e)
  | None => (r, None)
  end.

(** [s.buildTree()]. *)
Definition buildTree (fp : filepath.API) (s : scanner) : TreeNode.t :=
  if Z.of_nat (length (repositories s)) =? 0 then
    TreeNode.mk (Repository.at_path (rootPath s) (filepath.Base fp (rootPath s)))
                0 true [] "."
  else
    let root :=
      TreeNode.mk (Repository.at_path (rootPath s) (filepath.Base fp (rootPath s)))
                  0 false [] "." in
    let root :=
      fold_left
        (fun root repo =>
           let relPath :=
             match filepath.Rel fp (rootPath s) (Repository.Path repo) with
             | Err _ => Repository.Path repo
             | Ok relPath => relPath
             end in
           let node := TreeNode.mk repo 1 false [] relPath in
           TreeNode.with_Children (TreeNode.Children root ++ [node]) root)
        (repositories s) root in
    TreeNode.SortChildren root.

(** What the scan asks of the outside: [os.Stat] on the root path as given
    (whether it is a directory), [os.Lstat] on the absolute root path with
    the tree below it, and the time the scan took. *)
Record World : Type := mkWorld {
  StatRoot : string -> result bool;
  LstatRoot : string -> result os.Entry;
  elapsed : int
}.

(** The walk of [Scan] on the absolute root path [absPath]. *)
Definition Scan_walk (w : World) (fp : filepath.API) (ctx : Context) (absPath : string)
  : Run * option error :=
  WalkDir (LstatRoot w absPath) (walkFunc fp ctx) absPath
          (mkRun (mkScanner absPath [] [] ∅ 0) [] 0).

(** [Scan(ctx, opts)]. *)
Definition Scan (w : World) (fp : filepath.API) (ctx : Context) (opts : ScanOptions)
  : option ScanResult.t * option error :=
  match StatRoot w (RootPath opts) with
  | Err err =>
      (None,
       Some (Errorf2 ("cannot access root path: " +:+ Error errScanResultValidation
                        +:+ ": " +:+ Error err)
                     errScanResultValidation err))
  | Ok isDir =>
      if negb isDir then
        (None,
         Some (Errorf ("root path " +:+ RootPath opts +:+ " is not a directory: "
                         +:+ Error errScanResultValidation)
                      errScanResultValidation))
      else
        match filepath.Abs fp (RootPath opts) with
        | Err err =>
            (None,
             Some (Errorf2 ("cannot get absolute path: " +:+ Error errScanResultValidation
                              +:+ ": " +:+ Error err)
                           errScanResultValidation err))
        | Ok absPath =>
            let '(r, err) := Scan_walk w fp ctx absPath in
            let fatal :=
              match err with
              | Some e => if negb (errors_Is e context_Canceled) then Some e else None
              | None => None
              end in
            match fatal with
            | Some e => (None, Some (wrapf "error walking directory tree: " e))
            | None =>
                let s := sc r in
                (Some (ScanResult.mk absPath (repositories s) (buildTree fp s) (dirCount s)
                         (Z.of_nat (length (repositories s))) (errors s) (elapsed w)),
                 None)
            end
        end
  end.

End scanner.

(** ** The command [gitree] *)

Module cmd.
Import Go models.

(** [repoMap[repo.Path] = repo] for every repository of the scan: the map
    from a path to the place in the list of the record stored last under
    it. *)
Definition repoMap (repos : list Repository.t) : gmap string nat :=
  fold_left (fun m ir => <[Repository.Path ir.2 := ir.1]> m) (imap pair repos) ∅.

(** The loop [for path, status := range statuses]: a record receives the
    status found under its path when it is the record [repoMap] holds. *)
Definition populate (statuses : gmap string GitStatus.t) (repos : list Repository.t)
  : list Repository.t :=
  imap (fun i repo =>
          match statuses !! Repository.Path repo with
          | Some status =>
              if bool_decide (repoMap repos !! Repository.Path repo = Some i)
              then Repository.with_GitStatus (Some status) repo else repo
          | None => repo
          end) repos.

(** What [main] writes to the standard output, given the working
    directory, the result of [scanner.Scan] and the map returned by
    [gitstatus.ExtractBatch]. *)
Definition main_stdout (fp : filepath.API) (c : Palette) (cwd : string)
    (scan : option ScanResult.t * option error) (statuses : gmap string GitStatus.t)
  : string :=
  match scan with
  | (_, Some _) => ""
  | (None, None) => ""
  | (Some scanResult, None) =>
      if Z.of_nat (length (ScanResult.Repositories scanResult)) =? 0 then
        "No Git repositories found in this directory." +:+ String "010" ""
      else
        let repos := populate statuses (ScanResult.Repositories scanResult) in
        tree.Format c (Some (tree.Build fp cwd repos None)) None
  end.

End cmd.

(** ** Commit histories *)

Module history.
Import Go.

(** [reachable repo h x]: the commit named [x] is [h] itself or an
    ancestor of [h] through the parent links of the commit objects. *)
Inductive reachable (repo : git.Repository) : git.Hash -> git.Hash -> Prop :=
| reach_self (h : git.Hash) : reachable repo h h
| reach_parent (h : git.Hash) (c : git.Commit) (p x : git.Hash) :
    git.CommitObject repo h = Ok c ->
    p ∈ git.ParentHashes c ->
    reachable repo p x ->
    reachable repo h x.

(** The names of the commits an iterator hands over. *)
Definition hashes (iter : git.CommitIter) : list git.Hash :=
  map git.Commit_Hash (git.commits iter).

(** What the library promises of [repo.Log] from a commit, once the
    iteration has run to its end: every commit reachable from it, each one
    once. *)
Definition Log_walks_history (repo : git.Repository) : Prop :=
  forall (h : git.Hash) (iter : git.CommitIter),
    git.Log repo h = Ok iter ->
    git.failure iter = None ->
    NoDup (hashes iter) /\ forall x, x ∈ hashes iter <-> reachable repo h x.

(** What the library promises of [repo.CommitObject]: the commit found
    under a name bears that name. *)
Definition CommitObject_names (repo : git.Repository) : Prop :=
  forall (h : git.Hash) (c : git.Commit),
    git.CommitObject repo h = Ok c -> git.Commit_Hash c = h.

(** The history from [h] can be read to its end. *)
Definition readable (repo : git.Repository) (h : git.Hash) : Prop :=
  (exists c, git.CommitObject repo h = Ok c) /\
  (exists iter, git.Log repo h = Ok iter /\ git.failure iter = None).

End history.

(** ** The shape of a tree *)

Module shape.
Import Go models.

(** The number of levels of a tree: one for a node without children. *)
Fixpoint height (n : TreeNode.t) : nat :=
  S ((fix highest (l : list TreeNode.t) : nat :=
        match l with
        | [] => O
        | c :: rest => Nat.max (height c) (highest rest)
        end) (TreeNode.Children n)).

(** Every node of a tree, the root first. *)
Fixpoint nodes (n : TreeNode.t) : list TreeNode.t :=
  n :: (fix below (l : list TreeNode.t) : list TreeNode.t :=
          match l with
          | [] => []
          | c :: rest => nodes c ++ below rest
          end) (TreeNode.Children n).

(** [a] does not come after [b] in the byte-wise order of strings, the
    order of Go's [<] on strings. *)
Definition name_le (a b : string) : Prop := String.leb a b = true.

(** A child list in alphabetical order of the names. *)
Definition sortedByName (l : list TreeNode.t) : Prop :=
  StronglySorted (fun a b => name_le (TreeNode.Name a) (TreeNode.Name b)) l.

(** The last child of the list, and no other, carries the flag. *)
Definition lastFlagged (l : list TreeNode.t) : Prop :=
  forall (i : nat) (c : TreeNode.t),
    l !! i = Some c -> TreeNode.IsLast c = bool_decide (S i = length l).

(** The children of the node stand one level below it. *)
Definition oneLevelDown (n : TreeNode.t) : Prop :=
  Forall (fun c => TreeNode.Depth c = TreeNode.Depth n + 1) (TreeNode.Children n).

(** What [Build] promises of a node. *)
Definition ordered (n : TreeNode.t) : Prop :=
  sortedByName (TreeNode.Children n) /\
  oneLevelDown n /\
  lastFlagged (TreeNode.Children n).

(** A flat tree: every child of the root stands at depth 1 and has no
    children of its own. *)
Definition flat (t : TreeNode.t) : Prop :=
  TreeNode.Depth t = 0 /\
  Forall (fun c => TreeNode.Depth c = 1 /\ TreeNode.Children c = []) (TreeNode.Children t).

End shape.

(** ** Paths below paths *)

Module paths.
Import Go.

(** [path] lies strictly beneath the directory [root]: it is the name of
    something inside it, at any depth. *)
Definition strictlyBeneath (root path : string) : Prop :=
  exists rest, rest <> "" /\ path = filepath.dirPrefix root +:+ rest.

(** [path] is the directory [root] or lies beneath it. *)
Definition within (root path : string) : Prop :=
  path = root \/ exists rest, path = filepath.dirPrefix root +:+ rest.

Fixpoint hasSlash (s : string) : bool :=
  match s with
  | EmptyString => false
  | String c s' => Ascii.eqb c "/" || hasSlash s'
  end.

(** A file name as a directory lists it: not empty, and without a
    slash. *)
Definition plainName (n : string) : Prop := n <> "" /\ hasSlash n = false.

(** Every directory of the tree lists plain names, each one once. *)
Inductive wellNamed : os.Entry -> Prop :=
| wn_File (n : string) (ino : option N) : wellNamed (os.File n ino)
| wn_Symlink (n : string) (t : os.LinkTarget) : wellNamed (os.Symlink n t)
| wn_Dir (n : string) (info : os.DirInfo) (entries : list os.Entry) :
    NoDup (map os.Name entries) ->
    Forall (fun e => plainName (os.Name e)) entries ->
    Forall wellNamed entries ->
    wellNamed (os.Dir n info entries).

(** Every directory of the tree that cannot be read is refused for want
    of permission. *)
Inductive onlyPermissionDenied : os.Entry -> Prop :=
| pd_File (n : string) (ino : option N) : onlyPermissionDenied (os.File n ino)
| pd_Symlink (n : string) (t : os.LinkTarget) : onlyPermissionDenied (os.Symlink n t)
| pd_Dir (n : string) (info : os.DirInfo) (entries : list os.Entry) :
    (os.ReadDirErr info = None \/ os.ReadDirErr info = Some EACCES
     \/ os.ReadDirErr info = Some EPERM) ->
    Forall onlyPermissionDenied entries ->
    onlyPermissionDenied (os.Dir n info entries).

(** No probe of the list lies strictly beneath a probe of the list that
    found a repository. *)
Definition pruned (log : list scanner.Probe) : Prop :=
  forall p q : scanner.Probe,
    p ∈ log -> scanner.isRepo p = true -> q ∈ log ->
    ~ strictlyBeneath (scanner.probed p) (scanner.probed q).

(** The paths at which the probes of the list found a repository. *)
Definition matched (log : list scanner.Probe) : list string :=
  map scanner.probed (filter (fun p => scanner.isRepo p = true) log).

(** Between the states [r] and [r'] of a walk the probes [new] were made,
    and the repositories found by them were recorded. *)
Definition extends (r r' : scanner.Run) (new : list scanner.Probe) : Prop :=
  scanner.probes r' = scanner.probes r ++ new /\
  map models.Repository.Path (scanner.repositories (scanner.sc r'))
  = map models.Repository.Path (scanner.repositories (scanner.sc r)) ++ matched new.

End paths.

(** ** [ExtractBatch]: the goroutines and what they share *)

Module batch.
Import Go models.

(** Where a worker goroutine stands. *)
Inductive Worker : Type :=
| Spawned      (* launched, before its first look at [ctx.Done()] *)
| Waiting      (* at the [select] on the semaphore *)
| Holding      (* has taken a slot of the semaphore, about to call [Extract] *)
| Running      (* inside [Extract], at its [select] *)
| Delivered    (* has sent its result, still holds the slot *)
| Released     (* has given the slot back, [wg.Done()] still to come *)
| Finished.    (* has called [wg.Done()] *)

#[global] Instance Worker_eq_dec : EqDecision Worker.
Proof. solve_decision. Defined.

(** [type result struct]. *)
Record result : Type := mkResult {
  path : string;
  status : option GitStatus.t;
  err : option error
}.

(** Where the calling goroutine stands: in the loop that launches the
    workers, in the loop that collects the results, back from the call,
    or stopped by the panic of [make(chan struct{}, opts.MaxConcurrency)]
    on a negative size. *)
Inductive Main : Type := Launching | Collecting | Returned | Panicked.

#[global] Instance Main_eq_dec : EqDecision Main.
Proof. solve_decision. Defined.

Record State : Type := mkState {
  unlaunched : gset string;          (* keys the loop [for path := range repos] has yet to reach *)
  workers : gmap string Worker;      (* the goroutines launched so far, by path *)
  semaphore : nat;                   (* tokens held in the [semaphore] channel *)
  results : list result;             (* what the [results] channel holds, oldest first *)
  closed : bool;                     (* [close(results)] has run *)
  statuses : gmap string GitStatus.t;
  main : Main;
  cancelled : bool;                  (* [ctx.Done()] is closed *)
  extracting : gset string           (* the goroutines of [Extract] still inside
                                        [extractGitStatus], by the path they read *)
}.

Definition with_worker (p : string) (w : Worker) (s : State) : State :=
  mkState (unlaunched s) (<[p := w]> (workers s)) (semaphore s) (results s) (closed s)
          (statuses s) (main s) (cancelled s) (extracting s).

(** The inputs of one call: the map of repositories, the options, the
    answers of [git.PlainOpen], the ignore patterns that
    [loadGlobalIgnorePatterns] found, whether the context is done before
    the call begins, and the paths on which [extractGitStatus] never comes
    back: it is handed neither the context nor a deadline. *)
Record Call : Type := mkCall {
  repos : gmap string Repository.t;
  opts : option gitstatus.ExtractOptions;
  opened : string -> Go.result git.Repository;
  ignorePatterns : list string;
  doneAtStart : bool;
  hangs : string -> bool
}.

(** [opts.Timeout], the deadline [Extract] sets when it is positive. *)
Definition timeout (c : Call) : Z := gitstatus.Timeout (gitstatus.orDefault (opts c)).

(** [opts.MaxConcurrency], the capacity of the semaphore. *)
Definition limit (c : Call) : Z := gitstatus.MaxConcurrency (gitstatus.orDefault (opts c)).

(** [len(repos)], the capacity of the results channel. *)
Definition capacity (c : Call) : nat := size (repos c).

(** The state in which the goroutines start.  With no repository the call
    returns an empty map at once; otherwise it makes its channels, and
    [make] panics when [opts.MaxConcurrency] is negative. *)
Definition init (c : Call) : State :=
  if decide (size (repos c) = 0%nat)
  then mkState ∅ ∅ 0 [] false ∅ Returned (doneAtStart c) ∅
  else if limit c <? 0
  then mkState (dom (repos c)) ∅ 0 [] false ∅ Panicked (doneAtStart c) ∅
  else mkState (dom (repos c)) ∅ 0 [] false ∅ Launching (doneAtStart c) ∅.

(** The path has its entry in the map, or a result that will give it one
    waits in the channel. *)
Definition answered (st : gmap string GitStatus.t) (rs : list result) (p : string) : Prop :=
  p ∈ dom st \/ exists r, r ∈ rs /\ path r = p /\ is_Some (status r).

(** [if r.status != nil { statuses[r.path] = r.status }]. *)
Definition store (r : result) (st : gmap string GitStatus.t) : gmap string GitStatus.t :=
  match status r with
  | Some v => <[path r := v]> st
  | None => st
  end.

(** [result{path: repoPath, status: status, err: err}]. *)
Definition resultOf (p : string) (r : option GitStatus.t * option error) : result :=
  mkResult p (fst r) (snd r).

(** The case that the [select] of [Extract] can take for the path [p],
    read off the timing [tm] that [gitstatus.Extract] is given: the case
    of [resultChan] or [errorChan] needs the goroutine of [Extract] to
    have sent, so to be through with [extractGitStatus]; the case
    [<-ctx.Done()] needs the context of the call to be done, or the
    deadline that [Extract] set itself to have passed. *)
Definition ready (c : Call) (s : State) (p : string) (tm : gitstatus.Timing) : Prop :=
  match gitstatus.ctxCase (gitstatus.orDefault (opts c)) tm with
  | None => p ∉ extracting s
  | Some cause =>
      cancelled s = true \/ (0 < timeout c /\ cause = context_DeadlineExceeded)
  end.

(** One move of one goroutine. *)
Inductive advance (c : Call) : State -> State -> Prop :=
| launch (s : State) (p : string) :
    (* [wg.Add(1); go func(repoPath string) {...}(path)] *)
    main s = Launching ->
    p ∈ unlaunched s ->
    advance c s (mkState (unlaunched s ∖ {[p]}) (<[p := Spawned]> (workers s)) (semaphore s)
                         (results s) (closed s) (statuses s) (main s) (cancelled s) (extracting s))
| launched (s : State) :
    (* the loop is over: [go func() { wg.Wait(); close(results) }()] *)
    main s = Launching ->
    unlaunched s = ∅ ->
    advance c s (mkState (unlaunched s) (workers s) (semaphore s) (results s) (closed s)
                         (statuses s) Collecting (cancelled s) (extracting s))
| look (s : State) (p : string) :
    (* [select { case <-ctx.Done(): return; default: }] *)
    workers s !! p = Some Spawned ->
    advance c s (with_worker p (if cancelled s then Finished else Waiting) s)
| acquire (s : State) (p : string) :
    (* [case semaphore <- struct{}{}:] *)
    workers s !! p = Some Waiting ->
    Z.of_nat (semaphore s) < limit c ->
    advance c s (mkState (unlaunched s) (<[p := Holding]> (workers s)) (S (semaphore s))
                         (results s) (closed s) (statuses s) (main s) (cancelled s)
                         (extracting s))
| enter (s : State) (p : string) :
    (* [Extract] begins: [go func() { status, err := extractGitStatus(...) ... }()] *)
    workers s !! p = Some Holding ->
    advance c s (mkState (unlaunched s) (<[p := Running]> (workers s)) (semaphore s)
                         (results s) (closed s) (statuses s) (main s) (cancelled s)
                         (extracting s ∪ {[p]}))
| complete (s : State) (p : string) :
    (* [extractGitStatus] comes back and the goroutine sends on [resultChan] or
       [errorChan], which has room for it, whether or not [Extract] still waits *)
    p ∈ extracting s ->
    hangs c p = false ->
    advance c s (mkState (unlaunched s) (workers s) (semaphore s)
                         (results s) (closed s) (statuses s) (main s) (cancelled s)
                         (extracting s ∖ {[p]}))
| giveUp (s : State) (p : string) :
    (* [case <-ctx.Done(): return] *)
    workers s !! p = Some Waiting ->
    cancelled s = true ->
    advance c s (with_worker p Finished s)
| deliver (s : State) (p : string) (tm : gitstatus.Timing) :
    (* the [select] of [Extract] takes a case; [results <- result{...}] *)
    workers s !! p = Some Running ->
    ready c s p tm ->
    (length (results s) < capacity c)%nat ->
    advance c s
      (mkState (unlaunched s) (<[p := Delivered]> (workers s)) (semaphore s)
               (results s ++
                  [resultOf p (gitstatus.Extract tm (opened c p)
                                 (Some (gitstatus.orDefault (opts c))) (ignorePatterns c))])
               (closed s) (statuses s) (main s) (cancelled s) (extracting s))
| release (s : State) (p : string) :
    (* [defer func() { <-semaphore }()] *)
    workers s !! p = Some Delivered ->
    advance c s (mkState (unlaunched s) (<[p := Released]> (workers s)) (pred (semaphore s))
                         (results s) (closed s) (statuses s) (main s) (cancelled s) (extracting s))
| done (s : State) (p : string) :
    (* [defer wg.Done()] *)
    workers s !! p = Some Released ->
    advance c s (with_worker p Finished s)
| close (s : State) :
    (* [wg.Wait()] returns, [close(results)] *)
    main s = Collecting ->
    closed s = false ->
    map_Forall (fun _ w => w = Finished) (workers s) ->
    advance c s (mkState (unlaunched s) (workers s) (semaphore s) (results s) true
                         (statuses s) (main s) (cancelled s) (extracting s))
| collect (s : State) (r : result) (rest : list result) :
    (* [for r := range results { if r.status != nil { statuses[r.path] = r.status } }] *)
    main s = Collecting ->
    results s = r :: rest ->
    advance c s (mkState (unlaunched s) (workers s) (semaphore s) rest (closed s)
                         (store r (statuses s))
                         (main s) (cancelled s) (extracting s))
| finish (s : State) :
    (* the channel is closed and empty: [return statuses, nil] *)
    main s = Collecting ->
    results s = [] ->
    closed s = true ->
    advance c s (mkState (unlaunched s) (workers s) (semaphore s) (results s) (closed s)
                         (statuses s) Returned (cancelled s) (extracting s)).

(** A move of a goroutine, or the cancellation signal firing. *)
Inductive step (c : Call) : State -> State -> Prop :=
| moves (s s' : State) : advance c s s' -> step c s s'
| cancel (s : State) :
    cancelled s = false ->
    step c s (mkState (unlaunched s) (workers s) (semaphore s) (results s) (closed s)
                      (statuses s) (main s) true (extracting s)).

(** The states the goroutines can be in, in any order of their moves. *)
Definition reachable (c : Call) (s : State) : Prop := rtc (step c) (init c) s.

(** The sum of [f] over the workers launched so far. *)
Definition total (f : Worker -> nat) (m : gmap string Worker) : nat :=
  map_fold (fun _ w n => (f w + n)%nat) 0%nat m.

Definition isRunning (w : Worker) : nat :=
  match w with
  | Running => 1
  | _ => 0
  end.

(** The number of workers inside [Extract]. *)
Definition running (s : State) : nat := total isRunning (workers s).

(** The number of extractions under way: the goroutines inside
    [extractGitStatus], those that [Extract] no longer waits for
    included. *)
Definition extractions (s : State) : nat := size (extracting s).

(** The moves a worker has yet to make, counting twice the one that adds
    to the results. *)
Definition ahead (w : Worker) : nat :=
  match w with
  | Spawned => 8
  | Waiting => 7
  | Holding => 6
  | Running => 4
  | Delivered => 2
  | Released => 1
  | Finished => 0
  end.

(** A bound on the number of moves left: every move makes it smaller. *)
Definition movesLeft (s : State) : nat :=
  9 * size (unlaunched s) + total ahead (workers s) + size (extracting s)
  + length (results s)
  + (if closed s then 0 else 1)
  + match main s with
    | Launching => 2
    | Collecting => 1
    | Returned | Panicked => 0
    end.

(** A worker holds a slot of the semaphore from the moment its send on
    the semaphore succeeds until its deferred receive. *)
Definition holds (w : Worker) : nat :=
  match w with
  | Holding | Running | Delivered => 1
  | _ => 0
  end.

(** A worker that may still send on the results channel. *)
Definition pending (w : Worker) : nat :=
  match w with
  | Spawned | Waiting | Holding | Running => 1
  | _ => 0
  end.

(** Every extraction comes to an end: [Extract] sets a deadline, or no
    path of the batch is one on which [extractGitStatus] hangs. *)
Definition ends (c : Call) : Prop :=
  0 < timeout c \/ forall p, p ∈ dom (repos c) -> hangs c p = false.

(** What [Extract] can answer for a path, over all timings. *)
Definition extracted (c : Call) (p : string) (r : option GitStatus.t * option error) : Prop :=
  exists tm : gitstatus.Timing,
    gitstatus.Extract tm (opened c p) (Some (gitstatus.orDefault (opts c))) (ignorePatterns c) = r.

(** What holds of the shared state whatever the goroutines have done. *)
Record invariant (c : Call) (s : State) : Prop := mkInvariant {
  fresh : forall p, p ∈ unlaunched s -> workers s !! p = None;
  everyPath : unlaunched s ∪ dom (workers s) = dom (repos c);
  loopOver : main s <> Launching -> unlaunched s = ∅;
  atReturn : main s = Returned ->
             results s = [] /\ map_Forall (fun _ w => w = Finished) (workers s);
  afterClose : closed s = true ->
               map_Forall (fun _ w => w = Finished) (workers s) /\ main s <> Launching;
  tokens : semaphore s = total holds (workers s);
  bounded : Z.of_nat (semaphore s) <= limit c;
  room : (length (results s) + total pending (workers s) + size (unlaunched s)
          <= capacity c)%nat;
  knownStatuses : dom (statuses s) ⊆ dom (repos c);
  knownResults : forall r, r ∈ results s -> path r ∈ dom (repos c);
  covered : cancelled s = false ->
            forall p w, workers s !! p = Some w -> pending w = 0%nat ->
              answered (statuses s) (results s) p;
  genuineResults : forall r, r ∈ results s -> extracted c (path r) (status r, err r);
  genuineStatuses : forall p st, statuses s !! p = Some st ->
                    exists e, extracted c p (Some st, e);
  noPanic : main s <> Panicked;
  awaited : cancelled s = false -> timeout c <= 0 ->
            forall p, p ∈ extracting s -> workers s !! p = Some Running
}.

(** A call whose context was done from the start: no worker is past its
    first look at the context, nothing was sent and nothing stored. *)
Definition idle (s : State) : Prop :=
  cancelled s = true /\
  map_Forall (fun (_ : string) w => w = Spawned \/ w = Finished) (workers s) /\
  results s = [] /\ statuses s = ∅ /\ extracting s = ∅ /\ main s <> Panicked.

End batch.

(** ** What the program relies on its libraries for *)

Module contract.
Import Go.

(** No history is longer than an [int] can count. *)
Definition logsFit (repo : git.Repository) : Prop :=
  forall h iter, git.Log repo h = Ok iter ->
                 Z.of_nat (length (git.commits iter)) <= maxInt.

(** A branch has a name: [Short()] of a reference under [refs/heads/] is
    not empty. *)
Definition branchesNamed (repo : git.Repository) : Prop :=
  forall head, git.Head repo = Ok head ->
               git.IsBranch (git.Name head) = true -> git.Short (git.Name head) <> "".

End contract.

(** ** Where a repository sits in a tree *)

Module placement.
Import Go models.

(** Below the node [t], down the directories named [dirs] in turn, there is
    a node that carries [repo]. *)
Fixpoint sits (dirs : list string) (repo : Repository.t) (t : TreeNode.t) : Prop :=
  match dirs with
  | [] => exists child, child ∈ TreeNode.Children t /\ TreeNode.Repository child = repo
  | d :: ds =>
      exists child, child ∈ TreeNode.Children t /\ TreeNode.Name child = d /\ sits ds repo child
  end.

(** The node without its children, at depth 0: the node as
    [insertIntoTree] writes it before anything is put below it. *)
Definition bare (n : TreeNode.t) : TreeNode.t :=
  TreeNode.mk (TreeNode.Repository n) 0 (TreeNode.IsLast n) [] (TreeNode.RelativePath n).

(** An entry of a tree: the names on the way down from the root to a
    node, the name of the node last, and the node, bare. *)
Definition under (name : string) (e : list string * TreeNode.t) : list string * TreeNode.t :=
  (name :: fst e, snd e).

(** The entries of every node below [n]. *)
Fixpoint content (n : TreeNode.t) : list (list string * TreeNode.t) :=
  (fix below (l : list TreeNode.t) : list (list string * TreeNode.t) :=
     match l with
     | [] => []
     | c :: rest =>
         (([TreeNode.Name c], bare c) :: map (under (TreeNode.Name c)) (content c))
           ++ below rest
     end) (TreeNode.Children n).

(** No two children of a node of the tree share a name. *)
Fixpoint distinct (n : TreeNode.t) : Prop :=
  NoDup (map TreeNode.Name (TreeNode.Children n)) /\
  (fix each (l : list TreeNode.t) : Prop :=
     match l with
     | [] => True
     | c :: rest => distinct c /\ each rest
     end) (TreeNode.Children n).

(** The directory node that [insertIntoTree] makes at the end of the
    directories [q], walked from [currentPath] after the parts [seen]. *)
Definition dirNode (fp : filepath.API) (seen : list string) (currentPath : string)
    (q : list string) : TreeNode.t :=
  TreeNode.mk (Repository.at_path (fold_left (filepath.Join fp) q currentPath) (List.last q ""))
              0 false [] (strings_Join (seen ++ q) "/").

(** The entries of the nodes that [insertIntoTree] needs for a repository:
    one directory node for each part of the relative path but the last,
    and the node of the repository below them; read off [tree.insertFrom]
    on a node without children. *)
Fixpoint added (fp : filepath.API) (repo : Repository.t) (relPath : string)
    (seen todo : list string) (currentPath : string) {struct todo}
  : list (list string * TreeNode.t) :=
  match todo with
  | part :: ((_ :: _) as rest) =>
      let currentPath := filepath.Join fp currentPath part in
      ([part],
       TreeNode.mk (Repository.at_path currentPath part) 0 false []
                   (strings_Join (seen ++ [part]) "/"))
      :: map (under part) (added fp repo relPath (seen ++ [part]) rest currentPath)
  | _ => [([Repository.Name repo], TreeNode.mk repo 0 false [] relPath)]
  end.

(** The entries of the nodes a repository of the list needs in the tree
    of [Build]; none when [filepath.Rel] refuses its path. *)
Definition entries (fp : filepath.API) (rootPath : string) (repo : Repository.t)
  : list (list string * TreeNode.t) :=
  match filepath.Rel fp rootPath (Repository.Path repo) with
  | Ok relPath => added fp repo relPath [] (filepath.splitSlash relPath) rootPath
  | Err _ => []
  end.

(** Where the node of a repository goes: the directories of its relative
    path, then its name. *)
Definition spot (fp : filepath.API) (rootPath : string) (repo : Repository.t)
  : option (list string) :=
  match filepath.Rel fp rootPath (Repository.Path repo) with
  | Ok relPath =>
      Some (removelast (filepath.splitSlash relPath) ++ [Repository.Name repo])
  | Err _ => None
  end.

Definition spots (fp : filepath.API) (rootPath : string) (repos : list Repository.t)
  : list (list string) :=
  omap (spot fp rootPath) repos.

(** No two of the places are the same, and none lies below another. *)
Definition apart (ps : list (list string)) : Prop :=
  NoDup ps /\ forall a b, a ∈ ps -> b ∈ ps -> a `prefix_of` b -> a = b.

(** [filepath.Rel] accepts the path of the repository. *)
Definition accepted (fp : filepath.API) (rootPath : string) (repo : Repository.t) : bool :=
  match filepath.Rel fp rootPath (Repository.Path repo) with
  | Ok _ => true
  | Err _ => false
  end.

(** What the node [n], found down the names [q] from the root, is in a
    tree built from [repos] under [rootPath]: the node of a repository of
    the list that [filepath.Rel] accepts, at the place of that repository
    and with its relative path; or a directory on the way to one, with the
    record and the relative path of that directory. *)
Definition accounted (fp : filepath.API) (rootPath : string) (repos : list Repository.t)
    (q : list string) (n : TreeNode.t) : Prop :=
  exists repo relPath,
    repo ∈ repos /\
    filepath.Rel fp rootPath (Repository.Path repo) = Ok relPath /\
    ((q = removelast (filepath.splitSlash relPath) ++ [Repository.Name repo] /\
      TreeNode.Repository n = repo /\ TreeNode.RelativePath n = relPath) \/
     (q <> [] /\ q `prefix_of` removelast (filepath.splitSlash relPath) /\
      TreeNode.Repository n
      = Repository.at_path (fold_left (filepath.Join fp) q rootPath) (List.last q "") /\
      TreeNode.RelativePath n = strings_Join q "/")).

End placement.

(** ** A tree as [Format] reads it *)

Module outline.
Import Go models.

(** The node with its [Depth], [IsLast] and [RelativePath] blanked, and so
    all the nodes below it. *)
Fixpoint skeleton (n : TreeNode.t) : TreeNode.t :=
  TreeNode.mk (TreeNode.Repository n) 0 false (map skeleton (TreeNode.Children n)) "".

(** The number of line feeds in a string. *)
Fixpoint lineFeeds (s : string) : nat :=
  match s with
  | EmptyString => O
  | String c s' => (if Ascii.eqb c "010" then 1 else 0) + lineFeeds s'
  end.

(** Colouring a string adds no line feed to it. *)
Definition keepsLines (c : Palette) : Prop :=
  forall s, lineFeeds (grayColor c s) = lineFeeds s /\
            lineFeeds (yellowColor c s) = lineFeeds s /\
            lineFeeds (greenColor c s) = lineFeeds s /\
            lineFeeds (redColor c s) = lineFeeds s.

(** Neither the name of the repository of the node nor the branch of its
    status holds a line feed. *)
Definition onOneLine (n : TreeNode.t) : Prop :=
  lineFeeds (TreeNode.Name n) = O /\
  forall g, Repository.GitStatus (TreeNode.Repository n) = Some g ->
            lineFeeds (GitStatus.Branch g) = O.

End outline.

(** ** A repository record as the scan leaves it *)

Module found.
Import Go models.

(** The record of a repository found at a path within [root]: named after
    the path, never marked as reached through a symbolic link, and with no
    status, error or timeout yet. *)
Definition fresh (fp : filepath.API) (root : string) (repo : Repository.t) : Prop :=
  paths.within root (Repository.Path repo) /\
  Repository.Name repo = filepath.Base fp (Repository.Path repo) /\
  Repository.IsSymlink repo = false /\
  Repository.GitStatus repo = None /\
  Repository.Error repo = None /\
  Repository.HasTimeout repo = false.

(** The two kinds of diagnostic the scan records: a directory it was not
    permitted to read, and a directory [os.Lstat] failed on. *)
Definition diagnostic (root : string) (e : error) : Prop :=
  (exists path,
      paths.within root path /\
      e = Errorf ("permission denied: " +:+ path +:+ ": permission denied")
                 scanner.errPermissionDenied) \/
  (exists path errno,
      paths.within root path /\
      e = wrapf ("error checking path " +:+ path +:+ ": ")
                (PathError "lstat" path errno)).

End found.

(** ** [filepath.Base] of the standard library, on a Unix system *)

Module pathnames.
Import Go.

(** The loop that strips the trailing slashes of a path. *)
Fixpoint stripTrailingSlashes (s : string) : string :=
  match s with
  | EmptyString => ""
  | String c s' =>
      match stripTrailingSlashes s' with
      | EmptyString => if Ascii.eqb c "/" then "" else String c ""
      | t => String c t
      end
  end.

(** [filepath.Base(path)]: ["."] for the empty path, the last element of
    the path without its trailing slashes otherwise, ["/"] when nothing
    but slashes was there. *)
Definition Base (path : string) : string :=
  if String.eqb path "" then "."
  else
    let path := List.last (filepath.splitSlash (stripTrailingSlashes path)) "" in
    if String.eqb path "" then "/" else path.

(** The path functions with this [Base]. *)
Definition posix : filepath.API :=
  filepath.mkAPI (filepath.Rel filepath.unix) (filepath.Join filepath.unix) Base
                 (filepath.Abs filepath.unix).

End pathnames.

(** ** Concrete inputs, used to run the definitions *)

Module examples.
Import Go models.

(** A history: [1] is the first commit, [2] its child, the remote branch
    tip [3] and the commit [4] are children of [2], and the local tip [5]
    is the child of [4]. *)
Definition parentsOf (h : git.Hash) : option (list git.Hash) :=
  match h with
  | 1%N => Some []
  | 2%N => Some [1%N]
  | 3%N => Some [2%N]
  | 4%N => Some [2%N]
  | 5%N => Some [4%N]
  | _ => None
  end.

Definition commitObject (h : git.Hash) : result git.Commit :=
  match parentsOf h with
  | Some ps => Ok (git.mkCommit h ps)
  | None => Err (Lib "object not found")
  end.

Definition commitOf (h : git.Hash) : git.Commit :=
  git.mkCommit h (default [] (parentsOf h)).

Definition log (h : git.Hash) : result git.CommitIter :=
  match h with
  | 5%N => Ok (git.mkCommitIter (map commitOf [5%N; 4%N; 2%N; 1%N]) None)
  | 3%N => Ok (git.mkCommitIter (map commitOf [3%N; 2%N; 1%N]) None)
  | _ => Err (Lib "object not found")
  end.

Definition mainHead : git.Reference :=
  git.mkReference (git.mkReferenceName true "main") 5%N.

Definition references (name : string) : result git.Reference :=
  if String.eqb name "refs/remotes/origin/main"
  then Ok (git.mkReference (git.mkReferenceName false "origin/main") 3%N)
  else Err (Lib "reference not found").

Definition cleanWorktree : git.Worktree :=
  git.mkWorktree [] (fun _ => Ok ∅).

(** A clone on branch [main], two commits ahead of and one behind
    [origin/main]. *)
Definition clone : git.Repository :=
  git.mkRepository (Ok mainHead) (Ok ["origin"]) references commitObject log
                   (Ok cleanWorktree).

(** The same repository with no remote configured. *)
Definition localOnly : git.Repository :=
  git.mkRepository (Ok mainHead) (Ok []) (fun _ => Err (Lib "reference not found"))
                   commitObject log (Ok cleanWorktree).

(** A bare repository: it has no working tree. *)
Definition bareRepo : git.Repository :=
  git.mkRepository (Ok mainHead) (Ok ["origin"]) references commitObject log
                   (Err git.ErrIsBareRepository).

(** The worker delivers after two seconds, the caller never cancels. *)
Definition prompt : gitstatus.Timing := gitstatus.mkTiming (2 * gitstatus.second) None true.

(** The worker would need twenty seconds. *)
Definition slow : gitstatus.Timing := gitstatus.mkTiming (20 * gitstatus.second) None true.

(** A directory tree: [/work] holds the checkout [app] (with a nested
    checkout below it), the directory [libs] with the checkout [core] and
    the bare repository [tool.git], a directory that cannot be read, and a
    symbolic link to [app]. *)
Definition dir (ino : N) : os.DirInfo := os.mkDirInfo (Some ino) None true None.

Definition checkout (name : string) (ino : N) : os.Entry :=
  os.Dir name (dir ino)
    [os.Dir ".git" (dir (ino + 1)) [];
     os.Dir "vendor" (dir (ino + 2)) [os.Dir ".git" (dir (ino + 3)) []]].

Definition mirror (name : string) (ino : N) : os.Entry :=
  os.Dir name (dir ino)
    [os.File "HEAD" (Some (ino + 1)%N);
     os.Dir "objects" (dir (ino + 2)) [];
     os.Dir "refs" (dir (ino + 3)) []].

Definition workTree : os.Entry :=
  os.Dir "work" (dir 1)
    [os.Dir "app" (dir 10)
       [os.Dir ".git" (dir 11) [];
        os.Dir "vendor" (dir 12) [os.Dir ".git" (dir 13) []]];
     os.Dir "libs" (dir 20) [checkout "core" 30; mirror "tool.git" 40];
     os.Dir "private" (os.mkDirInfo (Some 50%N) None false (Some EACCES)) [];
     os.Symlink "shortcut" (os.ToDir (Some 10%N))].

Definition world : scanner.World :=
  scanner.mkWorld
    (fun p => if String.eqb p "/nowhere" then Err (PathError "stat" p ENOENT)
              else if String.eqb p "/work/notes.txt" then Ok false
              else Ok true)
    (fun _ => Ok workTree)
    1000000.

(** Three repositories below [/work], in no particular order. *)
Definition discovered : list Repository.t :=
  [Repository.mk "/work/libs/tool.git" "tool.git" true false None None false;
   Repository.mk "/work/app" "app" false false None None false;
   Repository.mk "/work/libs/core" "core" false false None None false].

(** A repository inside another. *)
Definition nested : list Repository.t :=
  [Repository.at_path "/work/a" "a"; Repository.at_path "/work/a/b" "b"].

(** A batch of two repositories, one of which cannot be opened, run one
    extraction at a time. *)
Definition twoRepositories : gmap string Repository.t :=
  {[ "/w/api" := Repository.at_path "/w/api" "api";
     "/w/web" := Repository.at_path "/w/web" "web" ]}.

Definition oneAtATime : gitstatus.ExtractOptions :=
  gitstatus.mkExtractOptions gitstatus.defaultExtractTimeout 1 false.

Definition batchCall : batch.Call :=
  batch.mkCall twoRepositories (Some oneAtATime)
    (fun p => if String.eqb p "/w/api" then Ok clone
              else Err (Lib "repository does not exist"))
    [] false (fun _ => false).

(** The same batch with [MaxConcurrency: 0]: the semaphore is a channel
    without buffer, on which nobody receives. *)
Definition noSlot : gitstatus.ExtractOptions :=
  gitstatus.mkExtractOptions gitstatus.defaultExtractTimeout 0 false.


(** A branch [feature] that was never pushed, in a repository with the
    remote [origin]. *)
Definition featureHead : git.Reference :=
  git.mkReference (git.mkReferenceName true "feature") 5%N.

Definition unpushed : git.Repository :=
  git.mkRepository (Ok featureHead) (Ok ["origin"]) references commitObject log
                   (Ok cleanWorktree).

(** A repository just initialised: [HEAD] points at a branch without a
    commit. *)
Definition freshInit : git.Repository :=
  git.mkRepository (Err (Lib "reference not found")) (Ok [])
                   (fun _ => Err (Lib "reference not found"))
                   commitObject log (Ok cleanWorktree).

(** A clone whose branch [main] is where [origin/main] is. *)
Definition upToDate : git.Repository :=
  git.mkRepository (Ok mainHead) (Ok ["origin"])
    (fun name => if String.eqb name "refs/remotes/origin/main"
                 then Ok (git.mkReference (git.mkReferenceName false "origin/main") 5%N)
                 else Err (Lib "reference not found"))
    commitObject log (Ok cleanWorktree).

(** The batch called with a context that is done already, and no slot in
    the semaphore. *)
Definition lateCall : batch.Call :=
  batch.mkCall twoRepositories (Some noSlot) (batch.opened batchCall) [] true
               (fun _ => false).

(** The two repositories of the batch as the scan lists them. *)
Definition twoFound : list Repository.t :=
  [Repository.at_path "/w/api" "api"; Repository.at_path "/w/web" "web"].

(** The same tree reached through a symbolic link: [os.Stat] on the root
    path follows the link, [os.Lstat] does not. *)
Definition linkedWorld : scanner.World :=
  scanner.mkWorld (fun _ => Ok true)
                  (fun _ => Ok (os.Symlink "work" (os.ToDir (Some 1%N))))
                  1000000.

(** A context cancelled, and one whose deadline passes, before the third
    call of the walk function. *)
Definition cancelledSoon : scanner.Context := scanner.mkContext (Some 2%nat) context_Canceled.
Definition overdue : scanner.Context :=
  scanner.mkContext (Some 2%nat) context_DeadlineExceeded.

(** The statuses of two of the repositories of [discovered]. *)
Definition someStatuses : gmap string GitStatus.t :=
  {[ "/work/app" := GitStatus.mk "main" false true 2 1 false false "";
     "/work/libs/tool.git" := GitStatus.mk "main" false false 0 0 false false "" ]}.

(** Options that set no deadline. *)
Definition patient : gitstatus.ExtractOptions := gitstatus.mkExtractOptions 0 10 false.

End examples.

(* ===================================================================== *)
(** * Part II. Properties                                                 *)
(* ===================================================================== *)

Import Go models.

(** ** Status extraction: one repository *)

Section ExtractFacts.

Implicit Types (repo : git.Repository) (status st : GitStatus.t).
Implicit Types (opts : gitstatus.ExtractOptions) (tm : gitstatus.Timing).

Lemma extractBranch_keeps repo status :
  let st := (fst (gitstatus.extractBranch repo status)) in
  GitStatus.HasRemote st = GitStatus.HasRemote status /\
  GitStatus.Ahead st = GitStatus.Ahead status /\
  GitStatus.Behind st = GitStatus.Behind status /\
  GitStatus.HasChanges st = GitStatus.HasChanges status.
Proof.
  unfold gitstatus.extractBranch.
  destruct (git.Head repo) as [head|e]; [destruct (negb _)|]; simpl; auto.
Qed.

Lemma extractRemote_keeps repo status :
  let st := (fst (gitstatus.extractRemote repo status)) in
  GitStatus.Ahead st = GitStatus.Ahead status /\
  GitStatus.Behind st = GitStatus.Behind status /\
  GitStatus.HasChanges st = GitStatus.HasChanges status /\
  GitStatus.Branch st = GitStatus.Branch status /\
  GitStatus.Error st = GitStatus.Error status.
Proof.
  unfold gitstatus.extractRemote.
  destruct (git.Remotes repo) as [rs|e]; [destruct (_ >? _)|]; simpl; auto.
Qed.

Lemma noteError_keeps (err : error) status :
  let st := gitstatus.noteError err status in
  GitStatus.HasRemote st = GitStatus.HasRemote status /\
  GitStatus.Ahead st = GitStatus.Ahead status /\
  GitStatus.Behind st = GitStatus.Behind status /\
  GitStatus.HasChanges st = GitStatus.HasChanges status /\
  GitStatus.Branch st = GitStatus.Branch status.
Proof.
  unfold gitstatus.noteError. destruct (String.eqb _ _); simpl; auto.
Qed.

Lemma extractAheadBehind_keeps repo status :
  let st := (fst (gitstatus.extractAheadBehind repo status)) in
  GitStatus.HasRemote st = GitStatus.HasRemote status /\
  GitStatus.HasChanges st = GitStatus.HasChanges status /\
  GitStatus.Branch st = GitStatus.Branch status /\
  GitStatus.Error st = GitStatus.Error status.
Proof.
  unfold gitstatus.extractAheadBehind.
  destruct (git.Head repo) as [head|e]; simpl; auto.
  destruct (git.Reference_ repo _) as [rref|e]; simpl; auto.
  destruct (git.CommitObject repo (git.Ref_Hash head)) as [lc|e]; simpl; auto.
  destruct (git.CommitObject repo (git.Ref_Hash rref)) as [rc|e]; simpl; auto.
  destruct (gitstatus.countCommitsBetween repo lc rc) as [a [e|]]; simpl; auto.
  destruct (gitstatus.countCommitsBetween repo rc lc) as [b [e|]]; simpl; auto.
Qed.

(** The step for the working tree never touches the remote fields, and
    leaves [HasChanges] unset whenever the working tree cannot be had. *)
Lemma extractUncommittedChanges_keeps repo status opts (pats : list string) :
  let st := (fst (gitstatus.extractUncommittedChanges repo status opts pats)) in
  GitStatus.HasRemote st = GitStatus.HasRemote status /\
  GitStatus.Ahead st = GitStatus.Ahead status /\
  GitStatus.Behind st = GitStatus.Behind status /\
  GitStatus.Branch st = GitStatus.Branch status /\
  GitStatus.Error st = GitStatus.Error status.
Proof.
  unfold gitstatus.extractUncommittedChanges.
  destruct (git.Worktree_ repo) as [wt|e].
  - destruct (git.Status _) as [s|e]; simpl; auto.
  - destruct (errors_Is e git.ErrIsBareRepository); simpl; auto.
Qed.

(** A status that [extractGitStatus] returns without a remote has both
    counts at zero: [extractAheadBehind] is the only step that writes them,
    and it runs only under [HasRemote]. *)
Lemma extractGitStatus_no_remote_zero (opened : result git.Repository) opts
    (pats : list string) st :
  (fst (gitstatus.extractGitStatus opened opts pats)) = Some st ->
  GitStatus.HasRemote st = false ->
  GitStatus.Ahead st = 0 /\ GitStatus.Behind st = 0.
Proof.
  unfold gitstatus.extractGitStatus.
  destruct opened as [repo|e]; [|discriminate].
  set (s1 := match gitstatus.extractBranch repo GitStatus.zero with
             | (s, Some err) => _ | (s, None) => s end).
  assert (H1 : GitStatus.Ahead s1 = 0 /\ GitStatus.Behind s1 = 0).
  { subst s1. pose proof (extractBranch_keeps repo GitStatus.zero) as K.
    destruct (gitstatus.extractBranch repo GitStatus.zero) as [s [e|]];
      simpl in *; tauto. }
  set (s2 := match gitstatus.extractRemote repo s1 with
             | (s, Some _) => _ | (s, None) => s end).
  assert (H2 : GitStatus.Ahead s2 = 0 /\ GitStatus.Behind s2 = 0).
  { subst s2. pose proof (extractRemote_keeps repo s1) as K.
    destruct (gitstatus.extractRemote repo s1) as [s [e|]]; simpl in *;
      destruct K as (-> & -> & _); tauto. }
  destruct (GitStatus.HasRemote s2) eqn:Hr.
  - (* a remote is configured: the later steps keep [HasRemote] *)
    set (s3 := match gitstatus.extractAheadBehind repo s2 with
               | (s, Some err) => _ | (s, None) => s end).
    assert (H3 : GitStatus.HasRemote s3 = true).
    { subst s3. pose proof (extractAheadBehind_keeps repo s2) as K.
      destruct (gitstatus.extractAheadBehind repo s2) as [s [e|]]; simpl in *.
      - pose proof (noteError_keeps e s) as N. simpl in N.
        destruct N as (-> & _). destruct K as (-> & _). exact Hr.
      - destruct K as (-> & _). exact Hr. }
    set (s4 := GitStatus.with_HasStashes _ s3).
    intros Hst Hno. exfalso.
    pose proof (extractUncommittedChanges_keeps repo s4 opts pats) as K.
    destruct (gitstatus.extractUncommittedChanges repo s4 opts pats) as [s [e|]];
      simpl in *; destruct K as (K & _).
    + destruct (negb _); injection Hst as <-.
      * pose proof (noteError_keeps e s) as N. simpl in N. destruct N as (N & _).
        congruence.
      * congruence.
    + injection Hst as <-. congruence.
  - set (s4 := GitStatus.with_HasStashes _ s2).
    intros Hst _.
    pose proof (extractUncommittedChanges_keeps repo s4 opts pats) as K.
    destruct (gitstatus.extractUncommittedChanges repo s4 opts pats) as [s [e|]];
      simpl in *; destruct K as (_ & Ka & Kb & _).
    + destruct (negb _); injection Hst as <-.
      * pose proof (noteError_keeps e s) as N. simpl in N.
        destruct N as (_ & -> & -> & _). rewrite Ka, Kb. exact H2.
      * rewrite Ka, Kb. exact H2.
    + injection Hst as <-. rewrite Ka, Kb. exact H2.
Qed.

(** [Extract] never answers with a [nil] status. *)
Lemma Extract_never_nil tm (opened : result git.Repository)
    (o : option gitstatus.ExtractOptions) (pats : list string) :
  exists st, (fst (gitstatus.Extract tm opened o pats)) = Some st.
Proof.
  unfold gitstatus.Extract.
  destruct (gitstatus.ctxCase _ tm); [eauto|].
  destruct opened as [repo|e]; simpl; eauto.
Qed.

Lemma Extract_no_remote_zero tm (opened : result git.Repository)
    (o : option gitstatus.ExtractOptions) (pats : list string) st :
  (fst (gitstatus.Extract tm opened o pats)) = Some st ->
  GitStatus.HasRemote st = false ->
  GitStatus.Ahead st = 0 /\ GitStatus.Behind st = 0.
Proof.
  unfold gitstatus.Extract.
  destruct (gitstatus.ctxCase _ tm).
  - intros [= <-] _. auto.
  - pose proof (extractGitStatus_no_remote_zero opened (gitstatus.orDefault o) pats) as K.
    destruct (gitstatus.extractGitStatus opened _ pats) as [s [e|]]; simpl in *.
    + intros [= <-] _. auto.
    + intros ->. apply K. reflexivity.
Qed.

End ExtractFacts.

Section StatusClaims.

Implicit Types (repo : git.Repository) (status st g : GitStatus.t).
Implicit Types (opts : gitstatus.ExtractOptions) (tm : gitstatus.Timing).

Lemma Validate_rejects_counts_without_remote g :
  GitStatus.HasRemote g = false ->
  GitStatus.Ahead g <> 0 \/ GitStatus.Behind g <> 0 ->
  exists e, GitStatus.Validate g = Some e.
Proof.
  intros Hr Hc. unfold GitStatus.Validate.
  destruct (String.eqb _ ""); [eauto|].
  destruct (_ && _); [eauto|].
  rewrite Hr. simpl.
  assert ((negb (GitStatus.Ahead g =? 0) || negb (GitStatus.Behind g =? 0)) = true) as ->.
  { destruct Hc as [Hc|Hc]; apply Z.eqb_neq in Hc; rewrite Hc; simpl; auto.
    apply orb_true_r. }
  eauto.
Qed.

(** A repository that opens and lists no remote: the extraction returns no
    error, and when the branch and working-tree steps raise none either the
    status carries no error annotation and passes its validation. *)
Lemma extractGitStatus_without_remote repo opts (pats : list string) head :
  git.Remotes repo = Ok [] ->
  git.Head repo = Ok head ->
  (git.IsBranch (git.Name head) = true -> git.Short (git.Name head) <> "") ->
  (forall s, (snd (gitstatus.extractUncommittedChanges repo s opts pats)) = None \/
             (snd (gitstatus.extractUncommittedChanges repo s opts pats))
             = Some git.ErrIsBareRepository) ->
  exists st,
    gitstatus.extractGitStatus (Ok repo) opts pats = (Some st, None) /\
    GitStatus.HasRemote st = false /\
    GitStatus.Ahead st = 0 /\ GitStatus.Behind st = 0 /\
    GitStatus.Error st = "" /\
    GitStatus.Validate st = None.
Proof.
  intros Hrem Hhead Hname Hwt.
  unfold gitstatus.extractGitStatus, gitstatus.extractBranch, gitstatus.extractRemote.
  rewrite Hhead, Hrem. simpl.
  set (s4 := GitStatus.with_HasStashes _ _).
  pose proof (extractUncommittedChanges_keeps repo s4 opts pats) as K.
  specialize (Hwt s4).
  assert (Hbranch : GitStatus.Branch s4 <> "" /\
                    (GitStatus.IsDetached s4 = true -> GitStatus.Branch s4 = "DETACHED")).
  { subst s4. destruct (git.IsBranch (git.Name head)); simpl; split; auto; discriminate. }
  assert (Hs4 : GitStatus.HasRemote s4 = false /\ GitStatus.Ahead s4 = 0 /\
                GitStatus.Behind s4 = 0 /\ GitStatus.Error s4 = "").
  { subst s4. destruct (negb (git.IsBranch (git.Name head))); simpl; auto. }
  assert (Hdet : forall s, GitStatus.IsDetached
                   (fst (gitstatus.extractUncommittedChanges repo s opts pats))
                 = GitStatus.IsDetached s).
  { intros s. unfold gitstatus.extractUncommittedChanges.
    destruct (git.Worktree_ repo) as [wt|e].
    - destruct (git.Status _); reflexivity.
    - destruct (errors_Is e _); reflexivity. }
  specialize (Hdet s4). clearbody s4.
  destruct (gitstatus.extractUncommittedChanges repo s4 opts pats) as [s oe].
  simpl in *. destruct K as (K1 & K2 & K3 & K4 & K5).
  assert (Hfinal : (match oe with
                    | Some err => if negb (errors_Is err git.ErrIsBareRepository)
                                  then gitstatus.noteError err s else s
                    | None => s end) = s).
  { destruct Hwt as [->| ->]; reflexivity. }
  rewrite Hfinal. exists s. destruct Hs4 as (A & B & C & D).
  repeat split; try congruence.
  unfold GitStatus.Validate.
  destruct Hbranch as [Hne Hd]. rewrite <- K4 in Hne, Hd. rewrite <- Hdet in Hd.
  apply String.eqb_neq in Hne. rewrite Hne.
  destruct (GitStatus.IsDetached s) eqn:E.
  - rewrite (Hd eq_refl). simpl.
    rewrite K1, A, K2, B, K3, C. reflexivity.
  - simpl. rewrite K1, A, K2, B, K3, C. reflexivity.
Qed.

(** C7.  A status produced by the extractor with the remote flag off has
    both the ahead and the behind count at zero; a repository without a
    configured remote is extracted without error and its status is valid;
    and [GitStatus.Validate] rejects a status with the remote flag off and a
    count that is not zero. *)
Theorem no_remote_forces_zero_counts :
  (forall tm (opened : result git.Repository) (o : option gitstatus.ExtractOptions)
          (pats : list string) st,
      (fst (gitstatus.Extract tm opened o pats)) = Some st ->
      GitStatus.HasRemote st = false ->
      GitStatus.Ahead st = 0 /\ GitStatus.Behind st = 0) /\
  (forall repo opts (pats : list string) head,
      git.Remotes repo = Ok [] ->
      git.Head repo = Ok head ->
      (git.IsBranch (git.Name head) = true -> git.Short (git.Name head) <> "") ->
      (forall s, (snd (gitstatus.extractUncommittedChanges repo s opts pats)) = None \/
                 (snd (gitstatus.extractUncommittedChanges repo s opts pats))
                 = Some git.ErrIsBareRepository) ->
      exists st,
        gitstatus.extractGitStatus (Ok repo) opts pats = (Some st, None) /\
        GitStatus.HasRemote st = false /\
        GitStatus.Ahead st = 0 /\ GitStatus.Behind st = 0 /\
        GitStatus.Error st = "" /\
        GitStatus.Validate st = None) /\
  (forall g,
      GitStatus.HasRemote g = false ->
      GitStatus.Ahead g <> 0 \/ GitStatus.Behind g <> 0 ->
      exists e, GitStatus.Validate g = Some e).
Proof.
  split; [|split].
  - exact Extract_no_remote_zero.
  - exact extractGitStatus_without_remote.
  - exact Validate_rejects_counts_without_remote.
Qed.

(** The three parts of C7 at concrete inputs: the repository
    [examples.localOnly], and a status that claims two commits ahead with
    no remote. *)
Lemma no_remote_forces_zero_counts_witness :
  (exists st,
      (fst (gitstatus.Extract examples.prompt (Ok examples.localOnly) None [])) = Some st /\
      GitStatus.HasRemote st = false /\
      GitStatus.Ahead st = 0 /\ GitStatus.Behind st = 0) /\
  (exists st,
      gitstatus.extractGitStatus (Ok examples.localOnly) gitstatus.DefaultOptions []
      = (Some st, None) /\
      GitStatus.Error st = "" /\ GitStatus.Validate st = None) /\
  (exists e, GitStatus.Validate (GitStatus.mk "main" false false 2 0 false false "") = Some e).
Proof.
  destruct no_remote_forces_zero_counts as (A & B & C).
  split; [|split].
  - assert (E : (fst (gitstatus.Extract examples.prompt (Ok examples.localOnly) None []))
                = Some (GitStatus.mk "main" false false 0 0 false false ""))
      by (vm_compute; reflexivity).
    eexists. split; [exact E|]. split; [reflexivity|].
    exact (A examples.prompt (Ok examples.localOnly) None [] _ E eq_refl).
  - destruct (B examples.localOnly gitstatus.DefaultOptions [] examples.mainHead)
      as (st & E & _ & _ & _ & F & G).
    + reflexivity.
    + reflexivity.
    + intros _. discriminate.
    + intros s. left. reflexivity.
    + exists st. auto.
  - apply C; [reflexivity|left; discriminate].
Defined.

(** ** Bare repositories *)

Lemma extractUncommittedChanges_bare repo status opts (pats : list string) :
  git.Worktree_ repo = Err git.ErrIsBareRepository ->
  gitstatus.extractUncommittedChanges repo status opts pats
  = (GitStatus.with_HasChanges false status, Some git.ErrIsBareRepository).
Proof.
  intros H. unfold gitstatus.extractUncommittedChanges. rewrite H. reflexivity.
Qed.

Lemma extractGitStatus_bare repo opts (pats : list string) st :
  git.Worktree_ repo = Err git.ErrIsBareRepository ->
  (fst (gitstatus.extractGitStatus (Ok repo) opts pats)) = Some st ->
  GitStatus.HasChanges st = false.
Proof.
  intros H. unfold gitstatus.extractGitStatus.
  match goal with
  | |- context [gitstatus.extractUncommittedChanges repo ?s opts pats] =>
      rewrite (extractUncommittedChanges_bare repo s opts pats H)
  end.
  simpl. intros [= <-]. reflexivity.
Qed.

Lemma Validate_rejects_bare_with_changes (r : Repository.t) g :
  Repository.IsBare r = true ->
  Repository.GitStatus r = Some g ->
  GitStatus.HasChanges g = true ->
  exists e, Repository.Validate r = Some e.
Proof.
  intros Hb Hg Hc. unfold Repository.Validate.
  destruct (String.eqb _ ""); [eauto|].
  destruct (negb (filepath_IsAbs _)); [eauto|].
  destruct (String.eqb _ ""); [eauto|].
  rewrite Hb, Hg, Hc. simpl. eauto.
Qed.

(** C9.  For a bare repository (one whose [Worktree()] answers
    [ErrIsBareRepository]) the working-tree step returns at once with
    [HasChanges = false], without asking for a status, and so every status
    [Extract] returns for it has [HasChanges = false]; and
    [Repository.Validate] returns an error for every record that is marked
    bare while its status claims changes. *)
Theorem bare_repository_has_no_changes :
  (forall repo status opts (pats : list string),
      git.Worktree_ repo = Err git.ErrIsBareRepository ->
      gitstatus.extractUncommittedChanges repo status opts pats
      = (GitStatus.with_HasChanges false status, Some git.ErrIsBareRepository)) /\
  (forall tm repo (o : option gitstatus.ExtractOptions) (pats : list string),
      git.Worktree_ repo = Err git.ErrIsBareRepository ->
      exists st,
        (fst (gitstatus.Extract tm (Ok repo) o pats)) = Some st /\
        GitStatus.HasChanges st = false) /\
  (forall (r : Repository.t) g,
      Repository.IsBare r = true ->
      Repository.GitStatus r = Some g ->
      GitStatus.HasChanges g = true ->
      exists e, Repository.Validate r = Some e).
Proof.
  split; [|split].
  - exact extractUncommittedChanges_bare.
  - intros tm repo o pats H.
    destruct (Extract_never_nil tm (Ok repo) o pats) as [st Hst].
    exists st. split; [exact Hst|].
    revert Hst. unfold gitstatus.Extract.
    destruct (gitstatus.ctxCase _ tm).
    + intros [= <-]. reflexivity.
    + pose proof (extractGitStatus_bare repo (gitstatus.orDefault o) pats) as K.
      destruct (gitstatus.extractGitStatus (Ok repo) _ pats) as [s [e|]]; simpl in *.
      * intros [= <-]. reflexivity.
      * intros ->. apply K; auto.
  - exact Validate_rejects_bare_with_changes.
Qed.

(** C9 at concrete inputs: the bare repository [examples.bareRepo], and a
    record marked bare whose status claims changes. *)
Lemma bare_repository_has_no_changes_witness :
  (exists st,
      (fst (gitstatus.Extract examples.prompt (Ok examples.bareRepo) None [])) = Some st /\
      GitStatus.HasChanges st = false) /\
  (exists e,
      Repository.Validate
        (Repository.mk "/srv/git/tool.git" "tool.git" true false
           (Some (GitStatus.mk "main" false true 0 0 false true "")) None false)
      = Some e).
Proof.
  destruct bare_repository_has_no_changes as (_ & B & C).
  split.
  - apply B. reflexivity.
  - eapply C; reflexivity.
Defined.

End StatusClaims.

Section DegradedStatus.

Implicit Types (tm : gitstatus.Timing) (o : option gitstatus.ExtractOptions).





End DegradedStatus.

(** ** Rendering a tree without children *)

Section EmptyTree.

(** C4, as the code has it.  For a root without children [Format] writes
    the root label on a line of its own when [ShowRoot] is set and nothing
    otherwise, whatever the colours; the line that says that no repository
    was found is written by [main], which does not call [Format] when the
    scan found no repository. *)
Theorem Format_childless_root_is_root_label :
  (forall (c : Palette) (root : TreeNode.t) (opts : option tree.FormatOptions),
      TreeNode.Children root = [] ->
      tree.Format c (Some root) opts
      = if tree.ShowRoot (tree.orDefault opts)
        then tree.RootLabel (tree.orDefault opts) +:+ String "010" ""
        else "") /\
  (forall (fp : filepath.API) (c : Palette) (cwd : string) (res : ScanResult.t)
          (statuses : gmap string GitStatus.t),
      ScanResult.Repositories res = [] ->
      cmd.main_stdout fp c cwd (Some res, None) statuses
      = "No Git repositories found in this directory." +:+ String "010" "").
Proof.
  split.
  - intros c root opts H. unfold tree.Format. rewrite H. reflexivity.
  - intros fp c cwd res statuses H. unfold cmd.main_stdout. rewrite H. reflexivity.
Qed.

(** C4 at concrete inputs: the tree [Build] makes of no repository. *)
Lemma Format_childless_root_is_root_label_witness :
  tree.Format noColor (Some (tree.Build filepath.unix "/work" [] None)) None
  = "." +:+ String "010" "".
Proof.
  destruct Format_childless_root_is_root_label as (A & _).
  apply (A noColor (tree.Build filepath.unix "/work" [] None) None).
  reflexivity.
Defined.

(** C4 as stated fails: for the tree built from no repository, [Format]
    writes the root label and nowhere the words of the claim. *)
Lemma Format_of_empty_tree_has_no_message :
  let out := tree.Format noColor (Some (tree.Build filepath.unix "/work" [] None)) None in
  out = "." +:+ String "010" "" /\
  strings_Contains out "no repositories found" = false /\
  strings_Contains out "No repositories found" = false.
Proof. vm_compute. auto. Qed.

End EmptyTree.

(** ** Ahead and behind counts *)

Section AheadBehind.

Implicit Types (repo : git.Repository) (status st : GitStatus.t).
Implicit Types (h x : git.Hash) (L R : gset git.Hash).

Lemma incr_small (n : Z) : 0 <= n < maxInt -> incr n = n + 1.
Proof.
  unfold incr, wrap64, maxInt. intros H.
  rewrite Z.mod_small; lia.
Qed.

(** The map [toCommits] after the first loop holds exactly the names the
    iterator handed over. *)
Lemma toCommits_lookup (l : list git.Commit) (m : gmap git.Hash bool) h :
  default false
    (fold_left (fun acc c => <[git.Commit_Hash c := true]> acc) l m !! h) = true
  <-> h ∈ map git.Commit_Hash l \/ default false (m !! h) = true.
Proof.
  revert m. induction l as [|c l IH]; intros m; simpl.
  - split; [auto|]. intros [H|H]; [inversion H|exact H].
  - rewrite IH. rewrite elem_of_cons.
    destruct (decide (git.Commit_Hash c = h)) as [->|Hne].
    + rewrite lookup_insert_eq. simpl. tauto.
    + rewrite lookup_insert_ne by exact Hne. split; [tauto|].
      intros [[E|H]|H]; [congruence|tauto|tauto].
Qed.

(** The counting loop: as long as the count fits an [int], it is the
    number of commits handed over whose name the map does not hold. *)
Lemma count_loop (m : gmap git.Hash bool) (l : list git.Commit) (acc : Z) :
  0 <= acc ->
  acc + Z.of_nat (length l) <= maxInt ->
  fold_left (fun (count : int) c =>
               if negb (default false (m !! git.Commit_Hash c))
               then incr count else count) l acc
  = acc + Z.of_nat (length (filter (fun x => default false (m !! x) = false)
                                   (map git.Commit_Hash l))).
Proof.
  revert acc. induction l as [|c l IH]; intros acc Hacc Hfit; simpl in *.
  - lia.
  - rewrite filter_cons.
    destruct (default false (m !! git.Commit_Hash c)) eqn:E; simpl.
    + apply IH; lia.
    + rewrite incr_small by lia. rewrite IH by lia. simpl. lia.
Qed.

(** [countCommitsBetween] on two readable histories. *)
Lemma countCommitsBetween_exact repo (from to : git.Commit)
    (fromIter toIter : git.CommitIter) L R :
  git.Log repo (git.Commit_Hash from) = Ok fromIter ->
  git.failure fromIter = None ->
  git.Log repo (git.Commit_Hash to) = Ok toIter ->
  git.failure toIter = None ->
  NoDup (history.hashes fromIter) ->
  (forall x, x ∈ L <-> x ∈ history.hashes fromIter) ->
  (forall x, x ∈ R <-> x ∈ history.hashes toIter) ->
  Z.of_nat (size L) <= maxInt ->
  gitstatus.countCommitsBetween repo from to = (Z.of_nat (size (L ∖ R)), None).
Proof.
  intros Hf Hff Ht Htf Hnd HL HR Hfit.
  unfold gitstatus.countCommitsBetween, git.ForEach.
  rewrite Ht, Htf, Hf, Hff.
  set (m := fold_left _ (git.commits toIter) ∅).
  assert (Hm : forall x, default false (m !! x) = false <-> x ∉ R).
  { intros x. rewrite HR. unfold history.hashes.
    pose proof (toCommits_lookup (git.commits toIter) ∅ x) as K.
    fold m in K. rewrite lookup_empty in K. simpl in K.
    destruct (default false (m !! x)); split; intros H; try discriminate; try tauto.
    - exfalso. destruct K as [K _]. destruct (K eq_refl) as [Hin|Hin];
        [exact (H Hin)|discriminate].
    - intros Hin. destruct K as [_ K]. discriminate K. left. exact Hin. }
  assert (HLlen : size L = length (history.hashes fromIter)).
  { rewrite <- (size_list_to_set (C := gset git.Hash)) by exact Hnd.
    f_equal. apply set_eq. intros x. rewrite HL, elem_of_list_to_set. reflexivity. }
  rewrite count_loop; [|lia|].
  2:{ unfold history.hashes in HLlen. rewrite length_map in HLlen. lia. }
  f_equal. rewrite Z.add_0_l. f_equal.
  rewrite <- (size_list_to_set (C := gset git.Hash)).
  - f_equal. apply set_eq. intros x.
    rewrite elem_of_list_to_set, list_elem_of_filter, elem_of_difference, Hm, HL.
    unfold history.hashes. tauto.
  - apply NoDup_filter. exact Hnd.
Qed.

(** [extractAheadBehind] on a repository whose tracking reference
    resolves and whose two histories can be read. *)
Lemma extractAheadBehind_exact repo status (head remoteRef : git.Reference) L R :
  history.Log_walks_history repo ->
  history.CommitObject_names repo ->
  git.Head repo = Ok head ->
  git.Reference_ repo (git.NewRemoteReferenceName "origin" (git.Short (git.Name head)))
  = Ok remoteRef ->
  history.readable repo (git.Ref_Hash head) ->
  history.readable repo (git.Ref_Hash remoteRef) ->
  (forall x, x ∈ L <-> history.reachable repo (git.Ref_Hash head) x) ->
  (forall x, x ∈ R <-> history.reachable repo (git.Ref_Hash remoteRef) x) ->
  Z.of_nat (size L) <= maxInt ->
  Z.of_nat (size R) <= maxInt ->
  gitstatus.extractAheadBehind repo status
  = (GitStatus.with_Behind (Z.of_nat (size (R ∖ L)))
       (GitStatus.with_Ahead (Z.of_nat (size (L ∖ R))) status), None).
Proof.
  intros Hlog Hnames Hhead Href [[lc Hlc] [li [Hli Hlf]]] [[rc Hrc] [ri [Hri Hrf]]]
         HL HR HfitL HfitR.
  pose proof (Hnames _ _ Hlc) as Elc. pose proof (Hnames _ _ Hrc) as Erc.
  destruct (Hlog _ _ Hli Hlf) as [NDl Rl]. destruct (Hlog _ _ Hri Hrf) as [NDr Rr].
  unfold gitstatus.extractAheadBehind.
  rewrite Hhead, Href, Hlc, Hrc.
  rewrite (countCommitsBetween_exact repo lc rc li ri L R);
    try rewrite Elc; try rewrite Erc; auto.
  2:{ intros x. rewrite HL, Rl. reflexivity. }
  2:{ intros x. rewrite HR, Rr. reflexivity. }
  rewrite (countCommitsBetween_exact repo rc lc ri li R L);
    try rewrite Elc; try rewrite Erc; auto.
  - intros x. rewrite HR, Rr. reflexivity.
  - intros x. rewrite HL, Rl. reflexivity.
Qed.

(** C1.  For a repository that opens, has a remote configured and whose
    remote tracking reference resolves, with both histories readable and
    of a size that fits an [int]: the status [extractGitStatus] returns has
    as its ahead count the number of commits reachable from the local head
    and not from the tracking reference, and as its behind count the
    number reachable from the tracking reference and not from the local
    head; neither is negative.  [L] and [R] are the two sets of reachable
    commit names. *)
Theorem ahead_behind_are_the_set_differences
    repo (opts : gitstatus.ExtractOptions) (pats : list string)
    (head remoteRef : git.Reference) (remote : string) (remotes : list string) L R :
  history.Log_walks_history repo ->
  history.CommitObject_names repo ->
  git.Remotes repo = Ok (remote :: remotes) ->
  git.Head repo = Ok head ->
  git.Reference_ repo (git.NewRemoteReferenceName "origin" (git.Short (git.Name head)))
  = Ok remoteRef ->
  history.readable repo (git.Ref_Hash head) ->
  history.readable repo (git.Ref_Hash remoteRef) ->
  (forall x, x ∈ L <-> history.reachable repo (git.Ref_Hash head) x) ->
  (forall x, x ∈ R <-> history.reachable repo (git.Ref_Hash remoteRef) x) ->
  Z.of_nat (size L) <= maxInt ->
  Z.of_nat (size R) <= maxInt ->
  exists st,
    gitstatus.extractGitStatus (Ok repo) opts pats = (Some st, None) /\
    GitStatus.HasRemote st = true /\
    GitStatus.Ahead st = Z.of_nat (size (L ∖ R)) /\
    GitStatus.Behind st = Z.of_nat (size (R ∖ L)) /\
    0 <= GitStatus.Ahead st /\ 0 <= GitStatus.Behind st.
Proof.
  intros Hlog Hnames Hrem Hhead Href Hrl Hrr HL HR HfitL HfitR.
  unfold gitstatus.extractGitStatus.
  set (s1 := match gitstatus.extractBranch repo GitStatus.zero with
             | (s, Some err) => _ | (s, None) => s end).
  assert (Hs2 : (let (status, o) := gitstatus.extractRemote repo s1 in
                 match o with
                 | Some _ => GitStatus.with_HasRemote false status
                 | None => status end) = GitStatus.with_HasRemote true s1).
  { unfold gitstatus.extractRemote. rewrite Hrem. reflexivity. }
  rewrite Hs2. clearbody s1. simpl GitStatus.HasRemote. cbv iota.
  rewrite (extractAheadBehind_exact repo _ head remoteRef L R) by assumption.
  set (s3 := GitStatus.with_Behind _ _).
  set (s4 := GitStatus.with_HasStashes _ s3).
  pose proof (extractUncommittedChanges_keeps repo s4 opts pats) as K.
  destruct (gitstatus.extractUncommittedChanges repo s4 opts pats) as [s oe].
  simpl in K. destruct K as (K1 & K2 & K3 & _).
  eexists. split; [reflexivity|].
  assert (forall s', GitStatus.HasRemote s' = GitStatus.HasRemote s ->
                     GitStatus.Ahead s' = GitStatus.Ahead s ->
                     GitStatus.Behind s' = GitStatus.Behind s ->
                     GitStatus.HasRemote s' = true /\
                     GitStatus.Ahead s' = Z.of_nat (size (L ∖ R)) /\
                     GitStatus.Behind s' = Z.of_nat (size (R ∖ L)) /\
                     0 <= GitStatus.Ahead s' /\ 0 <= GitStatus.Behind s') as Hfin.
  { intros s' -> E2 E3. rewrite E2, E3, K1, K2, K3. subst s4 s3. simpl.
    repeat split; lia. }
  destruct oe as [e|]; [destruct (negb _)|]; apply Hfin; auto;
    pose proof (noteError_keeps e s) as N; simpl in N; tauto.
Qed.

End AheadBehind.

Section AheadBehindExample.

(** A set of commit names closed under the parent links holds everything
    reachable from its members. *)
Lemma reachable_closed (repo : git.Repository) (S : gset git.Hash) :
  (forall h c p, h ∈ S -> git.CommitObject repo h = Ok c ->
                 p ∈ git.ParentHashes c -> p ∈ S) ->
  forall a x, history.reachable repo a x -> a ∈ S -> x ∈ S.
Proof.
  intros Hclosed a x Hr. induction Hr as [h|h c p x Hc Hp _ IH]; intros Hin.
  - exact Hin.
  - apply IH. eapply Hclosed; eauto.
Qed.

Lemma examples_parent (h p : git.Hash) (ps : list git.Hash) x :
  examples.parentsOf h = Some ps -> p ∈ ps ->
  history.reachable examples.clone p x -> history.reachable examples.clone h x.
Proof.
  intros Hps Hp Hr.
  apply (history.reach_parent examples.clone h (git.mkCommit h ps) p x);
    [|exact Hp|exact Hr].
  simpl. unfold examples.commitObject. rewrite Hps. reflexivity.
Qed.

Lemma examples_closed (S : gset git.Hash) :
  (forall h ps p, h ∈ S -> examples.parentsOf h = Some ps -> p ∈ ps -> p ∈ S) ->
  forall h c p, h ∈ S -> git.CommitObject examples.clone h = Ok c ->
                p ∈ git.ParentHashes c -> p ∈ S.
Proof.
  intros H h c p Hin. simpl. unfold examples.commitObject.
  destruct (examples.parentsOf h) as [ps|] eqn:E; [|discriminate].
  intros [= <-]. simpl. eauto.
Qed.

Lemma examples_reach_local x :
  x ∈ ({[5; 4; 2; 1]}%N : gset git.Hash) <-> history.reachable examples.clone 5%N x.
Proof.
  split.
  - intros H.
    assert (x = 5 \/ x = 4 \/ x = 2 \/ x = 1)%N as [-> | [-> | [-> | ->]]] by (set_unfold; tauto).
    + apply history.reach_self.
    + eapply (examples_parent 5%N 4%N); [reflexivity|set_unfold; tauto|apply history.reach_self].
    + eapply (examples_parent 5%N 4%N); [reflexivity|set_unfold; tauto|].
      eapply (examples_parent 4%N 2%N); [reflexivity|set_unfold; tauto|apply history.reach_self].
    + eapply (examples_parent 5%N 4%N); [reflexivity|set_unfold; tauto|].
      eapply (examples_parent 4%N 2%N); [reflexivity|set_unfold; tauto|].
      eapply (examples_parent 2%N 1%N); [reflexivity|set_unfold; tauto|apply history.reach_self].
  - intros H. eapply reachable_closed; [|exact H|set_unfold; tauto].
    apply examples_closed. intros h ps p Hin.
    assert (h = 5 \/ h = 4 \/ h = 2 \/ h = 1)%N as [-> | [-> | [-> | ->]]] by (set_unfold; tauto);
      intros [= <-]; set_unfold; tauto.
Qed.

Lemma examples_reach_remote x :
  x ∈ ({[3; 2; 1]}%N : gset git.Hash) <-> history.reachable examples.clone 3%N x.
Proof.
  split.
  - intros H.
    assert (x = 3 \/ x = 2 \/ x = 1)%N as [-> | [-> | ->]] by (set_unfold; tauto).
    + apply history.reach_self.
    + eapply (examples_parent 3%N 2%N); [reflexivity|set_unfold; tauto|apply history.reach_self].
    + eapply (examples_parent 3%N 2%N); [reflexivity|set_unfold; tauto|].
      eapply (examples_parent 2%N 1%N); [reflexivity|set_unfold; tauto|apply history.reach_self].
  - intros H. eapply reachable_closed; [|exact H|set_unfold; tauto].
    apply examples_closed. intros h ps p Hin.
    assert (h = 3 \/ h = 2 \/ h = 1)%N as [-> | [-> | ->]] by (set_unfold; tauto);
      intros [= <-]; set_unfold; tauto.
Qed.

Lemma examples_Log_walks_history : history.Log_walks_history examples.clone.
Proof.
  intros h iter Hlog _. simpl in Hlog. unfold examples.log in Hlog.
  repeat match type of Hlog with
         | context [match ?p with _ => _ end] => destruct p; try discriminate
         end;
    injection Hlog as <-; unfold history.hashes; simpl; split.
  - repeat (constructor; [set_unfold; intuition discriminate|]). constructor.
  - intros x. first [rewrite <- examples_reach_remote|rewrite <- examples_reach_local].
    set_unfold. tauto.
  - repeat (constructor; [set_unfold; intuition discriminate|]). constructor.
  - intros x. first [rewrite <- examples_reach_remote|rewrite <- examples_reach_local].
    set_unfold. tauto.
Qed.

Lemma examples_CommitObject_names : history.CommitObject_names examples.clone.
Proof.
  intros h c. simpl. unfold examples.commitObject.
  destruct (examples.parentsOf h); [|discriminate]. intros [= <-]. reflexivity.
Qed.

(** C1 on the repository [examples.clone]: the local head [5] has the
    commits [5] and [4] that the tracking reference [3] lacks, and lacks
    the commit [3]. *)
Lemma ahead_behind_are_the_set_differences_witness :
  exists st,
    gitstatus.extractGitStatus (Ok examples.clone) gitstatus.DefaultOptions []
    = (Some st, None) /\
    GitStatus.HasRemote st = true /\
    GitStatus.Ahead st = 2 /\
    GitStatus.Behind st = 1.
Proof.
  destruct (ahead_behind_are_the_set_differences
              examples.clone gitstatus.DefaultOptions [] examples.mainHead
              (git.mkReference (git.mkReferenceName false "origin/main") 3%N)
              "origin" [] {[5; 4; 2; 1]}%N {[3; 2; 1]}%N)
    as (st & E & Hr & Ha & Hb & _).
  - exact examples_Log_walks_history.
  - exact examples_CommitObject_names.
  - reflexivity.
  - reflexivity.
  - reflexivity.
  - split; [eexists; reflexivity|eexists; split; reflexivity].
  - split; [eexists; reflexivity|eexists; split; reflexivity].
  - exact examples_reach_local.
  - exact examples_reach_remote.
  - vm_compute. discriminate.
  - vm_compute. discriminate.
  - exists st. split; [exact E|]. split; [exact Hr|].
    split; [rewrite Ha|rewrite Hb]; vm_compute; reflexivity.
Defined.

End AheadBehindExample.

(** ** The order of strings and the sort *)

Section StringOrder.

Lemma Ascii_compare_trans_lt (a b c : ascii) :
  Ascii.compare a b = Lt -> Ascii.compare b c = Lt -> Ascii.compare a c = Lt.
Proof.
  unfold Ascii.compare. rewrite !N.compare_lt_iff. lia.
Qed.

Lemma String_compare_refl (a : string) : String.compare a a = Eq.
Proof.
  induction a as [|x a IH]; simpl; [reflexivity|].
  unfold Ascii.compare. rewrite N.compare_refl. exact IH.
Qed.

Lemma String_compare_trans_lt (a b c : string) :
  String.compare a b = Lt -> String.compare b c = Lt -> String.compare a c = Lt.
Proof.
  revert b c. induction a as [|x a IH]; intros [|y b] [|z c]; simpl; try congruence.
  destruct (Ascii.compare x y) eqn:Exy; try discriminate;
    destruct (Ascii.compare y z) eqn:Eyz; try discriminate; intros Hab Hbc.
  - apply Ascii.compare_eq_iff in Exy, Eyz. subst.
    assert (Ascii.compare z z = Eq) as ->
        by (unfold Ascii.compare; apply N.compare_refl).
    eauto.
  - apply Ascii.compare_eq_iff in Exy. subst. rewrite Eyz. reflexivity.
  - apply Ascii.compare_eq_iff in Eyz. subst. rewrite Exy. reflexivity.
  - rewrite (Ascii_compare_trans_lt x y z Exy Eyz). reflexivity.
Qed.

Lemma name_le_iff (a b : string) :
  shape.name_le a b <-> String.compare a b = Lt \/ a = b.
Proof.
  unfold shape.name_le, String.leb. split.
  - destruct (String.compare a b) eqn:E; intros H; try discriminate; auto.
    right. apply String.compare_eq_iff. exact E.
  - intros [-> | ->]; [reflexivity|]. rewrite String_compare_refl. reflexivity.
Qed.

Lemma name_le_trans (a b c : string) :
  shape.name_le a b -> shape.name_le b c -> shape.name_le a c.
Proof.
  rewrite !name_le_iff. intros [H1| ->] [H2| ->]; auto.
  left. eapply String_compare_trans_lt; eauto.
Qed.

Lemma name_le_antisym (a b : string) :
  shape.name_le a b -> shape.name_le b a -> a = b.
Proof. unfold shape.name_le. apply String.leb_antisym. Qed.

(** [a < b] in Go gives [a <= b], and its failure gives [b <= a]. *)
Lemma ltb_name_le (a b : string) : String.ltb a b = true -> shape.name_le a b.
Proof.
  unfold String.ltb, shape.name_le, String.leb.
  destruct (String.compare a b); congruence.
Qed.

Lemma not_ltb_name_le (a b : string) : String.ltb a b = false -> shape.name_le b a.
Proof.
  unfold String.ltb, shape.name_le, String.leb.
  rewrite (String.compare_antisym b a).
  destruct (String.compare a b); simpl; congruence.
Qed.

Lemma name_le_antisymm : AntiSymm (=) shape.name_le.
Proof. intros a b. apply name_le_antisym. Qed.

End StringOrder.

Section SortSlice.

Context {A : Type} (key : A -> string).

Let less (a b : A) : bool := String.ltb (key a) (key b).
Let le (a b : A) : Prop := shape.name_le (key a) (key b).

Lemma sort_insert_perm (x : A) (l : list A) :
  Permutation (sort_insert less x l) (x :: l).
Proof.
  induction l as [|y l IH]; simpl; [reflexivity|].
  destruct (less x y); [reflexivity|].
  rewrite IH. apply perm_swap.
Qed.

Lemma sort_Slice_perm_acc (l acc : list A) :
  Permutation (fold_left (fun acc x => sort_insert less x acc) l acc) (acc ++ l).
Proof.
  revert acc. induction l as [|x l IH]; intros acc; simpl.
  - rewrite app_nil_r. reflexivity.
  - rewrite IH, sort_insert_perm. apply Permutation_middle.
Qed.

(** [sort.Slice] rearranges, it neither drops nor adds. *)
Lemma sort_Slice_perm (l : list A) : Permutation (sort_Slice less l) l.
Proof. unfold sort_Slice. rewrite sort_Slice_perm_acc. reflexivity. Qed.

Lemma sort_insert_sorted (x : A) (l : list A) :
  StronglySorted le l -> StronglySorted le (sort_insert less x l).
Proof.
  induction l as [|y l IH]; simpl; intros Hs.
  - repeat constructor.
  - apply StronglySorted_inv in Hs. destruct Hs as [Hs Hy].
    destruct (less x y) eqn:E.
    + constructor; [constructor; assumption|].
      apply ltb_name_le in E. constructor; [exact E|].
      eapply Forall_impl; [exact Hy|]. intros z Hz. eapply name_le_trans; eauto.
    + constructor; [apply IH; exact Hs|].
      rewrite sort_insert_perm. constructor; [|exact Hy].
      apply not_ltb_name_le. exact E.
Qed.

(** [sort.Slice] leaves the slice in the order of the keys. *)
Lemma sort_Slice_sorted (l : list A) : StronglySorted le (sort_Slice less l).
Proof.
  unfold sort_Slice.
  assert (forall acc, StronglySorted le acc ->
            StronglySorted le (fold_left (fun acc x => sort_insert less x acc) l acc)) as H.
  { induction l as [|x l IH]; intros acc Hacc; simpl; [exact Hacc|].
    apply IH. apply sort_insert_sorted. exact Hacc. }
  apply H. constructor.
Qed.

End SortSlice.

(** ** Trees *)

Section TreeFacts.

Implicit Types (n c node : TreeNode.t) (l cs : list TreeNode.t) (d : Z).

(** Induction over a tree: a property holds of a node as soon as it holds
    of all its children. *)
Lemma TreeNode_induction (P : TreeNode.t -> Prop) :
  (forall repo depth isLast children relPath,
      Forall P children -> P (TreeNode.mk repo depth isLast children relPath)) ->
  forall n, P n.
Proof.
  intros H. fix IH 1. intros [repo depth isLast children relPath]. apply H.
  induction children as [|c cs IHcs]; constructor; [apply IH|exact IHcs].
Qed.

Lemma height_child n c : c ∈ TreeNode.Children n -> (shape.height c < shape.height n)%nat.
Proof.
  destruct n as [repo depth isLast children relPath]. simpl.
  induction children as [|c' cs IH]; intros Hin.
  - inversion Hin.
  - apply elem_of_cons in Hin. destruct Hin as [->|Hin]; [lia|].
    specialize (IH Hin). lia.
Qed.

Lemma height_positive n : (1 <= shape.height n)%nat.
Proof. destruct n. simpl. lia. Qed.

Lemma elem_of_nodes n x :
  x ∈ shape.nodes n <-> x = n \/ exists c, c ∈ TreeNode.Children n /\ x ∈ shape.nodes c.
Proof.
  destruct n as [repo depth isLast children relPath]. simpl.
  rewrite elem_of_cons. apply or_iff_compat_l.
  induction children as [|c cs IH].
  - split; [intros H; inversion H|intros (c & H & _); inversion H].
  - rewrite elem_of_app, IH. split.
    + intros [H|(c' & H1 & H2)].
      * exists c. split; [left|exact H].
      * exists c'. split; [right; exact H1|exact H2].
    + intros (c' & H1 & H2). apply elem_of_cons in H1. destruct H1 as [->|H1].
      * left. exact H2.
      * right. exists c'. auto.
Qed.

(** *** [SortChildren] *)

Lemma last_index (i len : nat) :
  (Z.of_nat i =? Z.of_nat len - 1) = bool_decide (S i = len).
Proof.
  destruct (decide (S i = len)) as [E|E].
  - rewrite bool_decide_eq_true_2 by exact E. apply Z.eqb_eq. lia.
  - rewrite bool_decide_eq_false_2 by exact E. apply Z.eqb_neq. lia.
Qed.

Lemma markLast_lookup l (i : nat) c :
  TreeNode.markLast l !! i = Some c <->
  exists c0, l !! i = Some c0 /\ c = TreeNode.with_IsLast (bool_decide (S i = length l)) c0.
Proof.
  unfold TreeNode.markLast. rewrite list_lookup_imap_Some.
  split; intros (c0 & H & ->); exists c0; (split; [exact H|]);
    rewrite last_index; reflexivity.
Qed.

Lemma markLast_length l : length (TreeNode.markLast l) = length l.
Proof. unfold TreeNode.markLast. apply length_imap. Qed.

Lemma markLast_elem_of l c :
  c ∈ TreeNode.markLast l -> exists b c0, c0 ∈ l /\ c = TreeNode.with_IsLast b c0.
Proof.
  intros Hin. apply list_elem_of_lookup in Hin. destruct Hin as [i Hi].
  apply markLast_lookup in Hi. destruct Hi as (c0 & H & ->).
  eexists _, c0. split; [|reflexivity].
  apply list_elem_of_lookup. eauto.
Qed.

Lemma markLast_names l :
  map TreeNode.Name (TreeNode.markLast l) = map TreeNode.Name l.
Proof.
  apply list_eq. intros i.
  change (map TreeNode.Name (TreeNode.markLast l)) with (TreeNode.Name <$> TreeNode.markLast l).
  change (map TreeNode.Name l) with (TreeNode.Name <$> l).
  rewrite !list_lookup_fmap.
  unfold TreeNode.markLast. rewrite list_lookup_imap.
  destruct (l !! i) as [c|]; reflexivity.
Qed.

Lemma sortedByName_names l :
  shape.sortedByName l <-> StronglySorted shape.name_le (map TreeNode.Name l).
Proof.
  unfold shape.sortedByName. induction l as [|c l IH]; simpl.
  - split; constructor.
  - split; intros H; apply StronglySorted_inv in H; destruct H as [H1 H2];
      (constructor; [apply IH; exact H1|]).
    + change (map TreeNode.Name l) with (TreeNode.Name <$> l).
      rewrite Forall_forall in H2. apply Forall_forall.
      intros x Hx. apply list_elem_of_fmap in Hx.
      destruct Hx as (y & -> & Hy). apply H2. exact Hy.
    + change (map TreeNode.Name l) with (TreeNode.Name <$> l) in H2.
      rewrite Forall_forall in H2. apply Forall_forall.
      intros x Hx. apply H2. apply list_elem_of_fmap. eauto.
Qed.

Lemma SortChildren_list_sorted l : shape.sortedByName (TreeNode.SortChildren_list l).
Proof.
  unfold TreeNode.SortChildren_list.
  rewrite sortedByName_names, markLast_names, <- sortedByName_names.
  apply (sort_Slice_sorted TreeNode.Name).
Qed.

Lemma SortChildren_list_elem_of l c :
  c ∈ TreeNode.SortChildren_list l -> exists b c0, c0 ∈ l /\ c = TreeNode.with_IsLast b c0.
Proof.
  intros Hin. apply markLast_elem_of in Hin. destruct Hin as (b & c0 & Hin & ->).
  exists b, c0. split; [|reflexivity].
  rewrite <- (sort_Slice_perm TreeNode.Name l). exact Hin.
Qed.

Lemma SortChildren_list_lastFlagged l : shape.lastFlagged (TreeNode.SortChildren_list l).
Proof.
  intros i c Hi. unfold TreeNode.SortChildren_list in *.
  rewrite markLast_length. apply markLast_lookup in Hi.
  destruct Hi as (c0 & _ & ->). reflexivity.
Qed.

(** The children of a node, up to their [IsLast] flags, are rearranged by
    [SortChildren], none is lost and none is added. *)
Lemma SortChildren_list_perm {B : Type} (f : TreeNode.t -> B) l :
  (forall b c, f (TreeNode.with_IsLast b c) = f c) ->
  Permutation (map f (TreeNode.SortChildren_list l)) (map f l).
Proof.
  intros Hf. unfold TreeNode.SortChildren_list.
  assert (map f (TreeNode.markLast (sort_Slice TreeNode.less l))
          = map f (sort_Slice TreeNode.less l)) as ->.
  { apply list_eq. intros i.
    change (map f ?x) with (f <$> x).
    rewrite !list_lookup_fmap. unfold TreeNode.markLast. rewrite list_lookup_imap.
    destruct (sort_Slice TreeNode.less l !! i) as [c|]; simpl; [|reflexivity].
    rewrite Hf. reflexivity. }
  apply Permutation_map. apply (sort_Slice_perm TreeNode.Name).
Qed.

(** A sorted child list is the only sorted arrangement of its names. *)
Lemma sorted_order_is_forced l l' :
  Permutation l' l -> shape.sortedByName l -> shape.sortedByName l' ->
  map TreeNode.Name l' = map TreeNode.Name l.
Proof.
  rewrite !sortedByName_names. intros Hp Hs Hs'.
  apply (@StronglySorted_unique _ shape.name_le name_le_antisymm); auto.
  apply Permutation_map. exact Hp.
Qed.

End TreeFacts.

Section BuildFacts.

Implicit Types (n c node : TreeNode.t) (l cs : list TreeNode.t) (d : Z).

Lemma ordered_with_IsLast (b : bool) c :
  shape.ordered (TreeNode.with_IsLast b c) <-> shape.ordered c.
Proof. destruct c. reflexivity. Qed.

Lemma height_with_IsLast (b : bool) c :
  shape.height (TreeNode.with_IsLast b c) = shape.height c.
Proof. destruct c. reflexivity. Qed.

Lemma sortTreeFrom_depth d node : TreeNode.Depth (tree.sortTreeFrom d node) = d.
Proof. destruct node. reflexivity. Qed.

Lemma sortTreeFrom_name d node :
  TreeNode.Name (tree.sortTreeFrom d node) = TreeNode.Name node.
Proof. destruct node. reflexivity. Qed.

Lemma sortTreeFrom_with_IsLast d (b : bool) node :
  tree.sortTreeFrom d (TreeNode.with_IsLast b node)
  = TreeNode.with_IsLast b (tree.sortTreeFrom d node).
Proof. destruct node. reflexivity. Qed.

Lemma sortTreeFrom_with_Depth d (d' : Z) node :
  tree.sortTreeFrom d (TreeNode.with_Depth d' node) = tree.sortTreeFrom d node.
Proof. destruct node. reflexivity. Qed.

(** Every node of a sorted tree is in order, as long as the depths fit an
    [int]. *)
Lemma sortTreeFrom_ordered node :
  forall d, 0 <= d ->
    d + Z.of_nat (shape.height (tree.sortTreeFrom d node)) <= maxInt ->
    forall n, n ∈ shape.nodes (tree.sortTreeFrom d node) -> shape.ordered n.
Proof.
  induction node as [repo depth isLast children relPath IH] using TreeNode_induction.
  intros d Hd Hfit n Hn.
  rewrite Forall_forall in IH.
  pose proof (height_positive
                (tree.sortTreeFrom d (TreeNode.mk repo depth isLast children relPath))) as Hpos.
  assert (Hincr : incr d = d + 1) by (apply incr_small; lia).
  apply elem_of_nodes in Hn. destruct Hn as [->|(c' & Hc' & Hn)].
  - (* the root of this subtree *)
    repeat split.
    + apply SortChildren_list_sorted.
    + unfold shape.oneLevelDown. simpl. apply Forall_forall. intros c Hc.
      apply SortChildren_list_elem_of in Hc. destruct Hc as (b & c0 & Hc0 & ->).
      change (map ?f ?x) with (f <$> x) in Hc0.
      apply list_elem_of_fmap in Hc0. destruct Hc0 as (x & -> & _).
      destruct x. simpl. exact Hincr.
    + apply SortChildren_list_lastFlagged.
  - (* a node further down *)
    pose proof (height_child _ _ Hc') as Hlt.
    simpl in Hc'.
    apply SortChildren_list_elem_of in Hc'. destruct Hc' as (b & c0 & Hc0 & ->).
    change (map ?f ?x) with (f <$> x) in Hc0.
    apply list_elem_of_fmap in Hc0. destruct Hc0 as (x & -> & Hx).
    rewrite height_with_IsLast in Hlt.
    assert (Hbelow : forall m, m ∈ shape.nodes (tree.sortTreeFrom (incr d) x) ->
                               shape.ordered m).
    { apply (IH x Hx); lia. }
    apply elem_of_nodes in Hn. destruct Hn as [->|(c & Hc & Hn)].
    + apply ordered_with_IsLast. apply Hbelow. apply elem_of_nodes. left. reflexivity.
    + apply Hbelow. apply elem_of_nodes. right. exists c. split; [|exact Hn].
      destruct (tree.sortTreeFrom (incr d) x). exact Hc.
Qed.

Lemma insertIntoTree_depth (fp : filepath.API) node (repo : Repository.t)
    (relPath rootPath : string) :
  TreeNode.Depth (tree.insertIntoTree fp node repo relPath rootPath) = TreeNode.Depth node.
Proof.
  unfold tree.insertIntoTree.
  destruct (filepath.splitSlash relPath) as [|part [|part' rest]]; simpl; try reflexivity.
  destruct (tree.findChild part (TreeNode.Children node)); reflexivity.
Qed.

Lemma Build_root_depth (fp : filepath.API) (rootPath : string)
    (repos : list Repository.t) (opts : option tree.FormatOptions) :
  TreeNode.Depth (tree.Build fp rootPath repos opts) = 0.
Proof.
  unfold tree.Build, tree.sortTree. rewrite sortTreeFrom_depth.
  set (root := TreeNode.mk _ 0 false [] _).
  assert (H : TreeNode.Depth root = 0) by reflexivity.
  clearbody root. revert root H.
  induction repos as [|repo repos IH]; intros root H; simpl; [exact H|].
  apply IH. destruct (filepath.Rel fp rootPath (Repository.Path repo)); [|exact H].
  rewrite insertIntoTree_depth. exact H.
Qed.

(** [sortTree] in the order of the source: first [SortChildren] on the
    node, then, for every child, the depth and the recursive call. *)
Lemma sortTree_unfold node :
  tree.sortTree node
  = let sorted := TreeNode.SortChildren node in
    TreeNode.with_Children
      (map (fun child =>
              tree.sortTree (TreeNode.with_Depth (incr (TreeNode.Depth sorted)) child))
           (TreeNode.Children sorted))
      sorted.
Proof.
  destruct node as [repo depth isLast children relPath].
  unfold tree.sortTree. simpl. unfold TreeNode.with_Children. simpl. f_equal.
  set (F := tree.sortTreeFrom (incr depth)).
  transitivity (map F (TreeNode.SortChildren_list children)).
  2:{ apply map_ext. intros c. destruct c. reflexivity. }
  unfold TreeNode.SortChildren_list.
  assert (Hins : forall x l, sort_insert TreeNode.less (F x) (map F l)
                             = map F (sort_insert TreeNode.less x l)).
  { intros x l. induction l as [|y l IHl]; simpl; [reflexivity|].
    assert (TreeNode.less (F x) (F y) = TreeNode.less x y) as ->.
    { unfold TreeNode.less, F. rewrite !sortTreeFrom_name. reflexivity. }
    destruct (TreeNode.less x y); simpl; [reflexivity|]. rewrite IHl. reflexivity. }
  assert (Hsort : sort_Slice TreeNode.less (map F children)
                  = map F (sort_Slice TreeNode.less children)).
  { unfold sort_Slice.
    change (@nil TreeNode.t) with (map F []) at 1.
    generalize (@nil TreeNode.t) as acc.
    induction children as [|x l IHl]; intros acc; simpl; [reflexivity|].
    rewrite Hins. apply IHl. }
  rewrite Hsort. generalize (sort_Slice TreeNode.less children) as l. intros l.
  apply list_eq. intros i.
  change (map F ?x) with (F <$> x).
  unfold TreeNode.markLast.
  rewrite list_lookup_fmap, !list_lookup_imap, list_lookup_fmap, length_fmap.
  destruct (l !! i) as [c|]; simpl; [|reflexivity].
  unfold F. rewrite sortTreeFrom_with_IsLast. reflexivity.
Qed.

End BuildFacts.

Section BuildWitness.

(** The tree built of [examples.discovered], as [Format] draws it. *)
Example Build_then_Format :
  tree.Format noColor (Some (tree.Build filepath.unix "/work" examples.discovered None)) None
  = strings_Join
      ["."; "├── app"; "└── libs"; "    ├── core"; "    └── tool.git"; ""]
      (String "010" "").
Proof. vm_compute. reflexivity. Qed.

End BuildWitness.

(** ** The tree inside a scan result *)

Section FlatTree.

Implicit Types (s : scanner.scanner) (fp : filepath.API).

(** The node [buildTree] makes of a repository. *)
Let flatNode fp s (repo : Repository.t) : TreeNode.t :=
  TreeNode.mk repo 1 false []
    match filepath.Rel fp (scanner.rootPath s) (Repository.Path repo) with
    | Err _ => Repository.Path repo
    | Ok relPath => relPath
    end.

Lemma buildTree_loop fp s (repos : list Repository.t) (root : TreeNode.t) :
  fold_left
    (fun root repo =>
       let relPath :=
         match filepath.Rel fp (scanner.rootPath s) (Repository.Path repo) with
         | Err _ => Repository.Path repo
         | Ok relPath => relPath
         end in
       let node := TreeNode.mk repo 1 false [] relPath in
       TreeNode.with_Children (TreeNode.Children root ++ [node]) root)
    repos root
  = TreeNode.with_Children (TreeNode.Children root ++ map (flatNode fp s) repos) root.
Proof.
  revert root. induction repos as [|repo repos IH]; intros root; simpl.
  - rewrite app_nil_r. destruct root. reflexivity.
  - rewrite IH. destruct root. simpl. unfold TreeNode.with_Children. simpl.
    rewrite <- app_assoc. reflexivity.
Qed.

Lemma buildTree_flat fp s :
  scanner.repositories s <> [] ->
  shape.flat (scanner.buildTree fp s) /\
  Permutation (map TreeNode.Repository (TreeNode.Children (scanner.buildTree fp s)))
              (scanner.repositories s).
Proof.
  intros Hne. unfold scanner.buildTree.
  destruct (Z.of_nat (length (scanner.repositories s)) =? 0) eqn:E.
  { exfalso. apply Hne. apply Z.eqb_eq in E.
    destruct (scanner.repositories s); [reflexivity|simpl in E; lia]. }
  rewrite buildTree_loop. simpl TreeNode.Children. rewrite app_nil_l.
  unfold TreeNode.SortChildren. simpl TreeNode.Children.
  split; [split|].
  - reflexivity.
  - simpl. apply Forall_forall. intros c Hc.
    apply SortChildren_list_elem_of in Hc. destruct Hc as (b & c0 & Hc0 & ->).
    change (map ?f ?x) with (f <$> x) in Hc0.
    apply list_elem_of_fmap in Hc0. destruct Hc0 as (x & -> & _).
    split; reflexivity.
  - simpl TreeNode.Children.
    rewrite (SortChildren_list_perm TreeNode.Repository) by (intros b c; destruct c; reflexivity).
    rewrite map_map. simpl. rewrite map_id. reflexivity.
Qed.

(** C10.  When [Scan] returns a result with at least one repository, the
    tree in that result is flat: its root stands at depth 0, every child of
    the root stands at depth 1 and has no children, and the repositories of
    the children are exactly the repositories of the result, each one once
    (in the order of [SortChildren]); no node stands for a mere path
    segment, however deep a repository lies below the root. *)
Theorem Scan_tree_is_flat
    (w : scanner.World) fp (ctx : scanner.Context) (opts : scanner.ScanOptions)
    (res : ScanResult.t) :
  scanner.Scan w fp ctx opts = (Some res, None) ->
  ScanResult.Repositories res <> [] ->
  shape.flat (ScanResult.Tree res) /\
  Permutation (map TreeNode.Repository (TreeNode.Children (ScanResult.Tree res)))
              (ScanResult.Repositories res).
Proof.
  unfold scanner.Scan.
  destruct (scanner.StatRoot w _) as [isDir|e]; [|discriminate].
  destruct (negb isDir); [discriminate|].
  destruct (filepath.Abs fp _) as [absPath|e]; [|discriminate].
  destruct (scanner.Scan_walk w fp ctx absPath) as [r err].
  destruct (match err with
            | Some e => if negb (errors_Is e context_Canceled) then Some e else None
            | None => None end); [discriminate|].
  intros [= <-]. simpl. apply buildTree_flat.
Qed.

(** C10 on the directory tree of [examples.world]: the repositories
    [core] and [tool.git], two levels below the root, are children of the
    root all the same. *)
Lemma Scan_tree_is_flat_witness :
  exists res,
    scanner.Scan examples.world filepath.unix scanner.Background
                 (scanner.mkScanOptions "/work") = (Some res, None) /\
    map Repository.Path (ScanResult.Repositories res)
    = ["/work/app"; "/work/libs/core"; "/work/libs/tool.git"] /\
    shape.flat (ScanResult.Tree res) /\
    Permutation (map TreeNode.Repository (TreeNode.Children (ScanResult.Tree res)))
                (ScanResult.Repositories res).
Proof.
  destruct (scanner.Scan examples.world filepath.unix scanner.Background
                         (scanner.mkScanOptions "/work")) as [[res|] [e|]] eqn:E;
    try (exfalso; vm_compute in E; discriminate).
  exists res. split; [reflexivity|].
  assert (Hpaths : map Repository.Path (ScanResult.Repositories res)
                   = ["/work/app"; "/work/libs/core"; "/work/libs/tool.git"]).
  { vm_compute in E. injection E as <-. reflexivity. }
  split; [exact Hpaths|].
  apply (Scan_tree_is_flat examples.world filepath.unix scanner.Background
                           (scanner.mkScanOptions "/work") res E).
  intros H. rewrite H in Hpaths. discriminate.
Defined.

End FlatTree.

(** ** Paths *)

Section PathFacts.

Implicit Types (P p q n rest : string).

Lemma append_cons (x : ascii) (a b : string) : String x a +:+ b = String x (a +:+ b).
Proof. reflexivity. Qed.

Lemma append_empty_l (a : string) : "" +:+ a = a.
Proof. reflexivity. Qed.

Lemma append_empty_r (a : string) : a +:+ "" = a.
Proof.
  induction a as [|x a IH]; [reflexivity|]. rewrite append_cons, IH. reflexivity.
Qed.

Lemma append_assoc (a b c : string) : (a +:+ b) +:+ c = a +:+ (b +:+ c).
Proof.
  induction a as [|x a IH]; [reflexivity|]. rewrite !append_cons, IH. reflexivity.
Qed.

Lemma append_length (a b : string) :
  String.length (a +:+ b) = (String.length a + String.length b)%nat.
Proof.
  induction a as [|x a IH]; [reflexivity|]. rewrite append_cons. simpl.
  rewrite IH. reflexivity.
Qed.

Lemma append_cancel (a b c : string) : a +:+ b = a +:+ c -> b = c.
Proof.
  induction a as [|x a IH]; [auto|]. rewrite !append_cons. intros [= H]. auto.
Qed.

Lemma dirPrefix_length P :
  (String.length P <= String.length (filepath.dirPrefix P))%nat.
Proof.
  unfold filepath.dirPrefix. destruct (String.eqb P "/") eqn:E.
  - apply String.eqb_eq in E. subst. simpl. lia.
  - rewrite append_length. lia.
Qed.

(** The prefix of a directory ends where the prefix of any entry of it
    goes on. *)
Lemma dirPrefix_join P n :
  n <> "" ->
  filepath.dirPrefix (filepath.joinName P n) = filepath.dirPrefix P +:+ n +:+ "/".
Proof.
  intros Hn. unfold filepath.joinName.
  unfold filepath.dirPrefix at 1.
  destruct (String.eqb (filepath.dirPrefix P +:+ n) "/") eqn:E.
  - exfalso. apply String.eqb_eq in E.
    assert (L := f_equal String.length E). rewrite append_length in L. simpl in L.
    assert (1 <= String.length (filepath.dirPrefix P))%nat.
    { unfold filepath.dirPrefix. destruct (String.eqb P "/"); simpl; [lia|].
      rewrite append_length. simpl. lia. }
    destruct n; [congruence|]. simpl in L. lia.
  - apply append_assoc.
Qed.

Lemma dirPrefix_within P p :
  paths.within P p -> exists t, filepath.dirPrefix p = filepath.dirPrefix P +:+ t.
Proof.
  intros [->|[rest ->]].
  - exists "". rewrite append_empty_r. reflexivity.
  - unfold filepath.dirPrefix at 1.
    destruct (String.eqb _ "/") eqn:E.
    + apply String.eqb_eq in E. exists rest. symmetry. exact E.
    + exists (rest +:+ "/"). apply append_assoc.
Qed.

Lemma within_join P n q : paths.within (filepath.joinName P n) q -> paths.within P q.
Proof.
  intros H. right. destruct H as [->|[rest ->]].
  - exists n. reflexivity.
  - destruct (dirPrefix_within P (filepath.joinName P n)) as [t Ht].
    { right. exists n. reflexivity. }
    rewrite Ht. exists (t +:+ rest). apply append_assoc.
Qed.

Lemma within_length P p : paths.within P p -> (String.length P <= String.length p)%nat.
Proof.
  intros [->|[rest ->]]; [lia|].
  rewrite append_length. pose proof (dirPrefix_length P). lia.
Qed.

Lemma strictlyBeneath_length P p :
  paths.strictlyBeneath P p -> (String.length P < String.length p)%nat.
Proof.
  intros (rest & Hne & ->). rewrite append_length.
  pose proof (dirPrefix_length P). destruct rest; [congruence|]. simpl. lia.
Qed.

(** A directory does not lie beneath something inside it. *)
Lemma parent_not_beneath P n p :
  n <> "" -> paths.within (filepath.joinName P n) p -> ~ paths.strictlyBeneath p P.
Proof.
  intros Hn Hw Hb. apply within_length in Hw. apply strictlyBeneath_length in Hb.
  unfold filepath.joinName in Hw. rewrite append_length in Hw.
  pose proof (dirPrefix_length P). destruct n; [congruence|]. simpl in Hw. lia.
Qed.

Lemma not_beneath_itself P : ~ paths.strictlyBeneath P P.
Proof. intros H. apply strictlyBeneath_length in H. lia. Qed.

(** Two names without a slash that are followed by a slash, or by nothing,
    at the same place of a string are the same name. *)
Lemma plain_names_meet n1 n2 (u v : string) :
  paths.hasSlash n1 = false -> paths.hasSlash n2 = false ->
  (u = "" \/ exists u', u = "/" +:+ u') ->
  n2 +:+ u = n1 +:+ "/" +:+ v ->
  n1 = n2.
Proof.
  revert n2. induction n1 as [|c n1 IH]; intros [|c2 n2] H1 H2 Hu E;
    rewrite ?append_cons, ?append_empty_l in E.
  - reflexivity.
  - injection E as -> _. simpl in H2. discriminate.
  - destruct Hu as [->|[u' ->]]; [discriminate|].
    rewrite append_cons in E. injection E as <- _. simpl in H1. discriminate.
  - injection E as -> E. simpl in H1, H2. apply orb_false_elim in H1, H2.
    f_equal. apply (IH n2); tauto.
Qed.

(** What lies in one entry of a directory does not lie beneath what lies
    in another. *)
Lemma siblings_apart P n1 n2 p q :
  paths.plainName n1 -> paths.plainName n2 -> n1 <> n2 ->
  paths.within (filepath.joinName P n1) p ->
  paths.within (filepath.joinName P n2) q ->
  ~ paths.strictlyBeneath p q.
Proof.
  intros [Hne1 Hs1] [Hne2 Hs2] Hdiff Hp Hq (rest & _ & Hb).
  apply Hdiff.
  destruct (dirPrefix_within _ _ Hp) as [t Ht].
  rewrite dirPrefix_join in Ht by exact Hne1.
  rewrite Ht in Hb. clear Ht Hp.
  assert (exists u, (u = "" \/ exists u', u = "/" +:+ u') /\
                    q = filepath.dirPrefix P +:+ n2 +:+ u) as (u & Hu & ->).
  { destruct Hq as [->|[r ->]].
    - exists "". split; [left; reflexivity|].
      unfold filepath.joinName. rewrite append_empty_r. reflexivity.
    - rewrite dirPrefix_join by exact Hne2.
      exists ("/" +:+ r). split; [right; eauto|].
      rewrite !append_assoc. reflexivity. }
  rewrite !append_assoc in Hb. apply append_cancel in Hb.
  apply (plain_names_meet n1 n2 u (t +:+ rest)); auto.
Qed.

End PathFacts.

(** Tree predicates on concrete trees, by computation. *)

Lemma plainName_holds (n : string) :
  negb (String.eqb n "") && negb (paths.hasSlash n) = true -> paths.plainName n.
Proof.
  intros H. apply andb_true_iff in H. destruct H as [H1 H2].
  apply negb_true_iff in H1, H2. split; [|exact H2].
  apply String.eqb_neq. exact H1.
Qed.

Lemma NoDup_names_hold (l : list string) : bool_decide (NoDup l) = true -> NoDup l.
Proof. apply bool_decide_eq_true. Qed.

Ltac well_named :=
  repeat lazymatch goal with
         | |- paths.wellNamed (os.File _ _) => apply paths.wn_File
         | |- paths.wellNamed (os.Symlink _ _) => apply paths.wn_Symlink
         | |- paths.wellNamed (os.Dir _ _ _) => apply paths.wn_Dir
         | |- paths.onlyPermissionDenied (os.File _ _) => apply paths.pd_File
         | |- paths.onlyPermissionDenied (os.Symlink _ _) => apply paths.pd_Symlink
         | |- paths.onlyPermissionDenied (os.Dir _ _ _) =>
             apply paths.pd_Dir; [simpl; tauto|]
         | |- Forall _ [] => apply List.Forall_nil
         | |- Forall _ (_ :: _) => apply List.Forall_cons
         | |- NoDup _ => apply NoDup_names_hold; vm_compute; reflexivity
         | |- paths.plainName _ => apply plainName_holds; reflexivity
         end.


(** ** The walk *)

Section WalkFacts.

Variables (fp : filepath.API) (ctx : scanner.Context).

Implicit Types (r : scanner.Run) (d : os.Entry) (path : string).
Implicit Types (new : list scanner.Probe).

Lemma Entry_induction (P : os.Entry -> Prop) :
  (forall n ino, P (os.File n ino)) ->
  (forall n t, P (os.Symlink n t)) ->
  (forall n info entries, Forall P entries -> P (os.Dir n info entries)) ->
  forall d, P d.
Proof.
  intros HF HS HD. fix IH 1. intros [n ino|n t|n info entries]; [apply HF|apply HS|].
  apply HD. induction entries as [|e es IHes]; constructor; [apply IH|exact IHes].
Qed.

Lemma walkDir_unfold (fn : string -> scanner.Visit -> scanner.Run -> scanner.Run * option error)
    path d r :
  scanner.walkDir fn path d r
  = match fn path (scanner.Entered d) r with
    | (r1, Some err) =>
        (r1, if bool_decide (err = scanner.fs_SkipDir) && os.IsDir d then None else Some err)
    | (r1, None) =>
        match d with
        | os.Dir _ info entries =>
            match os.ReadDirErr info with
            | Some en =>
                match fn path (scanner.Failed (Some d) (PathError "open" path en)) r1 with
                | (r2, Some err) =>
                    (r2, if bool_decide (err = scanner.fs_SkipDir) && os.IsDir d
                         then None else Some err)
                | (r2, None) => (r2, None)
                end
            | None => scanner.walkEntries fn path entries r1
            end
        | _ => (r1, None)
        end
    end.
Proof. destruct d; reflexivity. Qed.

Lemma extends_same r r' :
  scanner.probes r' = scanner.probes r ->
  scanner.repositories (scanner.sc r') = scanner.repositories (scanner.sc r) ->
  paths.extends r r' [].
Proof. intros H1 H2. split; simpl; rewrite app_nil_r; congruence. Qed.

Lemma extends_nil r : paths.extends r r [].
Proof. apply extends_same; reflexivity. Qed.

Lemma matched_app new1 new2 :
  paths.matched (new1 ++ new2) = paths.matched new1 ++ paths.matched new2.
Proof. unfold paths.matched. rewrite filter_app, map_app. reflexivity. Qed.

Lemma extends_trans r r1 r2 new1 new2 :
  paths.extends r r1 new1 -> paths.extends r1 r2 new2 ->
  paths.extends r r2 (new1 ++ new2).
Proof.
  intros [A1 B1] [A2 B2]. split.
  - rewrite A2, A1, app_assoc. reflexivity.
  - rewrite B2, B1, matched_app, app_assoc. reflexivity.
Qed.

Lemma shouldVisit_repositories path d (s : scanner.scanner) :
  scanner.repositories (fst (scanner.shouldVisit path d s)) = scanner.repositories s.
Proof.
  unfold scanner.shouldVisit.
  destruct (os.Lstat path d) as [info|e]; [|reflexivity].
  destruct (if os.fi_IsSymlink info then _ else _) as [[info'|]|e]; try reflexivity.
  destruct (os.fi_Ino info') as [inode|]; [|reflexivity].
  destruct (default false _); reflexivity.
Qed.

(** A first visit makes no probe and stops the walk or meets no directory,
    or it probes the path and finds a repository there, which prunes the
    walk, or it probes the path and finds none. *)
Lemma walkFunc_Entered path d r r' (err : option error) :
  scanner.walkFunc fp ctx path (scanner.Entered d) r = (r', err) ->
  (paths.extends r r' [] /\ (err = None -> os.IsDir d = false)) \/
  (exists bare, paths.extends r r' [scanner.mkProbe path true bare] /\
                err = Some scanner.fs_SkipDir) \/
  (exists bare, paths.extends r r' [scanner.mkProbe path false bare] /\ err = None).
Proof.
  unfold scanner.walkFunc.
  destruct (scanner.ctx_Err ctx (scanner.calls r)).
  { intros [= <- <-]. left. split; [apply extends_same; reflexivity|discriminate]. }
  destruct (os.IsDir d) eqn:Edir; simpl.
  2:{ intros [= <- <-]. left. split; [apply extends_same; reflexivity|reflexivity]. }
  pose proof (shouldVisit_repositories path d (scanner.count_dir (scanner.sc r))) as Hrepos.
  destruct (scanner.shouldVisit path d _) as [s [[visit isSymlink] [e|]]];
    simpl in Hrepos; destruct visit;
    try (intros [= <- <-]; left; split; [|discriminate];
         apply extends_same; simpl; [reflexivity|exact Hrepos]).
  destruct (scanner.IsGitRepository path d) as [[|] bare].
  - intros [= <- <-]. right. left. exists bare. split; [|reflexivity].
    split; simpl; [reflexivity|]. rewrite map_app, Hrepos. reflexivity.
  - intros [= <- <-]. right. right. exists bare. split; [|reflexivity].
    split; simpl; [reflexivity|]. rewrite Hrepos, app_nil_r. reflexivity.
Qed.

(** The report of a failure makes no probe and never lets the walk go
    on. *)
Lemma walkFunc_Failed path (d : option os.Entry) (e : error) r r' (err : option error) :
  scanner.walkFunc fp ctx path (scanner.Failed d e) r = (r', err) ->
  paths.extends r r' [] /\ err <> None.
Proof.
  unfold scanner.walkFunc.
  destruct (scanner.ctx_Err ctx (scanner.calls r)).
  { intros [= <- <-]. split; [apply extends_same; reflexivity|discriminate]. }
  destruct (os_IsPermission e); intros [= <- <-];
    (split; [apply extends_same; reflexivity|discriminate]).
Qed.

Lemma pruned_single (p : scanner.Probe) : paths.pruned [p].
Proof.
  intros a b Ha _ Hb. apply list_elem_of_singleton in Ha, Hb. subst.
  apply not_beneath_itself.
Qed.

Lemma pruned_nil : paths.pruned [].
Proof. intros a b Ha. inversion Ha. Qed.

(** The loop over the entries of a directory, given what holds of the
    walk of each entry. *)
Lemma walkEntries_spec path (entries : list os.Entry) :
  Forall (fun d => forall path r r' err,
            scanner.walkDir (scanner.walkFunc fp ctx) path d r = (r', err) ->
            exists new, paths.extends r r' new /\
                        Forall (fun q => paths.within path (scanner.probed q)) new /\
                        paths.pruned new) entries ->
  NoDup (map os.Name entries) ->
  Forall (fun e => paths.plainName (os.Name e)) entries ->
  forall r r' err,
    scanner.walkEntries (scanner.walkFunc fp ctx) path entries r = (r', err) ->
    exists new,
      paths.extends r r' new /\
      Forall (fun q => exists n, n ∈ map os.Name entries /\ paths.plainName n /\
                                 paths.within (filepath.joinName path n) (scanner.probed q))
             new /\
      paths.pruned new.
Proof.
  induction entries as [|d1 rest IH]; intros Hall Hnd Hplain r r' err; simpl.
  - intros [= <- <-]. exists []. split; [apply extends_nil|]. split; [constructor|].
    apply pruned_nil.
  - apply Forall_cons in Hall. destruct Hall as [H1 Hrest].
    apply NoDup_cons in Hnd. destruct Hnd as [Hfresh Hnd].
    apply Forall_cons in Hplain. destruct Hplain as [Hp1 Hplain].
    destruct (scanner.walkDir _ (filepath.joinName path (os.Name d1)) d1 r)
      as [r1 err1] eqn:E1.
    destruct (H1 _ _ _ _ E1) as (new1 & X1 & W1 & P1).
    assert (W1' : Forall (fun q => exists n, n ∈ os.Name d1 :: map os.Name rest /\
                                     paths.plainName n /\
                                     paths.within (filepath.joinName path n)
                                                  (scanner.probed q)) new1).
    { eapply Forall_impl; [exact W1|]. intros q Hq. exists (os.Name d1).
      split; [left|]. auto. }
    destruct err1 as [e1|].
    { (* the walk of this entry stops the loop *)
      intros Hres.
      assert (r' = r1) as -> by (destruct (bool_decide _); congruence).
      exists new1. auto. }
    intros Hres. destruct (IH Hrest Hnd Hplain _ _ _ Hres) as (new2 & X2 & W2 & P2).
    exists (new1 ++ new2). split; [eapply extends_trans; eauto|]. split.
    + apply Forall_app. split; [exact W1'|].
      eapply Forall_impl; [exact W2|]. intros q (n & Hn & Hq). exists n.
      split; [right; exact Hn|exact Hq].
    + intros p q Hp Hrepo Hq.
      rewrite Forall_forall in W1, W2.
      apply elem_of_app in Hp, Hq.
      destruct Hp as [Hp|Hp], Hq as [Hq|Hq].
      * apply P1; auto.
      * destruct (W2 _ Hq) as (n & Hn & Hpn & Hwq).
        apply (siblings_apart path (os.Name d1) n); auto.
        intros E. apply Hfresh. rewrite E. exact Hn.
      * destruct (W2 _ Hp) as (n & Hn & Hpn & Hwp).
        apply (siblings_apart path n (os.Name d1)); auto.
        intros E. apply Hfresh. rewrite <- E. exact Hn.
      * apply P2; auto.
Qed.

(** The walk of an entry probes only the entry and what lies beneath it,
    and probes nothing beneath a path at which it found a repository. *)
Lemma walkDir_spec d :
  paths.wellNamed d ->
  forall path r r' err,
    scanner.walkDir (scanner.walkFunc fp ctx) path d r = (r', err) ->
    exists new, paths.extends r r' new /\
                Forall (fun q => paths.within path (scanner.probed q)) new /\
                paths.pruned new.
Proof.
  induction d as [n ino|n t|n info entries IH] using Entry_induction;
    intros Hwn path r r' err; rewrite walkDir_unfold.
  1,2: destruct (scanner.walkFunc fp ctx path _ r) as [r1 err1] eqn:E;
       destruct (walkFunc_Entered _ _ _ _ _ E) as [[X _]|[(bare & X & _)|(bare & X & _)]];
       intros Hres;
       (assert (r' = r1) as -> by (destruct err1; simpl in Hres; congruence));
       eexists; (split; [exact X|]);
       (split; [repeat constructor|first [apply pruned_nil|apply pruned_single]]).
  inversion Hwn as [| |n' info' entries' Hnd Hplain Hsub]; subst.
  destruct (scanner.walkFunc fp ctx path _ r) as [r1 err1] eqn:E.
  destruct (walkFunc_Entered _ _ _ _ _ E) as [[X Hnone]|[(bare & X & ->)|(bare & X & ->)]].
  - (* no probe *)
    destruct err1 as [e1|]; [|specialize (Hnone eq_refl); discriminate].
    intros [= <- _]. exists []. split; [exact X|]. split; [constructor|apply pruned_nil].
  - (* a repository: the walk does not go into it *)
    intros [= <- _]. eexists. split; [exact X|].
    split; [repeat constructor|apply pruned_single].
  - (* no repository: the walk goes on below *)
    destruct (os.ReadDirErr info) as [en|].
    + destruct (scanner.walkFunc fp ctx path (scanner.Failed _ _) r1) as [r2 err2] eqn:E2.
      destruct (walkFunc_Failed _ _ _ _ _ _ E2) as [X2 _].
      intros Hres. assert (r' = r2) as -> by (destruct err2; congruence).
      exists ([scanner.mkProbe path false bare] ++ []).
      split; [eapply extends_trans; eauto|].
      split; [repeat constructor|apply pruned_single].
    + intros Hres.
      assert (Hall : Forall (fun d => forall path r r' err,
                        scanner.walkDir (scanner.walkFunc fp ctx) path d r = (r', err) ->
                        exists new, paths.extends r r' new /\
                          Forall (fun q => paths.within path (scanner.probed q)) new /\
                          paths.pruned new) entries).
      { rewrite Forall_forall in IH, Hsub. apply Forall_forall. intros e He.
        apply IH; auto. }
      destruct (walkEntries_spec path entries Hall Hnd Hplain _ _ _ Hres)
        as (new & X2 & W2 & P2).
      exists ([scanner.mkProbe path false bare] ++ new).
      split; [eapply extends_trans; eauto|].
      rewrite Forall_forall in W2. split.
      * apply Forall_app. split; [repeat constructor|].
        apply Forall_forall. intros q Hq. destruct (W2 _ Hq) as (m & _ & _ & Hw).
        eapply within_join. exact Hw.
      * intros p q Hp Hrepo Hq. apply elem_of_app in Hp, Hq.
        destruct Hp as [Hp|Hp].
        { apply list_elem_of_singleton in Hp. subst p. discriminate. }
        destruct Hq as [Hq|Hq]; [|apply P2; auto].
        apply list_elem_of_singleton in Hq. subst q. simpl.
        destruct (W2 _ Hp) as (m & _ & [Hm _] & Hw).
        eapply parent_not_beneath; eauto.
Qed.

End WalkFacts.

(** ** The scan *)

Section ScanFacts.

Implicit Types (w : scanner.World) (fp : filepath.API) (ctx : scanner.Context).
Implicit Types (opts : scanner.ScanOptions) (r : scanner.Run) (d : os.Entry).

(** The probes of a whole walk are pruned, and the repositories recorded
    are those the probes found. *)
Lemma Scan_walk_spec w fp ctx (absPath : string) :
  (forall d, scanner.LstatRoot w absPath = Ok d -> paths.wellNamed d) ->
  let run := fst (scanner.Scan_walk w fp ctx absPath) in
  map Repository.Path (scanner.repositories (scanner.sc run))
  = paths.matched (scanner.probes run) /\
  paths.pruned (scanner.probes run).
Proof.
  intros Hwn. unfold scanner.Scan_walk, scanner.WalkDir.
  set (r0 := scanner.mkRun _ [] 0).
  destruct (scanner.LstatRoot w absPath) as [d|e].
  - destruct (scanner.walkDir _ absPath d r0) as [r' err] eqn:E.
    destruct (walkDir_spec fp ctx d (Hwn d eq_refl) _ _ _ _ E) as (new & [X1 X2] & _ & P).
    assert (fst (let '(r, err) := (r', err) in
                 match err with
                 | Some e => if bool_decide (e = scanner.fs_SkipDir)
                                || bool_decide (e = scanner.fs_SkipAll)
                             then (r, None) else (r, Some e)
                 | None => (r, None) end) = r') as ->.
    { destruct err as [e|]; [destruct (_ || _)|]; reflexivity. }
    simpl in X1, X2. rewrite X1, X2. auto.
  - destruct (scanner.walkFunc fp ctx absPath _ r0) as [r' err] eqn:E.
    destruct (walkFunc_Failed fp ctx _ _ _ _ _ _ E) as [[X1 X2] _].
    assert (fst (let '(r, err) := (r', err) in
                 match err with
                 | Some e => if bool_decide (e = scanner.fs_SkipDir)
                                || bool_decide (e = scanner.fs_SkipAll)
                             then (r, None) else (r, Some e)
                 | None => (r, None) end) = r') as ->.
    { destruct err as [e'|]; [destruct (_ || _)|]; reflexivity. }
    simpl in X1, X2. rewrite X1, X2. split; [reflexivity|apply pruned_nil].
Qed.

(** A result of [Scan] holds the repositories of its walk. *)
Lemma Scan_result w fp ctx opts (res : ScanResult.t) :
  scanner.Scan w fp ctx opts = (Some res, None) ->
  exists absPath,
    filepath.Abs fp (scanner.RootPath opts) = Ok absPath /\
    ScanResult.RootPath res = absPath /\
    ScanResult.Repositories res
    = scanner.repositories (scanner.sc (fst (scanner.Scan_walk w fp ctx absPath))) /\
    ScanResult.Errors res
    = scanner.errors (scanner.sc (fst (scanner.Scan_walk w fp ctx absPath))).
Proof.
  unfold scanner.Scan.
  destruct (scanner.StatRoot w _) as [isDir|e]; [|discriminate].
  destruct (negb isDir); [discriminate|].
  destruct (filepath.Abs fp _) as [absPath|e]; [|discriminate].
  destruct (scanner.Scan_walk w fp ctx absPath) as [r err] eqn:E.
  destruct (match err with
            | Some e => if negb (errors_Is e context_Canceled) then Some e else None
            | None => None end); [discriminate|].
  intros [= <-]. exists absPath. rewrite E. repeat split; reflexivity.
Qed.

(** C2.  In a file system whose directories list plain names, each one
    once: the repositories of a result of [Scan] are exactly the paths at
    which a call of [IsGitRepository] found a repository, and no path
    strictly beneath the root of one of them is ever handed to
    [IsGitRepository]. *)
Theorem Scan_probes_nothing_beneath_a_repository
    w fp ctx opts (absPath : string) (res : ScanResult.t) :
  filepath.Abs fp (scanner.RootPath opts) = Ok absPath ->
  (forall d, scanner.LstatRoot w absPath = Ok d -> paths.wellNamed d) ->
  scanner.Scan w fp ctx opts = (Some res, None) ->
  map Repository.Path (ScanResult.Repositories res)
  = paths.matched (scanner.probes (fst (scanner.Scan_walk w fp ctx absPath))) /\
  forall (repo : Repository.t) (q : scanner.Probe),
    repo ∈ ScanResult.Repositories res ->
    q ∈ scanner.probes (fst (scanner.Scan_walk w fp ctx absPath)) ->
    ~ paths.strictlyBeneath (Repository.Path repo) (scanner.probed q).
Proof.
  intros Habs Hwn Hscan.
  destruct (Scan_result _ _ _ _ _ Hscan) as (absPath' & Habs' & _ & Hrepos & _).
  assert (absPath' = absPath) as -> by congruence.
  destruct (Scan_walk_spec w fp ctx absPath Hwn) as [Hm Hp].
  rewrite Hrepos. split; [exact Hm|].
  intros repo q Hrepo Hq.
  assert (Hin : Repository.Path repo
                ∈ paths.matched (scanner.probes (fst (scanner.Scan_walk w fp ctx absPath)))).
  { rewrite <- Hm. change (map ?f ?x) with (f <$> x).
    apply list_elem_of_fmap. eauto. }
  unfold paths.matched in Hin. change (map ?f ?x) with (f <$> x) in Hin.
  apply list_elem_of_fmap in Hin. destruct Hin as (p & -> & Hpin).
  apply list_elem_of_filter in Hpin. destruct Hpin as [Hrepo' Hpin].
  apply Hp; auto.
Qed.

Lemma examples_workTree_wellNamed : paths.wellNamed examples.workTree.
Proof.
  unfold examples.workTree, examples.checkout, examples.mirror. well_named.
Qed.

(** C2 on the directory tree of [examples.world], where the checkout
    [app] holds a nested checkout [vendor] that is never probed. *)
Lemma Scan_probes_nothing_beneath_a_repository_witness :
  exists res,
    scanner.Scan examples.world filepath.unix scanner.Background
                 (scanner.mkScanOptions "/work") = (Some res, None) /\
    map Repository.Path (ScanResult.Repositories res)
    = paths.matched (scanner.probes
                       (fst (scanner.Scan_walk examples.world filepath.unix
                                               scanner.Background "/work"))) /\
    forall (repo : Repository.t) (q : scanner.Probe),
      repo ∈ ScanResult.Repositories res ->
      q ∈ scanner.probes (fst (scanner.Scan_walk examples.world filepath.unix
                                                 scanner.Background "/work")) ->
      ~ paths.strictlyBeneath (Repository.Path repo) (scanner.probed q).
Proof.
  destruct (scanner.Scan examples.world filepath.unix scanner.Background
                         (scanner.mkScanOptions "/work")) as [[res|] [e|]] eqn:E;
    try (exfalso; vm_compute in E; discriminate).
  exists res. split; [reflexivity|].
  apply (Scan_probes_nothing_beneath_a_repository
           examples.world filepath.unix scanner.Background
           (scanner.mkScanOptions "/work") "/work" res).
  - reflexivity.
  - intros d [= <-]. exact examples_workTree_wellNamed.
  - exact E.
Defined.

(** The paths probed in [examples.world]: nothing below [app], [core] or
    [tool.git], and nothing behind the symbolic link. *)
Example probes_of_the_example :
  map scanner.probed
      (scanner.probes (fst (scanner.Scan_walk examples.world filepath.unix
                                              scanner.Background "/work")))
  = ["/work"; "/work/app"; "/work/libs"; "/work/libs/core"; "/work/libs/tool.git";
     "/work/private"].
Proof. vm_compute. reflexivity. Qed.

End ScanFacts.

Section ScanErrors.

Variables (fp : filepath.API) (ctx : scanner.Context).

Implicit Types (r : scanner.Run) (d : os.Entry) (path : string).

(** What a first visit answers: nothing, the order to skip a directory,
    or the error of a context that is done. *)
Lemma walkFunc_Entered_answer path d r r' (err : option error) :
  scanner.walkFunc fp ctx path (scanner.Entered d) r = (r', err) ->
  err = None \/
  (err = Some scanner.fs_SkipDir /\ os.IsDir d = true) \/
  (err = Some (scanner.cause ctx) /\ scanner.firesAt ctx <> None).
Proof.
  unfold scanner.walkFunc, scanner.ctx_Err.
  destruct (scanner.firesAt ctx) as [k|].
  - destruct (k <=? scanner.calls r)%nat.
    { intros [= _ <-]. right. right. split; [reflexivity|discriminate]. }
    destruct (os.IsDir d); simpl; [|intros [= _ <-]; auto].
    destruct (scanner.shouldVisit path d _) as [s [[visit isSymlink] [e|]]];
      destruct visit; try (intros [= _ <-]; auto).
    destruct (scanner.IsGitRepository path d) as [[|] bare]; intros [= _ <-]; auto.
  - destruct (os.IsDir d); simpl; [|intros [= _ <-]; auto].
    destruct (scanner.shouldVisit path d _) as [s [[visit isSymlink] [e|]]];
      destruct visit; try (intros [= _ <-]; auto).
    destruct (scanner.IsGitRepository path d) as [[|] bare]; intros [= _ <-]; auto.
Qed.

(** What the report of a refused permission answers. *)
Lemma walkFunc_denied_answer path (d : option os.Entry) (e : error) r r'
    (err : option error) :
  os_IsPermission e = true ->
  scanner.walkFunc fp ctx path (scanner.Failed d e) r = (r', err) ->
  err = Some scanner.fs_SkipDir \/
  (err = Some (scanner.cause ctx) /\ scanner.firesAt ctx <> None).
Proof.
  intros Hperm. unfold scanner.walkFunc, scanner.ctx_Err. rewrite Hperm.
  destruct (scanner.firesAt ctx) as [k|].
  - destruct (k <=? scanner.calls r)%nat; intros [= _ <-]; auto.
  - intros [= _ <-]. auto.
Qed.

(** The report of a refused permission leaves a diagnostic, unless the
    context is done. *)
Lemma walkFunc_denied_records path (d : option os.Entry) (e : error) r :
  os_IsPermission e = true ->
  scanner.ctx_Err ctx (scanner.calls r) = None ->
  scanner.errors (scanner.sc (fst (scanner.walkFunc fp ctx path (scanner.Failed d e) r)))
  = scanner.errors (scanner.sc r)
    ++ [Errorf ("permission denied: " +:+ path +:+ ": permission denied")
               scanner.errPermissionDenied].
Proof.
  intros Hperm Hctx. unfold scanner.walkFunc. rewrite Hctx, Hperm. reflexivity.
Qed.

Lemma walkEntries_answer path (entries : list os.Entry) :
  Forall (fun d => forall path r r' err,
            scanner.walkDir (scanner.walkFunc fp ctx) path d r = (r', err) ->
            err = None \/
            (err = Some (scanner.cause ctx) /\ scanner.firesAt ctx <> None)) entries ->
  forall r r' err,
    scanner.walkEntries (scanner.walkFunc fp ctx) path entries r = (r', err) ->
    err = None \/ (err = Some (scanner.cause ctx) /\ scanner.firesAt ctx <> None).
Proof.
  induction entries as [|d1 rest IH]; intros Hall r r' err; simpl.
  - intros [= _ <-]. auto.
  - apply Forall_cons in Hall. destruct Hall as [H1 Hrest].
    destruct (scanner.walkDir _ (filepath.joinName path (os.Name d1)) d1 r)
      as [r1 err1] eqn:E1.
    destruct (H1 _ _ _ _ E1) as [->|[-> Hf]].
    + apply IH. exact Hrest.
    + destruct (bool_decide _); intros [= _ <-]; auto.
Qed.

(** A walk that meets no failure but refused permissions ends without an
    error, or with the error of a context that is done. *)
Lemma walkDir_answer d :
  paths.onlyPermissionDenied d ->
  forall path r r' err,
    scanner.walkDir (scanner.walkFunc fp ctx) path d r = (r', err) ->
    err = None \/ (err = Some (scanner.cause ctx) /\ scanner.firesAt ctx <> None).
Proof.
  induction d as [n ino|n t|n info entries IH] using Entry_induction;
    intros Hpd path r r' err; rewrite walkDir_unfold;
    destruct (scanner.walkFunc fp ctx path (scanner.Entered _) r) as [r1 err1] eqn:E;
    destruct (walkFunc_Entered_answer _ _ _ _ _ E) as [->|[[-> Hdir]|[-> Hf]]];
    try discriminate Hdir;
    try (intros [= _ <-]; auto; fail);
    try (destruct (bool_decide _ && _); intros [= _ <-]; auto; fail).
  inversion Hpd as [| |n' info' entries' Hread Hsub]; subst.
  destruct (os.ReadDirErr info) as [en|] eqn:Een.
  - assert (Hperm : os_IsPermission (PathError "open" path en) = true).
    { destruct Hread as [H|[H|H]]; try discriminate; injection H as ->; reflexivity. }
    destruct (scanner.walkFunc fp ctx path (scanner.Failed _ _) r1) as [r2 err2] eqn:E2.
    destruct (walkFunc_denied_answer _ _ _ _ _ _ Hperm E2) as [->|[-> Hf]].
    + simpl. intros [= _ <-]. auto.
    + destruct (bool_decide _ && _); intros [= _ <-]; auto.
  - apply walkEntries_answer.
    rewrite Forall_forall in IH, Hsub. apply Forall_forall. intros e He.
    apply IH; auto.
Qed.

End ScanErrors.

Section ScanClaim.

Implicit Types (w : scanner.World) (fp : filepath.API) (ctx : scanner.Context).
Implicit Types (opts : scanner.ScanOptions).

Lemma Scan_walk_answer w fp ctx (absPath : string) d :
  scanner.LstatRoot w absPath = Ok d ->
  paths.onlyPermissionDenied d ->
  scanner.firesAt ctx = None \/ scanner.cause ctx = context_Canceled ->
  snd (scanner.Scan_walk w fp ctx absPath) = None \/
  snd (scanner.Scan_walk w fp ctx absPath) = Some context_Canceled.
Proof.
  intros Hl Hpd Hctx. unfold scanner.Scan_walk, scanner.WalkDir. rewrite Hl.
  destruct (scanner.walkDir _ absPath d _) as [r' err] eqn:E.
  destruct (walkDir_answer fp ctx d Hpd _ _ _ _ E) as [->|[-> Hf]]; [auto|].
  destruct Hctx as [Hn|Hc]; [congruence|]. rewrite Hc.
  right. reflexivity.
Qed.

(** C6, as the code has it.  [Scan] returns an error and no result when
    the root path cannot be examined and when it is no directory.  A
    relative path is no failure: it is made absolute.  On a root that is
    a directory, with an absolute path for it, a tree below it in which
    nothing fails but for want of permission, and a context that is
    never done or is done by cancellation, [Scan] returns a result for the
    absolute path and no error, whatever diagnostics the walk recorded. *)
Theorem Scan_fails_without_a_directory_only w fp ctx opts :
  (forall e, scanner.StatRoot w (scanner.RootPath opts) = Err e ->
             exists err, scanner.Scan w fp ctx opts = (None, Some err)) /\
  (scanner.StatRoot w (scanner.RootPath opts) = Ok false ->
   exists err, scanner.Scan w fp ctx opts = (None, Some err)) /\
  (forall (absPath : string) (d : os.Entry),
      scanner.StatRoot w (scanner.RootPath opts) = Ok true ->
      filepath.Abs fp (scanner.RootPath opts) = Ok absPath ->
      scanner.LstatRoot w absPath = Ok d ->
      paths.onlyPermissionDenied d ->
      scanner.firesAt ctx = None \/ scanner.cause ctx = context_Canceled ->
      exists res,
        scanner.Scan w fp ctx opts = (Some res, None) /\
        ScanResult.RootPath res = absPath /\
        ScanResult.Errors res
        = scanner.errors (scanner.sc (fst (scanner.Scan_walk w fp ctx absPath)))).
Proof.
  split; [|split].
  - intros e H. unfold scanner.Scan. rewrite H. eauto.
  - intros H. unfold scanner.Scan. rewrite H. simpl. eauto.
  - intros absPath d Hstat Habs Hl Hpd Hctx.
    pose proof (Scan_walk_answer w fp ctx absPath d Hl Hpd Hctx) as Hans.
    unfold scanner.Scan. rewrite Hstat, Habs. simpl.
    destruct (scanner.Scan_walk w fp ctx absPath) as [r err]. simpl in Hans.
    destruct Hans as [-> | ->]; eexists; (split; [reflexivity|]); split; reflexivity.
Qed.

Lemma examples_workTree_onlyPermissionDenied : paths.onlyPermissionDenied examples.workTree.
Proof.
  unfold examples.workTree, examples.checkout, examples.mirror. well_named.
Qed.

(** C6 at concrete inputs: a path that does not exist, a path to a file,
    and the directory [/work], whose scan records the refusal to read
    [/work/private] and succeeds. *)
Lemma Scan_fails_without_a_directory_only_witness :
  (exists err, scanner.Scan examples.world filepath.unix scanner.Background
                            (scanner.mkScanOptions "/nowhere") = (None, Some err)) /\
  (exists err, scanner.Scan examples.world filepath.unix scanner.Background
                            (scanner.mkScanOptions "/work/notes.txt") = (None, Some err)) /\
  (exists res,
      scanner.Scan examples.world filepath.unix scanner.Background
                   (scanner.mkScanOptions "/work") = (Some res, None) /\
      ScanResult.RootPath res = "/work" /\
      map Error (ScanResult.Errors res)
      = ["permission denied: /work/private: permission denied"]).
Proof.
  split; [|split].
  - destruct (Scan_fails_without_a_directory_only
                examples.world filepath.unix scanner.Background
                (scanner.mkScanOptions "/nowhere")) as (A & _ & _).
    eapply A. reflexivity.
  - destruct (Scan_fails_without_a_directory_only
                examples.world filepath.unix scanner.Background
                (scanner.mkScanOptions "/work/notes.txt")) as (_ & B & _).
    apply B. reflexivity.
  - destruct (Scan_fails_without_a_directory_only
                examples.world filepath.unix scanner.Background
                (scanner.mkScanOptions "/work")) as (_ & _ & C).
    destruct (C "/work" examples.workTree) as (res & E & Hroot & Herr).
    + reflexivity.
    + reflexivity.
    + reflexivity.
    + exact examples_workTree_onlyPermissionDenied.
    + left. reflexivity.
    + exists res. split; [exact E|]. split; [exact Hroot|].
      rewrite Herr. vm_compute. reflexivity.
Defined.

(** C6 as stated fails: the root path [projects] is not absolute, and
    [Scan] returns a result for it and no error. *)
Lemma Scan_accepts_a_relative_root :
  filepath_IsAbs "projects" = false /\
  exists res,
    scanner.Scan examples.world filepath.unix scanner.Background
                 (scanner.mkScanOptions "projects") = (Some res, None) /\
    ScanResult.RootPath res = "/work/projects".
Proof.
  split; [reflexivity|].
  destruct (scanner.Scan examples.world filepath.unix scanner.Background
                         (scanner.mkScanOptions "projects")) as [[res|] [e|]] eqn:E;
    try (exfalso; vm_compute in E; discriminate).
  exists res. split; [reflexivity|].
  vm_compute in E. injection E as <-. reflexivity.
Qed.

End ScanClaim.

(** * [ExtractBatch]: every path answered, the workers within the limit *)

Import batch.

Section Totals.

Variable f : Worker -> nat.

Lemma total_empty : total f ∅ = 0%nat.
Proof. apply map_fold_empty. Qed.

Lemma total_fresh (m : gmap string Worker) p w :
  m !! p = None -> total f (<[p := w]> m) = (f w + total f m)%nat.
Proof.
  intros H. unfold total.
  rewrite map_fold_insert_L; [reflexivity| |exact H].
  intros. lia.
Qed.

Lemma total_delete (m : gmap string Worker) p w :
  m !! p = Some w -> total f m = (f w + total f (delete p m))%nat.
Proof.
  intros H. unfold total.
  rewrite (map_fold_delete_L _ _ p w m); [reflexivity| |exact H].
  intros. lia.
Qed.

Lemma total_update (m : gmap string Worker) p w w' :
  m !! p = Some w -> (total f (<[p := w']> m) + f w = total f m + f w')%nat.
Proof.
  intros H.
  rewrite (total_delete m p w H).
  rewrite <- (insert_delete_eq m p w').
  rewrite total_fresh by apply lookup_delete_eq.
  lia.
Qed.

Lemma total_insert_le (m : gmap string Worker) p w :
  (total f (<[p := w]> m) <= f w + total f m)%nat.
Proof.
  destruct (m !! p) as [w0|] eqn:E.
  - pose proof (total_update m p w0 w E). lia.
  - rewrite total_fresh by exact E. lia.
Qed.

Lemma total_lookup (m : gmap string Worker) p w :
  m !! p = Some w -> (f w <= total f m)%nat.
Proof. intros H. rewrite (total_delete m p w H). lia. Qed.

Lemma total_positive (m : gmap string Worker) :
  (0 < total f m)%nat -> exists p w, m !! p = Some w /\ (0 < f w)%nat.
Proof.
  induction m as [|p w m Hp IH] using map_ind.
  - rewrite total_empty. lia.
  - rewrite total_fresh by exact Hp. intros H.
    destruct (decide (0 < f w)%nat) as [Hw|Hw].
    + exists p, w. rewrite lookup_insert_eq. auto.
    + destruct IH as (q & v & Hq & Hv); [lia|].
      exists q, v. split; [|exact Hv].
      rewrite lookup_insert_ne; [exact Hq|]. intros ->. congruence.
Qed.

End Totals.


(** Reads the fields of a state that is written out. *)
Ltac fields :=
  cbn [unlaunched workers semaphore results closed statuses main cancelled extracting
       with_worker] in *.

Section Batch.

Variable c : Call.
Hypothesis limit_natural : 0 <= limit c.

Lemma init_invariant : invariant c (init c).
Proof.
  unfold init. destruct (decide (size (repos c) = 0%nat)) as [E|E].
  - apply map_size_empty_inv in E.
    split; fields; rewrite ?E, ?dom_empty_L, ?total_empty, ?size_empty; try done;
      first [simpl; lia | intros r Hr; inversion Hr].
  - destruct (Z.ltb_spec (limit c) 0) as [Hneg|_]; [lia|].
    split; fields; rewrite ?total_empty, ?dom_empty_L; try done;
      first [lia | unfold capacity; rewrite size_dom; simpl; lia
            | intros r Hr; inversion Hr | apply union_empty_r_L].
Qed.

Lemma not_all_finished (m : gmap string Worker) p w :
  m !! p = Some w -> w <> Finished -> ~ map_Forall (fun _ w => w = Finished) m.
Proof. intros H Hw Hall. apply Hw. exact (Hall p w H). Qed.

Lemma answered_sent st rs r p : answered st rs p -> answered st (rs ++ [r]) p.
Proof.
  intros [H|(r0 & Hr0 & H)]; [left; exact H|].
  right. exists r0. split; [|exact H]. apply elem_of_app. left. exact Hr0.
Qed.

Lemma answered_stored st r rest p :
  answered st (r :: rest) p -> answered (store r st) rest p.
Proof.
  unfold store. intros [H|(r0 & Hr0 & Hp & Hs)].
  - left. destruct (status r); [|exact H].
    rewrite dom_insert_L. apply elem_of_union. right. exact H.
  - apply elem_of_cons in Hr0. destruct Hr0 as [->|Hr0].
    + left. destruct Hs as [v Hv]. rewrite Hv, dom_insert_L.
      apply elem_of_union. left. apply elem_of_singleton. symmetry. exact Hp.
    + right. exists r0. auto.
Qed.

Lemma result_has_status p tm :
  is_Some (status (resultOf p (gitstatus.Extract tm (opened c p)
                                 (Some (gitstatus.orDefault (opts c))) (ignorePatterns c)))).
Proof.
  destruct (Extract_never_nil tm (opened c p) (Some (gitstatus.orDefault (opts c)))
              (ignorePatterns c)) as [st H].
  exists st. exact H.
Qed.

(** The two sums after a worker has moved. *)
Ltac totals :=
  match goal with
  | H : workers ?s !! ?p = Some ?w |- context [<[?p := ?w']> (workers ?s)] =>
      pose proof (total_update holds _ _ _ w' H);
      pose proof (total_update pending _ _ _ w' H)
  end; cbn [holds pending] in *.

Lemma covered_moved (m : gmap string Worker) st rs p w' :
  (forall q v, m !! q = Some v -> pending v = 0%nat -> answered st rs q) ->
  (pending w' = 0%nat -> answered st rs p) ->
  forall q v, <[p := w']> m !! q = Some v -> pending v = 0%nat -> answered st rs q.
Proof.
  intros Hm Hp q v Hq Hv. destruct (decide (q = p)) as [->|Hne].
  - rewrite lookup_insert_eq in Hq. injection Hq as <-. auto.
  - rewrite lookup_insert_ne in Hq by congruence. eauto.
Qed.

Lemma awaited_moved (m : gmap string Worker) (X : gset string) p w w' :
  m !! p = Some w -> (w = Running -> p ∉ X) ->
  (forall q, q ∈ X -> m !! q = Some Running) ->
  forall q, q ∈ X -> <[p := w']> m !! q = Some Running.
Proof.
  intros Hp Hout HX q Hq. destruct (decide (q = p)) as [->|Hne].
  - exfalso. apply Hout; [|exact Hq]. specialize (HX p Hq). congruence.
  - rewrite lookup_insert_ne by congruence. auto.
Qed.

(** With the context not done and no deadline, the [select] of [Extract]
    has its result to take. *)
Lemma ready_awaited s p tm :
  ready c s p tm -> cancelled s = false -> timeout c <= 0 -> p ∉ extracting s.
Proof.
  unfold ready. destruct (gitstatus.ctxCase _ tm) as [cause|]; [|auto].
  intros [H|[H _]] Hc Ht; [congruence|lia].
Qed.

Ltac worker_moved :=
  match goal with
  | H : workers ?s !! ?p = Some ?w |- cancelled ?s = false -> timeout _ <= 0 -> _ =>
      let Hn := fresh "Hn" in let Ht := fresh "Ht" in
      intros Hn Ht; eapply awaited_moved; [exact H|discriminate|eauto]
  | H : workers ?s !! ?p = Some ?w |- forall q, q ∈ unlaunched ?s -> _ =>
      let q := fresh "q" in let Hq := fresh "Hq" in
      intros q Hq; rewrite lookup_insert_ne; [auto|];
      intros ->; match goal with F : forall p, _ -> workers s !! p = None |- _ =>
                   specialize (F _ Hq); congruence end
  | H : workers ?s !! ?p = Some ?w |- context [dom (<[?p := _]> (workers ?s))] =>
      rewrite dom_insert_lookup_L by (eexists; exact H); assumption
  | H : workers ?s !! ?p = Some ?w |- _ -> _ /\ _ =>
      let Hx := fresh "Hx" in
      intros Hx; exfalso; eapply not_all_finished; [exact H|discriminate|tauto]
  | H : workers ?s !! ?p = Some ?w |- cancelled ?s = false -> _ =>
      let Hn := fresh "Hn" in
      intros Hn; try congruence; apply covered_moved; [eauto|];
      first [discriminate | intros _; eapply covered; eauto; reflexivity]
  | |- _ => totals; rewrite ?length_app; simpl; lia
  end.

Ltac preserved Inv :=
  let I := fresh "I" in
  pose proof Inv as I; destruct Inv; split; fields;
  try assumption; try congruence; try lia; try solve [worker_moved].

Lemma advance_invariant s s' : invariant c s -> advance c s s' -> invariant c s'.
Proof.
  intros Inv Hadv. destruct Hadv.
  - (* launch *)
    assert (Hnew : workers s !! p = None) by (apply (fresh _ _ Inv); assumption).
    preserved Inv.
    + intros q Hq. apply elem_of_difference in Hq. destruct Hq as [Hq Hne].
      rewrite lookup_insert_ne; [auto|].
      intros ->. apply Hne. apply elem_of_singleton. reflexivity.
    + rewrite dom_insert_L, <- everyPath0.
      apply set_eq. intros q.
      rewrite !elem_of_union, elem_of_difference, elem_of_singleton.
      destruct (decide (q = p)) as [->|Hne]; tauto.
    + intros Hx. destruct (afterClose0 Hx). congruence.
    + rewrite total_fresh by exact Hnew. simpl. lia.
    + rewrite total_fresh by exact Hnew.
      assert (Hp : ({[p]} : gset string) ⊆ unlaunched s)
        by (apply singleton_subseteq_l; assumption).
      rewrite size_difference by exact Hp.
      apply subseteq_size in Hp. rewrite size_singleton in *. simpl. lia.
    + intros Hn. apply covered_moved; [eauto|discriminate].
    + intros Hn Ht q Hq. rewrite lookup_insert_ne; [auto|].
      intros ->. specialize (awaited0 Hn Ht _ Hq). congruence.
  - (* launched *) preserved Inv.
    intros Hx. destruct (afterClose0 Hx). congruence.
  - (* look *) destruct (cancelled s) eqn:Hc; preserved Inv.
  - (* acquire *) preserved Inv.
  - (* enter *) preserved Inv.
    intros Hn Ht q Hq. apply elem_of_union in Hq. destruct Hq as [Hq|Hq].
    + destruct (decide (q = p)) as [->|Hne]; [apply lookup_insert_eq|].
      rewrite lookup_insert_ne by congruence. auto.
    + apply elem_of_singleton in Hq. subst q. apply lookup_insert_eq.
  - (* complete *) preserved Inv.
    intros Hn Ht q Hq. apply elem_of_difference in Hq. destruct Hq as [Hq _]. auto.
  - (* giveUp *) preserved Inv.
  - (* deliver *)
    pose proof (ready_awaited _ _ _ H0) as Hnot.
    preserved Inv.
    + intros r Hr. apply elem_of_app in Hr. destruct Hr as [Hr|Hr]; [auto|].
      apply list_elem_of_singleton in Hr. subst r. simpl.
      rewrite <- everyPath0. apply elem_of_union. right.
      apply elem_of_dom. eexists. eassumption.
    + intros Hn. apply covered_moved.
      * intros q v Hq Hv. apply answered_sent. eauto.
      * intros _. right. eexists. split.
        -- apply elem_of_app. right. apply list_elem_of_singleton. reflexivity.
        -- split; [reflexivity|apply result_has_status].
    + intros r Hr. apply elem_of_app in Hr. destruct Hr as [Hr|Hr]; [auto|].
      apply list_elem_of_singleton in Hr. subst r. simpl.
      exists tm. apply surjective_pairing.
    + intros Hn Ht. eapply awaited_moved; [eassumption|auto|auto].
  - (* release *) preserved Inv.
  - (* done *) preserved Inv.
  - (* close *) preserved Inv.
    intros _. split; [assumption|congruence].
  - (* collect *)
    assert (Hr : r ∈ results s) by (rewrite H0; apply elem_of_cons; left; reflexivity).
    assert (Hrest : forall r0, r0 ∈ rest -> r0 ∈ results s)
      by (intros r0 Hr0; rewrite H0; apply elem_of_cons; right; exact Hr0).
    preserved Inv.
    + rewrite H0 in room0. simpl in room0. lia.
    + unfold store. destruct (status r); [|assumption].
      rewrite dom_insert_L. apply union_least; [|assumption].
      apply singleton_subseteq_l. auto.
    + auto.
    + intros Hn q v Hq Hv. apply answered_stored. rewrite <- H0. eauto.
    + auto.
    + intros q st Hq. unfold store in Hq. destruct (status r) eqn:Es; [|eauto].
      destruct (decide (q = path r)) as [->|Hne].
      * rewrite lookup_insert_eq in Hq. injection Hq as <-.
        exists (err r). rewrite <- Es. auto.
      * rewrite lookup_insert_ne in Hq by congruence. eauto.
  - (* finish *) preserved Inv.
    + intros _. apply loopOver0. congruence.
    + intros _. split; [assumption|]. apply afterClose0. assumption.
    + intros Hx. split; [|discriminate]. apply afterClose0. assumption.
Qed.

Lemma step_invariant s s' : invariant c s -> step c s s' -> invariant c s'.
Proof.
  intros Inv Hstep. destruct Hstep as [s s' Hadv|s Hc].
  - eapply advance_invariant; eassumption.
  - destruct Inv; split; fields; try assumption; discriminate.
Qed.

Lemma reachable_sound s : reachable c s -> invariant c s.
Proof.
  unfold reachable. intros H.
  refine (rtc_ind_r (invariant c) (init c) init_invariant _ s H).
  intros s1 s2 _ Hstep Inv. eapply step_invariant; eassumption.
Qed.




(** Back from the call with the context never done, the map has the
    paths of [repos], all of them. *)
Lemma returned_complete s :
  invariant c s -> main s = Returned -> cancelled s = false ->
  dom (statuses s) = dom (repos c).
Proof.
  intros Inv Hm Hc. apply set_eq. intros p. split.
  - apply (knownStatuses _ _ Inv).
  - intros Hp. rewrite <- (everyPath _ _ Inv), (loopOver _ _ Inv) in Hp by congruence.
    apply elem_of_union in Hp. destruct Hp as [Hp|Hp]; [apply elem_of_empty in Hp; contradiction|].
    apply elem_of_dom in Hp. destruct Hp as [w Hw].
    destruct (atReturn _ _ Inv Hm) as [Hres Hall].
    pose proof (Hall p w Hw) as Hfin. simpl in Hfin. subst w.
    destruct (covered _ _ Inv Hc p Finished Hw eq_refl) as [H|(r & Hr & _)]; [exact H|].
    rewrite Hres in Hr. inversion Hr.
Qed.

(** A timing with which the worker goroutine delivers first, and one with
    which the deadline of [Extract] comes first. *)
Lemma ctxCase_worker_first (o : gitstatus.ExtractOptions) :
  gitstatus.ctxCase o (gitstatus.mkTiming 0 None true) = None.
Proof.
  unfold gitstatus.ctxCase, gitstatus.doneAt. cbn [gitstatus.parentDone gitstatus.delivered
    gitstatus.workerOnTie].
  destruct (Z.gtb_spec (gitstatus.Timeout o) 0) as [H|H]; [|reflexivity].
  destruct (Z.ltb_spec (gitstatus.Timeout o) 0); [lia|].
  destruct (Z.eqb_spec (gitstatus.Timeout o) 0); [lia|]. reflexivity.
Qed.

Lemma ctxCase_deadline_first (o : gitstatus.ExtractOptions) :
  0 < gitstatus.Timeout o ->
  gitstatus.ctxCase o (gitstatus.mkTiming (gitstatus.Timeout o + 1) None false)
  = Some context_DeadlineExceeded.
Proof.
  intros H. unfold gitstatus.ctxCase, gitstatus.doneAt. cbn [gitstatus.parentDone
    gitstatus.delivered gitstatus.workerOnTie].
  destruct (Z.gtb_spec (gitstatus.Timeout o) 0); [|lia].
  destruct (Z.ltb_spec (gitstatus.Timeout o) (gitstatus.Timeout o + 1)); [|lia].
  reflexivity.
Qed.

(** A worker inside [Extract] is not stuck there when every extraction
    comes to an end: the goroutine of [Extract] comes back, or the
    deadline passes; and the results channel has room for one result from
    each path. *)
Lemma running_delivers s p :
  ends c -> invariant c s -> workers s !! p = Some Running -> exists s', advance c s s'.
Proof.
  clear limit_natural. intros Hends Inv Hp.
  assert (Hroom : (length (results s) < capacity c)%nat).
  { pose proof (room _ _ Inv). pose proof (total_lookup pending _ _ _ Hp) as Hle.
    simpl in Hle. lia. }
  destruct (decide (p ∈ extracting s)) as [Hin|Hout].
  - destruct Hends as [Ht|Hnone].
    + eexists.
      apply (deliver c s p (gitstatus.mkTiming (timeout c + 1) None false) Hp); [|exact Hroom].
      unfold ready, timeout. rewrite ctxCase_deadline_first by exact Ht.
      right. split; [exact Ht|reflexivity].
    + eexists. apply (complete c s p Hin). apply Hnone.
      rewrite <- (everyPath _ _ Inv). apply elem_of_union. right.
      apply elem_of_dom. eexists. exact Hp.
  - eexists. apply (deliver c s p (gitstatus.mkTiming 0 None true) Hp); [|exact Hroom].
    unfold ready. rewrite ctxCase_worker_first. exact Hout.
Qed.

(** While the call has not returned, some goroutine can move. *)
Lemma never_stuck s :
  0 < limit c -> ends c -> invariant c s -> main s <> Returned -> exists s', advance c s s'.
Proof.
  clear limit_natural. intros Hlimit Hends Inv Hne. pose proof (noPanic _ _ Inv) as Hnp.
  destruct (main s) eqn:Hm; [| |congruence|congruence].
  - destruct (decide (unlaunched s = ∅)) as [He|He].
    + eexists. apply launched; assumption.
    + apply set_choose_L in He. destruct He as [p Hp].
      eexists. apply (launch c s p); assumption.
  - destruct (results s) as [|r rest] eqn:Hr; [|eexists; eapply collect; eassumption].
    destruct (closed s) eqn:Hcl; [eexists; apply finish; assumption|].
    destruct (decide (map_Forall (fun (_ : string) w => w = Finished) (workers s)))
      as [Hall|Hnot]; [eexists; apply close; assumption|].
    apply map_not_Forall in Hnot; [|intros; apply _].
    destruct Hnot as (p & w & Hp & Hw). destruct w.
    + eexists. apply (look c s p Hp).
    + destruct (cancelled s) eqn:Hc; [eexists; apply (giveUp c s p Hp Hc)|].
      destruct (decide (Z.of_nat (semaphore s) < limit c)) as [Hfree|Hfull];
        [eexists; apply (acquire c s p Hp Hfree)|].
      destruct (total_positive holds (workers s)) as (q & v & Hq & Hv).
      { rewrite <- (tokens _ _ Inv). lia. }
      destruct v; simpl in Hv; try lia.
      * eexists. apply (enter c s q Hq).
      * eapply running_delivers; eassumption.
      * eexists. apply (release c s q Hq).
    + eexists. apply (enter c s p Hp).
    + eapply running_delivers; eassumption.
    + eexists. apply (release c s p Hp).
    + eexists. apply (done c s p Hp).
    + congruence.
Qed.

End Batch.

Lemma reachable_invariant c : 0 < limit c -> forall s, reachable c s -> invariant c s.
Proof. intros H. apply reachable_sound. lia. Qed.

(** Every move uses up some of the moves left. *)
Lemma advance_decreases c s s' : advance c s s' -> (movesLeft s' < movesLeft s)%nat.
Proof.
  intros Hadv. destruct Hadv; unfold movesLeft; fields;
    try (match goal with
         | H : workers ?s !! ?p = Some ?w |- context [<[?p := ?w']> (workers ?s)] =>
             pose proof (total_update ahead _ _ _ w' H)
         end; cbn [ahead] in *);
    repeat match goal with H : _ = _ |- _ => rewrite H end;
    rewrite ?length_app; simpl length; try lia.
  - pose proof (total_insert_le ahead (workers s) p Spawned).
    assert (Hp : ({[p]} : gset string) ⊆ unlaunched s)
      by (apply singleton_subseteq_l; assumption).
    rewrite size_difference by exact Hp.
    apply subseteq_size in Hp. rewrite size_singleton in *. simpl in *. lia.
  - destruct (cancelled s); simpl in *; lia.
  - rewrite size_union_alt.
    assert (Hle : (size (({[p]} : gset string) ∖ extracting s) <= 1)%nat).
    { rewrite <- (size_singleton (C := gset string) p). apply subseteq_size.
      apply subseteq_difference_l. reflexivity. }
    lia.
  - assert (Hp : ({[p]} : gset string) ⊆ extracting s)
      by (apply singleton_subseteq_l; assumption).
    rewrite size_difference by exact Hp.
    apply subseteq_size in Hp. rewrite size_singleton in *. lia.
Qed.

Lemma advance_keeps_cancelled c s s' : advance c s s' -> cancelled s' = cancelled s.
Proof. intros Hadv. destruct Hadv; reflexivity. Qed.

(** Left to themselves the goroutines bring the call to its return. *)
Lemma runs_to_return c s :
  0 < limit c -> ends c -> reachable c s ->
  exists s', rtc (advance c) s s' /\ main s' = Returned.
Proof.
  intros Hlimit Hends. remember (movesLeft s) as n eqn:En.
  revert s En. induction n as [n IH] using lt_wf_ind. intros s En Hs.
  destruct (decide (main s = Returned)) as [Hm|Hm].
  - exists s. split; [apply rtc_refl|exact Hm].
  - destruct (never_stuck c s Hlimit Hends (reachable_invariant c Hlimit s Hs) Hm) as [s1 H1].
    destruct (IH (movesLeft s1)) with (s := s1) as (s' & Hrun & Hret).
    + subst n. apply advance_decreases with (c := c). exact H1.
    + reflexivity.
    + eapply rtc_r; [exact Hs|]. apply moves. exact H1.
    + exists s'. split; [|exact Hret]. eapply rtc_l; eassumption.
Qed.

(** With a context that is not done, some run returns a map with every
    path in it. *)
Lemma ExtractBatch_returns c :
  0 < limit c -> ends c -> doneAtStart c = false ->
  exists s, reachable c s /\ main s = Returned /\ cancelled s = false
            /\ dom (statuses s) = dom (repos c).
Proof.
  intros Hlimit Hends Hstart.
  destruct (runs_to_return c (init c) Hlimit Hends (rtc_refl _ _)) as (s & Hrun & Hret).
  assert (Hs : reachable c s).
  { unfold reachable. eapply rtc_subrel; [|exact Hrun]. intros x y. apply moves. }
  assert (Hc : cancelled s = false).
  { transitivity (cancelled (init c)).
    - clear Hs Hret. induction Hrun as [|x y z Hxy _ IH]; [reflexivity|].
      rewrite IH. eapply advance_keeps_cancelled. exact Hxy.
    - unfold init. destruct (decide _); [exact Hstart|].
      destruct (limit c <? 0); exact Hstart. }
  exists s. repeat split; try assumption.
  apply (returned_complete c); [apply reachable_invariant| |]; assumption.
Qed.


(** ** Without a slot in the semaphore *)











(** * Further properties *)

(** ** Status extraction: what a status can look like *)

Section StatusShape.

Implicit Types (repo : git.Repository) (status st : GitStatus.t).
Implicit Types (opts : gitstatus.ExtractOptions) (tm : gitstatus.Timing).

Lemma count_bounds (m : gmap git.Hash bool) (l : list git.Commit) :
  Z.of_nat (length l) <= maxInt ->
  0 <= fold_left (fun (count : int) c =>
                    if negb (default false (m !! git.Commit_Hash c))
                    then incr count else count) l 0.
Proof.
  intros H. rewrite count_loop by lia. lia.
Qed.

Lemma countCommitsBetween_nonneg repo (from to : git.Commit) :
  contract.logsFit repo -> 0 <= fst (gitstatus.countCommitsBetween repo from to).
Proof.
  intros Hfit. unfold gitstatus.countCommitsBetween.
  destruct (git.Log repo (git.Commit_Hash to)) as [toIter|e]; [|simpl; lia].
  unfold git.ForEach. destruct (git.failure toIter); [simpl; lia|].
  destruct (git.Log repo (git.Commit_Hash from)) as [fromIter|e] eqn:E; [|simpl; lia].
  destruct (git.failure fromIter); [simpl; lia|]. simpl.
  apply count_bounds. eapply Hfit. exact E.
Qed.

(** The fields that [Validate] reads besides [HasRemote]. *)
#[local] Abbreviation view st :=
  (GitStatus.Branch st, GitStatus.IsDetached st, GitStatus.Ahead st, GitStatus.Behind st).

#[local] Abbreviation counted st := (0 <= GitStatus.Ahead st /\ 0 <= GitStatus.Behind st).

Lemma extractRemote_view repo status :
  view (fst (gitstatus.extractRemote repo status)) = view status.
Proof.
  unfold gitstatus.extractRemote.
  destruct (git.Remotes repo) as [rs|e]; [destruct (_ >? _)|]; reflexivity.
Qed.

Lemma noteError_view (err : error) status :
  view (gitstatus.noteError err status) = view status.
Proof. unfold gitstatus.noteError. destruct (String.eqb _ _); reflexivity. Qed.

Lemma extractUncommittedChanges_view repo status opts (pats : list string) :
  view (fst (gitstatus.extractUncommittedChanges repo status opts pats)) = view status.
Proof.
  unfold gitstatus.extractUncommittedChanges.
  destruct (git.Worktree_ repo) as [wt|e].
  - destruct (git.Status _) as [s|e]; reflexivity.
  - destruct (errors_Is e git.ErrIsBareRepository); reflexivity.
Qed.

Lemma extractAheadBehind_counted repo status :
  contract.logsFit repo -> counted status ->
  let st := fst (gitstatus.extractAheadBehind repo status) in
  GitStatus.Branch st = GitStatus.Branch status /\
  GitStatus.IsDetached st = GitStatus.IsDetached status /\
  counted st.
Proof.
  intros Hfit [Ha Hb]. unfold gitstatus.extractAheadBehind.
  destruct (git.Head repo) as [head|e]; simpl; auto.
  destruct (git.Reference_ repo _) as [rref|e]; simpl; [|repeat split; lia].
  destruct (git.CommitObject repo (git.Ref_Hash head)) as [lc|e]; simpl; auto.
  destruct (git.CommitObject repo (git.Ref_Hash rref)) as [rc|e]; simpl; auto.
  pose proof (countCommitsBetween_nonneg repo lc rc Hfit) as Hl.
  pose proof (countCommitsBetween_nonneg repo rc lc Hfit) as Hr.
  destruct (gitstatus.countCommitsBetween repo lc rc) as [a [e|]]; simpl in *; auto.
  destruct (gitstatus.countCommitsBetween repo rc lc) as [b [e|]]; simpl in *; auto.
Qed.

(** What [extractGitStatus] leaves in the fields that [Validate] reads. *)
Lemma extractGitStatus_shape repo opts (pats : list string) st :
  contract.logsFit repo ->
  gitstatus.extractGitStatus (Ok repo) opts pats = (Some st, None) ->
  (GitStatus.Branch st, GitStatus.IsDetached st)
  = match git.Head repo with
    | Err _ => ("N/A", false)
    | Ok head => if git.IsBranch (git.Name head) then (git.Short (git.Name head), false)
                 else ("DETACHED", true)
    end /\
  0 <= GitStatus.Ahead st /\ 0 <= GitStatus.Behind st.
Proof.
  intros Hfit. unfold gitstatus.extractGitStatus.
  set (s1 := match gitstatus.extractBranch repo GitStatus.zero with
             | (s, Some err) => _ | (s, None) => s end).
  assert (H1 : (GitStatus.Branch s1, GitStatus.IsDetached s1)
               = match git.Head repo with
                 | Err _ => ("N/A", false)
                 | Ok head => if git.IsBranch (git.Name head)
                              then (git.Short (git.Name head), false)
                              else ("DETACHED", true)
                 end /\ counted s1).
  { subst s1. unfold gitstatus.extractBranch.
    destruct (git.Head repo) as [head|e]; [destruct (git.IsBranch _)|]; simpl;
      (split; [reflexivity|lia]). }
  clearbody s1.
  set (s2 := match gitstatus.extractRemote repo s1 with
             | (s, Some _) => _ | (s, None) => s end).
  assert (H2 : view s2 = view s1).
  { subst s2. pose proof (extractRemote_view repo s1) as K.
    destruct (gitstatus.extractRemote repo s1) as [s [e|]]; exact K. }
  clearbody s2.
  set (s3 := if GitStatus.HasRemote s2 then _ else s2).
  assert (H3 : GitStatus.Branch s3 = GitStatus.Branch s2 /\
               GitStatus.IsDetached s3 = GitStatus.IsDetached s2 /\ counted s3).
  { assert (C2 : counted s2).
    { destruct H1 as [_ [? ?]].
      injection H2 as _ _ -> ->. auto. }
    subst s3. destruct (GitStatus.HasRemote s2); [|auto].
    pose proof (extractAheadBehind_counted repo s2 Hfit C2) as K.
    destruct (gitstatus.extractAheadBehind repo s2) as [s [e|]]; simpl in K; [|exact K].
    pose proof (noteError_view e s) as N.
    injection N as -> -> -> ->. exact K. }
  clearbody s3.
  set (s4 := GitStatus.with_HasStashes _ s3).
  assert (H4 : view s4 = view s3) by reflexivity.
  clearbody s4.
  pose proof (extractUncommittedChanges_view repo s4 opts pats) as K.
  intros H.
  assert (H5 : view st = view s4).
  { destruct (gitstatus.extractUncommittedChanges repo s4 opts pats) as [s [e|]];
      simpl in K.
    - destruct (negb _); injection H as <-; [|exact K].
      rewrite noteError_view. exact K.
    - injection H as <-. exact K. }
  injection H5 as -> -> -> ->. injection H4 as -> -> -> ->.
  destruct H3 as (-> & -> & H3). injection H2 as -> -> _ _.
  destruct H1 as [H1 _]. auto.
Qed.

Lemma Validate_accepts (g : GitStatus.t) :
  GitStatus.Branch g <> "" ->
  (GitStatus.IsDetached g = true -> GitStatus.Branch g = "DETACHED") ->
  (GitStatus.HasRemote g = false -> GitStatus.Ahead g = 0 /\ GitStatus.Behind g = 0) ->
  0 <= GitStatus.Ahead g -> 0 <= GitStatus.Behind g ->
  GitStatus.Validate g = None.
Proof.
  intros Hb Hd Hr Ha Hbh. unfold GitStatus.Validate.
  destruct (String.eqb_spec (GitStatus.Branch g) "") as [E|_]; [contradiction|].
  destruct (GitStatus.IsDetached g).
  - rewrite (Hd eq_refl). simpl.
    destruct (GitStatus.HasRemote g); simpl.
    + destruct (Z.ltb_spec (GitStatus.Ahead g) 0); [lia|].
      destruct (Z.ltb_spec (GitStatus.Behind g) 0); [lia|]. reflexivity.
    + destruct (Hr eq_refl) as [-> ->]. reflexivity.
  - simpl. destruct (GitStatus.HasRemote g); simpl.
    + destruct (Z.ltb_spec (GitStatus.Ahead g) 0); [lia|].
      destruct (Z.ltb_spec (GitStatus.Behind g) 0); [lia|]. reflexivity.
    + destruct (Hr eq_refl) as [-> ->]. reflexivity.
Qed.

(** X1.  Every status [Extract] returns passes [GitStatus.Validate], the
    degraded ones included, for a repository whose histories an [int] can
    count and whose branches have a name: the branch is never empty, a
    detached head is called [DETACHED], the counts are never negative, and
    they are zero without a remote. *)
Theorem Extract_status_passes_Validate tm (opened : Go.result git.Repository)
    (o : option gitstatus.ExtractOptions) (pats : list string) st
    (Hrepo : forall repo, opened = Ok repo ->
                          contract.logsFit repo /\ contract.branchesNamed repo)
    (Hst : fst (gitstatus.Extract tm opened o pats) = Some st) :
  GitStatus.Validate st = None.
Proof.
  pose proof (Extract_no_remote_zero tm opened o pats st Hst) as Hzero.
  revert Hst. unfold gitstatus.Extract.
  destruct (gitstatus.ctxCase _ tm) as [cause|].
  { simpl. intros H. injection H as <-. reflexivity. }
  destruct opened as [repo|e].
  2:{ simpl. intros H. injection H as <-. reflexivity. }
  destruct (Hrepo repo eq_refl) as [Hfit Hnamed].
  destruct (gitstatus.extractGitStatus (Ok repo) (gitstatus.orDefault o) pats)
    as [status [err|]] eqn:E.
  { unfold gitstatus.extractGitStatus in E. discriminate. }
  simpl. intros ->.
  destruct (extractGitStatus_shape repo _ pats st Hfit E) as (Hhead & Ha & Hb).
  apply Validate_accepts; try assumption.
  - destruct (git.Head repo) as [head|e] eqn:Eh.
    + destruct (git.IsBranch (git.Name head)) eqn:Eb; injection Hhead as -> _.
      * apply (Hnamed head Eh Eb).
      * discriminate.
    + injection Hhead as -> _. discriminate.
  - intros Hd. destruct (git.Head repo) as [head|e].
    + destruct (git.IsBranch (git.Name head)); injection Hhead as H1 H2; congruence.
    + injection Hhead as H1 H2. congruence.
Qed.

(** X2.  A branch with a remote configured but no reference
    [refs/remotes/origin/<branch>] (never pushed, or tracked under another
    remote name) gets both counts at zero and the message of the failed
    lookup in [Error], while [extractGitStatus] itself reports no error:
    the status line of such a branch ends in [error]. *)
Theorem branch_without_upstream_is_flagged repo opts (pats : list string)
    (head : git.Reference) (remote : string) (remotes : list string) (e : error)
    (Hhead : git.Head repo = Ok head)
    (Hbranch : git.IsBranch (git.Name head) = true)
    (Hremotes : git.Remotes repo = Ok (remote :: remotes))
    (Hupstream : git.Reference_ repo
                   (git.NewRemoteReferenceName "origin" (git.Short (git.Name head)))
                 = Err e)
    (Htext : Error e <> "") :
  exists st,
    gitstatus.extractGitStatus (Ok repo) opts pats = (Some st, None) /\
    GitStatus.Branch st = git.Short (git.Name head) /\
    GitStatus.HasRemote st = true /\
    GitStatus.Ahead st = 0 /\ GitStatus.Behind st = 0 /\
    GitStatus.Error st = Error e /\
    forall c, exists line, GitStatus.Format c st = line +:+ " error".
Proof.
  assert (Hne : String.eqb (Error e) "" = false).
  { destruct (String.eqb_spec (Error e) ""); [contradiction|reflexivity]. }
  unfold gitstatus.extractGitStatus, gitstatus.extractBranch, gitstatus.extractRemote,
    gitstatus.extractAheadBehind.
  rewrite Hhead, Hbranch, Hremotes. cbn [negb length Z.of_nat].
  cbn -[gitstatus.extractUncommittedChanges gitstatus.extractStashes git.NewRemoteReferenceName].
  rewrite Hupstream.
  cbn -[gitstatus.extractUncommittedChanges gitstatus.extractStashes].
  set (s4 := GitStatus.with_HasStashes _ _).
  pose proof (extractUncommittedChanges_view repo s4 opts pats) as Kv.
  pose proof (extractUncommittedChanges_keeps repo s4 opts pats) as Kk.
  assert (E4 : GitStatus.Error s4 = Error e) by reflexivity.
  destruct (gitstatus.extractUncommittedChanges repo s4 opts pats) as [s [err|]];
    cbn [fst] in Kv, Kk; destruct Kk as (Kr & _ & _ & _ & Ke).
  - eexists. split; [reflexivity|].
    assert (En : (if negb (errors_Is err git.ErrIsBareRepository)
                  then gitstatus.noteError err s else s) = s).
    { destruct (negb _); [|reflexivity]. unfold gitstatus.noteError.
      rewrite Ke, E4, Hne. reflexivity. }
    rewrite En. injection Kv as -> _ -> ->. rewrite Kr, Ke, E4.
    repeat split; try reflexivity.
    intros c. unfold GitStatus.Format. rewrite Ke, E4, Hne. eexists. reflexivity.
  - eexists. split; [reflexivity|].
    injection Kv as -> _ -> ->. rewrite Kr, Ke, E4.
    repeat split; try reflexivity.
    intros c. unfold GitStatus.Format. rewrite Ke, E4, Hne. eexists. reflexivity.
Qed.

(** X3.  When [HEAD] cannot be read the branch is shown as [N/A] and
    [Error] holds that failure, ["failed to get HEAD: ..."], whatever fails
    afterwards: the first message stays.  The counts stay at zero and
    [extractGitStatus] reports no error. *)
Theorem unreadable_HEAD_is_the_error_reported repo opts (pats : list string) (e : error)
    (Hhead : git.Head repo = Err e) :
  exists st,
    gitstatus.extractGitStatus (Ok repo) opts pats = (Some st, None) /\
    GitStatus.Branch st = "N/A" /\
    GitStatus.IsDetached st = false /\
    GitStatus.Ahead st = 0 /\ GitStatus.Behind st = 0 /\
    GitStatus.Error st = "failed to get HEAD: " +:+ Error e.
Proof.
  unfold gitstatus.extractGitStatus, gitstatus.extractBranch.
  rewrite Hhead.
  cbn -[gitstatus.extractUncommittedChanges gitstatus.extractStashes
        gitstatus.extractRemote gitstatus.extractAheadBehind].
  set (s1 := GitStatus.with_Error _ (GitStatus.with_Branch "N/A" GitStatus.zero)).
  set (s2 := match gitstatus.extractRemote repo s1 with
             | (s, Some _) => _ | (s, None) => s end).
  assert (H2 : view s2 = view s1 /\ GitStatus.Error s2 = GitStatus.Error s1).
  { subst s2. pose proof (extractRemote_view repo s1) as K.
    pose proof (extractRemote_keeps repo s1) as (_ & _ & _ & _ & Ke).
    destruct (gitstatus.extractRemote repo s1) as [s [err|]]; split; assumption. }
  clearbody s2. destruct H2 as [V2 E2].
  set (s3 := if GitStatus.HasRemote s2 then _ else s2).
  assert (H3 : s3 = s2).
  { subst s3. destruct (GitStatus.HasRemote s2); [|reflexivity].
    unfold gitstatus.extractAheadBehind. rewrite Hhead.
    unfold gitstatus.noteError. rewrite E2. reflexivity. }
  rewrite H3. clear s3 H3.
  set (s4 := GitStatus.with_HasStashes _ s2).
  pose proof (extractUncommittedChanges_view repo s4 opts pats) as Kv.
  pose proof (extractUncommittedChanges_keeps repo s4 opts pats) as (_ & _ & _ & _ & Ke).
  assert (E4 : GitStatus.Error s4 = "failed to get HEAD: " +:+ Error e) by exact E2.
  destruct (gitstatus.extractUncommittedChanges repo s4 opts pats) as [s [err|]];
    cbn [fst] in Kv, Ke.
  - eexists. split; [reflexivity|].
    assert (En : (if negb (errors_Is err git.ErrIsBareRepository)
                  then gitstatus.noteError err s else s) = s).
    { destruct (negb _); [|reflexivity]. unfold gitstatus.noteError.
      rewrite Ke, E4. reflexivity. }
    rewrite En. injection Kv as -> -> -> ->. injection V2 as -> -> -> ->.
    rewrite Ke, E4. repeat split; reflexivity.
  - eexists. split; [reflexivity|].
    injection Kv as -> -> -> ->. injection V2 as -> -> -> ->.
    rewrite Ke, E4. repeat split; reflexivity.
Qed.

(** X4.  A [Timeout] of zero or less sets no deadline: with a caller that
    never cancels, [Extract] waits for the extraction however long it
    takes and returns its status as it is, with no error. *)
Theorem Extract_without_deadline_waits tm repo opts (pats : list string)
    (Htimeout : gitstatus.Timeout opts <= 0)
    (Hparent : gitstatus.parentDone tm = None) :
  gitstatus.Extract tm (Ok repo) (Some opts) pats
  = gitstatus.extractGitStatus (Ok repo) opts pats.
Proof.
  unfold gitstatus.Extract, gitstatus.ctxCase, gitstatus.doneAt.
  cbn [gitstatus.orDefault].
  destruct (Z.gtb_spec (gitstatus.Timeout opts) 0) as [H|_]; [lia|].
  rewrite Hparent. reflexivity.
Qed.

(** X5.  Whenever [Extract] returns an error, be it the deadline, a
    cancellation or a repository that does not open, the status it
    returns prints (without colours) as [[[ N/A | ○ ]] error]. *)
Theorem failed_extraction_prints_not_available tm (opened : Go.result git.Repository)
    (o : option gitstatus.ExtractOptions) (pats : list string) st (err : error)
    (H : gitstatus.Extract tm opened o pats = (Some st, Some err)) :
  GitStatus.Format noColor st = "[[ N/A | ○ ]] error".
Proof.
  revert H. unfold gitstatus.Extract.
  destruct (gitstatus.ctxCase _ tm) as [cause|].
  { intros H. injection H as <- _. reflexivity. }
  destruct opened as [repo|e].
  - unfold gitstatus.extractGitStatus. discriminate.
  - cbn. intros H. injection H as <- _. reflexivity.
Qed.

Lemma count_none_new (m : gmap git.Hash bool) (l : list git.Commit) (acc : Z) :
  (forall c, c ∈ l -> default false (m !! git.Commit_Hash c) = true) ->
  fold_left (fun (count : int) c =>
               if negb (default false (m !! git.Commit_Hash c))
               then incr count else count) l acc
  = acc.
Proof.
  revert acc. induction l as [|c l IH]; intros acc H; [reflexivity|].
  simpl. rewrite (H c) by (apply elem_of_cons; left; reflexivity). simpl.
  apply IH. intros c' Hc'. apply H. apply elem_of_cons. right. exact Hc'.
Qed.

Lemma countCommitsBetween_same repo (c : git.Commit) :
  fst (gitstatus.countCommitsBetween repo c c) = 0.
Proof.
  unfold gitstatus.countCommitsBetween.
  destruct (git.Log repo (git.Commit_Hash c)) as [iter|e]; [|reflexivity].
  unfold git.ForEach. destruct (git.failure iter); [reflexivity|]. simpl.
  apply count_none_new. intros c' Hc'.
  apply toCommits_lookup. left.
  change (map git.Commit_Hash (git.commits iter)) with (git.Commit_Hash <$> git.commits iter).
  apply list_elem_of_fmap. exists c'. auto.
Qed.

(** X6.  When [HEAD] and [refs/remotes/origin/<branch>] name the same
    commit, both counts are zero, whatever the history looks like and
    whether or not it can be read. *)
Theorem same_commit_shows_no_arrows repo opts (pats : list string)
    (head remoteRef : git.Reference)
    (Hhead : git.Head repo = Ok head)
    (Hupstream : git.Reference_ repo
                   (git.NewRemoteReferenceName "origin" (git.Short (git.Name head)))
                 = Ok remoteRef)
    (Hsame : git.Ref_Hash remoteRef = git.Ref_Hash head) :
  exists st,
    gitstatus.extractGitStatus (Ok repo) opts pats = (Some st, None) /\
    GitStatus.Ahead st = 0 /\ GitStatus.Behind st = 0.
Proof.
  unfold gitstatus.extractGitStatus.
  set (s1 := match gitstatus.extractBranch repo GitStatus.zero with
             | (s, Some err) => _ | (s, None) => s end).
  assert (H1 : GitStatus.Ahead s1 = 0 /\ GitStatus.Behind s1 = 0).
  { subst s1. unfold gitstatus.extractBranch. rewrite Hhead.
    destruct (negb _); split; reflexivity. }
  clearbody s1.
  set (s2 := match gitstatus.extractRemote repo s1 with
             | (s, Some _) => _ | (s, None) => s end).
  assert (H2 : GitStatus.Ahead s2 = 0 /\ GitStatus.Behind s2 = 0).
  { subst s2. pose proof (extractRemote_view repo s1) as K.
    destruct (gitstatus.extractRemote repo s1) as [s [err|]]; cbn [fst] in K;
      injection K as _ _ Ka Kb; simpl; rewrite Ka, Kb; exact H1. }
  clearbody s2.
  set (s3 := if GitStatus.HasRemote s2 then _ else s2).
  assert (H3 : GitStatus.Ahead s3 = 0 /\ GitStatus.Behind s3 = 0).
  { subst s3. destruct (GitStatus.HasRemote s2); [|exact H2].
    unfold gitstatus.extractAheadBehind. rewrite Hhead, Hupstream, Hsame.
    assert (Hn : forall err s, GitStatus.Ahead (gitstatus.noteError err s) = GitStatus.Ahead s
                               /\ GitStatus.Behind (gitstatus.noteError err s)
                                  = GitStatus.Behind s).
    { intros err s. pose proof (noteError_view err s) as N.
      injection N as _ _ -> ->. auto. }
    destruct (git.CommitObject repo (git.Ref_Hash head)) as [c|err].
    2:{ destruct (Hn err s2) as [-> ->]. exact H2. }
    pose proof (countCommitsBetween_same repo c) as Hc.
    destruct (gitstatus.countCommitsBetween repo c c) as [n [err|]]; cbn [fst] in Hc.
    - destruct (Hn err s2) as [-> ->]. exact H2.
    - subst n. split; reflexivity. }
  clearbody s3.
  set (s4 := GitStatus.with_HasStashes _ s3).
  pose proof (extractUncommittedChanges_view repo s4 opts pats) as K.
  destruct (gitstatus.extractUncommittedChanges repo s4 opts pats) as [s [err|]];
    cbn [fst] in K; injection K as _ _ Ka Kb.
  - eexists. split; [reflexivity|].
    destruct (negb _); [|rewrite Ka, Kb; exact H3].
    pose proof (noteError_view err s) as N. injection N as _ _ -> ->.
    rewrite Ka, Kb. exact H3.
  - eexists. split; [reflexivity|]. rewrite Ka, Kb. exact H3.
Qed.

End StatusShape.

(** The theorems above at concrete repositories. *)

Lemma examples_clone_logsFit : contract.logsFit examples.clone.
Proof.
  intros h iter H. simpl in H. unfold examples.log in H.
  repeat match type of H with
         | context [match ?p with _ => _ end] => destruct p; try discriminate
         end;
    injection H as <-; simpl; unfold maxInt; lia.
Qed.

Lemma examples_clone_branchesNamed : contract.branchesNamed examples.clone.
Proof. intros head H _. injection H as <-. discriminate. Qed.

Lemma Extract_status_passes_Validate_witness :
  fst (gitstatus.Extract examples.prompt (Ok examples.clone) None [])
  = Some (GitStatus.mk "main" false true 2 1 false false "") /\
  GitStatus.Validate (GitStatus.mk "main" false true 2 1 false false "") = None.
Proof.
  assert (E : fst (gitstatus.Extract examples.prompt (Ok examples.clone) None [])
              = Some (GitStatus.mk "main" false true 2 1 false false ""))
    by (vm_compute; reflexivity).
  split; [exact E|].
  refine (Extract_status_passes_Validate examples.prompt (Ok examples.clone) None [] _ _ E).
  intros repo H. injection H as <-.
  split; [exact examples_clone_logsFit|exact examples_clone_branchesNamed].
Defined.


Lemma branch_without_upstream_is_flagged_witness :
  exists st,
    gitstatus.extractGitStatus (Ok examples.unpushed) gitstatus.DefaultOptions []
    = (Some st, None) /\
    GitStatus.Branch st = "feature" /\
    GitStatus.HasRemote st = true /\
    GitStatus.Ahead st = 0 /\ GitStatus.Behind st = 0 /\
    GitStatus.Error st = "reference not found" /\
    forall c, exists line, GitStatus.Format c st = line +:+ " error".
Proof.
  refine (branch_without_upstream_is_flagged examples.unpushed gitstatus.DefaultOptions []
            examples.featureHead "origin" [] (Lib "reference not found")
            eq_refl eq_refl eq_refl eq_refl _).
  discriminate.
Defined.

Lemma unreadable_HEAD_is_the_error_reported_witness :
  exists st,
    gitstatus.extractGitStatus (Ok examples.freshInit) gitstatus.DefaultOptions []
    = (Some st, None) /\
    GitStatus.Branch st = "N/A" /\
    GitStatus.IsDetached st = false /\
    GitStatus.Ahead st = 0 /\ GitStatus.Behind st = 0 /\
    GitStatus.Error st = "failed to get HEAD: reference not found".
Proof.
  exact (unreadable_HEAD_is_the_error_reported examples.freshInit gitstatus.DefaultOptions []
           (Lib "reference not found") eq_refl).
Defined.

Lemma Extract_without_deadline_waits_witness :
  gitstatus.Extract examples.slow (Ok examples.clone) (Some examples.patient) []
  = gitstatus.extractGitStatus (Ok examples.clone) examples.patient [].
Proof.
  refine (Extract_without_deadline_waits examples.slow examples.clone examples.patient []
            _ eq_refl).
  simpl. lia.
Defined.

Lemma failed_extraction_prints_not_available_witness :
  gitstatus.Extract examples.slow (Ok examples.clone) None []
  = (Some (GitStatus.mk "N/A" false false 0 0 false false "timeout"),
     Some context_DeadlineExceeded) /\
  GitStatus.Format noColor (GitStatus.mk "N/A" false false 0 0 false false "timeout")
  = "[[ N/A | ○ ]] error".
Proof.
  assert (E : gitstatus.Extract examples.slow (Ok examples.clone) None []
              = (Some (GitStatus.mk "N/A" false false 0 0 false false "timeout"),
                 Some context_DeadlineExceeded))
    by (vm_compute; reflexivity).
  split; [exact E|].
  exact (failed_extraction_prints_not_available examples.slow (Ok examples.clone) None []
           _ _ E).
Defined.

Lemma same_commit_shows_no_arrows_witness :
  exists st,
    gitstatus.extractGitStatus (Ok examples.upToDate) gitstatus.DefaultOptions []
    = (Some st, None) /\
    GitStatus.Ahead st = 0 /\ GitStatus.Behind st = 0.
Proof.
  exact (same_commit_shows_no_arrows examples.upToDate gitstatus.DefaultOptions []
           examples.mainHead
           (git.mkReference (git.mkReferenceName false "origin/main") 5%N)
           eq_refl eq_refl eq_refl).
Defined.

(** ** The command: statuses find their repositories *)

Section Populate.

Implicit Types (repos l : list Repository.t) (m : gmap string nat) (p : string).

(** The loop that fills [repoMap], started at place [k] of the list. *)
#[local] Abbreviation filled k l m :=
  (fold_left (fun (acc : gmap string nat) (ir : nat * Repository.t) =>
                <[Repository.Path ir.2 := ir.1]> acc)
             (imap (fun i x => ((k + i)%nat, x)) l) m).

Lemma filled_cons k (r : Repository.t) l m :
  filled k (r :: l) m = filled (S k) l (<[Repository.Path r := k]> m).
Proof.
  rewrite imap_cons. simpl. rewrite Nat.add_0_r.
  f_equal. apply imap_ext. intros i x _. simpl. f_equal. lia.
Qed.

Lemma filled_other k l m p :
  (forall r, r ∈ l -> Repository.Path r <> p) -> filled k l m !! p = m !! p.
Proof.
  revert k m. induction l as [|r l IH]; intros k m H; [reflexivity|].
  rewrite filled_cons, IH.
  - apply lookup_insert_ne. apply H. apply elem_of_cons. left. reflexivity.
  - intros r' Hr'. apply H. apply elem_of_cons. right. exact Hr'.
Qed.

Lemma filled_last k l1 (r : Repository.t) l2 m :
  (forall r', r' ∈ l2 -> Repository.Path r' <> Repository.Path r) ->
  filled k (l1 ++ r :: l2) m !! Repository.Path r = Some (k + length l1)%nat.
Proof.
  revert k m. induction l1 as [|r1 l1 IH]; intros k m H.
  - simpl app. rewrite filled_cons, filled_other by exact H.
    rewrite lookup_insert_eq. simpl. f_equal. lia.
  - simpl app. rewrite filled_cons, IH by exact H. simpl. f_equal. lia.
Qed.

Lemma repoMap_lookup repos i (r : Repository.t) :
  NoDup (map Repository.Path repos) ->
  repos !! i = Some r ->
  cmd.repoMap repos !! Repository.Path r = Some i.
Proof.
  intros Hnd Hi. unfold cmd.repoMap.
  change (imap pair repos) with (imap (fun i x => ((0 + i)%nat, x)) repos).
  pose proof (take_drop_middle repos i r Hi) as Hsplit.
  rewrite <- Hsplit at 1.
  rewrite filled_last.
  - simpl. f_equal. apply length_take_le. apply lookup_lt_Some in Hi. lia.
  - intros r' Hr' E.
    apply list_elem_of_lookup in Hr'. destruct Hr' as [j Hj].
    rewrite lookup_drop in Hj.
    assert (Hneq : i <> (S i + j)%nat) by lia. apply Hneq.
    change (map Repository.Path repos) with (Repository.Path <$> repos) in Hnd.
    apply (NoDup_lookup _ _ _ (Repository.Path r) Hnd).
    + rewrite list_lookup_fmap, Hi. reflexivity.
    + rewrite list_lookup_fmap, Hj. simpl. f_equal. exact E.
Qed.

Lemma populate_by_path (statuses : gmap string GitStatus.t) repos :
  NoDup (map Repository.Path repos) ->
  cmd.populate statuses repos
  = map (fun repo => match statuses !! Repository.Path repo with
                     | Some status => Repository.with_GitStatus (Some status) repo
                     | None => repo
                     end) repos.
Proof.
  intros Hpaths. unfold cmd.populate. apply list_eq. intros i.
  rewrite list_lookup_imap.
  change (map ?f repos) with (f <$> repos). rewrite list_lookup_fmap.
  destruct (repos !! i) as [r|] eqn:Hi; [|reflexivity]. simpl. f_equal.
  destruct (statuses !! Repository.Path r); [|reflexivity].
  rewrite bool_decide_eq_true_2; [reflexivity|].
  apply repoMap_lookup; assumption.
Qed.

(** X7.  When no two repositories of the list share a path, the loop of
    [main] over the map of statuses gives each repository the status
    stored under its path and leaves the others as they were; so if the
    map has an entry for every path, every repository ends up with a
    status. *)
Theorem populate_gives_each_repository_its_status
    (statuses : gmap string GitStatus.t) repos
    (Hpaths : NoDup (map Repository.Path repos)) :
  cmd.populate statuses repos
  = map (fun repo => match statuses !! Repository.Path repo with
                     | Some status => Repository.with_GitStatus (Some status) repo
                     | None => repo
                     end) repos /\
  ((forall repo, repo ∈ repos -> Repository.Path repo ∈ dom statuses) ->
   forall repo, repo ∈ cmd.populate statuses repos ->
                exists status, Repository.GitStatus repo = Some status /\
                               statuses !! Repository.Path repo = Some status).
Proof.
  pose proof (populate_by_path statuses repos Hpaths) as E.
  split; [exact E|].
  intros Hall repo Hrepo. rewrite E in Hrepo.
  change (map ?f repos) with (f <$> repos) in Hrepo.
  apply list_elem_of_fmap in Hrepo. destruct Hrepo as (r & -> & Hr).
  specialize (Hall r Hr). apply elem_of_dom in Hall. destruct Hall as [status Hs].
  rewrite Hs. exists status. split; [reflexivity|exact Hs].
Qed.

End Populate.

Lemma populate_gives_each_repository_its_status_witness :
  NoDup (map Repository.Path examples.discovered) /\
  map Repository.GitStatus (cmd.populate examples.someStatuses examples.discovered)
  = [Some (GitStatus.mk "main" false false 0 0 false false "");
     Some (GitStatus.mk "main" false true 2 1 false false "");
     None].
Proof.
  assert (Hnd : NoDup (map Repository.Path examples.discovered)).
  { apply NoDup_names_hold. vm_compute. reflexivity. }
  split; [exact Hnd|].
  rewrite (proj1 (populate_gives_each_repository_its_status
                    examples.someStatuses examples.discovered Hnd)).
  vm_compute. reflexivity.
Defined.

(** ** From the scan to the tree: a status for every repository *)

(** X20.  In [main], with [MaxConcurrency] at least one and repositories
    of pairwise different paths handed to [ExtractBatch] under those
    paths: when the batch returns without the context ever being done,
    the loop over its map leaves every repository of the list with a
    status, and that status is one [Extract] answers for the path of the
    repository. *)
Theorem main_gives_every_repository_a_status
    (c : Call) (repos : list Repository.t) (s : State)
    (Hlimit : 0 < limit c)
    (Hmap : forall p, p ∈ dom (batch.repos c) <-> p ∈ map Repository.Path repos)
    (Hpaths : NoDup (map Repository.Path repos))
    (Hs : reachable c s)
    (Hreturned : main s = Returned)
    (Hnever : cancelled s = false) :
  length (cmd.populate (statuses s) repos) = length repos /\
  forall repo, repo ∈ cmd.populate (statuses s) repos ->
    exists st e, Repository.GitStatus repo = Some st /\
                 extracted c (Repository.Path repo) (Some st, e).
Proof.
  pose proof (reachable_invariant c Hlimit s Hs) as Inv.
  pose proof (returned_complete c s Inv Hreturned Hnever) as Hdom.
  rewrite (populate_by_path (statuses s) repos Hpaths).
  split; [apply length_map|].
  intros repo Hrepo.
  change (map ?f repos) with (f <$> repos) in Hrepo.
  apply list_elem_of_fmap in Hrepo. destruct Hrepo as (r & -> & Hr).
  assert (Hin : Repository.Path r ∈ dom (statuses s)).
  { rewrite Hdom. apply Hmap.
    change (map ?f repos) with (f <$> repos). apply list_elem_of_fmap. eauto. }
  apply elem_of_dom in Hin. destruct Hin as [st Hst]. rewrite Hst.
  destruct (genuineStatuses c s Inv _ _ Hst) as [e He].
  exists st, e. split; [reflexivity|exact He].
Qed.

Lemma main_gives_every_repository_a_status_witness :
  exists s,
    reachable examples.batchCall s /\ main s = Returned /\ cancelled s = false /\
    length (cmd.populate (statuses s) examples.twoFound) = 2%nat /\
    forall repo, repo ∈ cmd.populate (statuses s) examples.twoFound ->
      exists st e, Repository.GitStatus repo = Some st /\
                   extracted examples.batchCall (Repository.Path repo) (Some st, e).
Proof.
  destruct (ExtractBatch_returns examples.batchCall eq_refl (or_introl eq_refl) eq_refl)
    as (s & Hs & Hreturned & Hnever & _).
  exists s. split; [exact Hs|]. split; [exact Hreturned|]. split; [exact Hnever|].
  refine (main_gives_every_repository_a_status examples.batchCall examples.twoFound s
            eq_refl _ _ Hs Hreturned Hnever).
  - intros p. unfold examples.batchCall, examples.twoRepositories, examples.twoFound.
    cbn [batch.repos map Repository.Path Repository.at_path].
    rewrite dom_insert, dom_singleton, elem_of_union, !elem_of_singleton.
    rewrite !elem_of_cons, elem_of_nil. tauto.
  - apply NoDup_names_hold. vm_compute. reflexivity.
Defined.

(** ** [ExtractBatch] under cancellation *)

Section Cancelled.

Variable c : Call.

(** X8.  Whatever the order of the moves and whenever the context is done,
    the map that [ExtractBatch] fills never has a key that is no path of
    [repos], and every status in it is one that [Extract] answers for its
    path: a cancellation can leave paths out, never put a wrong entry
    in. *)
Theorem ExtractBatch_never_invents_an_entry (Hlimit : 0 < limit c) s
    (Hs : reachable c s) :
  dom (statuses s) ⊆ dom (repos c) /\
  forall p st, statuses s !! p = Some st -> exists e, extracted c p (Some st, e).
Proof.
  pose proof (reachable_invariant c Hlimit s Hs) as Inv.
  split; [exact (knownStatuses c s Inv)|exact (genuineStatuses c s Inv)].
Qed.

Lemma total_nothing (f : Worker -> nat) (m : gmap string Worker) :
  map_Forall (fun (_ : string) w => f w = 0%nat) m -> total f m = 0%nat.
Proof.
  intros H. destruct (total f m) as [|n] eqn:E; [reflexivity|].
  destruct (total_positive f m) as (p & w & Hp & Hw); [lia|].
  pose proof (H p w Hp) as Hz. simpl in Hz. lia.
Qed.

Lemma init_idle : 0 <= limit c -> doneAtStart c = true -> idle (init c).
Proof.
  intros Hlimit H. unfold init, idle.
  destruct (decide _); [|destruct (Z.ltb_spec (limit c) 0); [lia|]]; fields;
    (split; [exact H|]);
    (split; [apply map_Forall_empty|]); repeat split; discriminate.
Qed.

Lemma advance_idle s s' : idle s -> advance c s s' -> idle s'.
Proof.
  intros (Hc & Hw & Hr & Hst & Hx & Hm) Hadv. unfold idle.
  destruct Hadv; fields;
    try match goal with
        | H : workers _ !! _ = Some _ |- _ =>
            pose proof (Hw _ _ H) as Hk; simpl in Hk
        end;
    try (destruct Hk; discriminate); try congruence;
    try match goal with
        | H : _ ∈ extracting _ |- _ => rewrite Hx in H; apply elem_of_empty in H; contradiction
        end;
    repeat split; try assumption; try discriminate;
    try (apply map_Forall_insert_2; [|assumption]).
  - left. reflexivity.
  - rewrite Hc. right. reflexivity.
Qed.

Lemma reachable_idle s : 0 <= limit c -> doneAtStart c = true -> reachable c s -> idle s.
Proof.
  intros Hlimit Hstart H. unfold reachable in H.
  refine (rtc_ind_r idle (init c) (init_idle Hlimit Hstart) _ s H).
  intros s1 s2 _ Hstep Hidle. destruct Hstep as [s1 s2 Hadv|s1 Hc].
  - eapply advance_idle; eassumption.
  - destruct Hidle as (Hc' & _). congruence.
Qed.

(** X9.  When the context is already done as [ExtractBatch] is called
    with a [MaxConcurrency] that is not negative, no worker ever takes a
    slot, no extraction is started, nothing is sent and the map stays
    empty; and the call is never stuck before its return, also with
    [MaxConcurrency: 0].  (With a negative [MaxConcurrency] and a
    repository to read, [make] panics before any goroutine starts.) *)
Theorem ExtractBatch_cancelled_from_the_start (Hlimit : 0 <= limit c)
    (Hstart : doneAtStart c = true) s (Hs : reachable c s) :
  semaphore s = 0%nat /\ running s = 0%nat /\ extractions s = 0%nat /\
  results s = [] /\ statuses s = ∅ /\
  (main s <> Returned -> exists s', advance c s s').
Proof.
  destruct (reachable_idle s Hlimit Hstart Hs) as (Hc & Hw & Hr & Hst & Hx & Hnp).
  split; [|split; [|split; [|split; [exact Hr|split; [exact Hst|]]]]].
  - rewrite (tokens c s (reachable_sound c Hlimit s Hs)).
    apply total_nothing. intros p w Hp. destruct (Hw p w Hp) as [-> | ->]; reflexivity.
  - apply total_nothing. intros p w Hp. destruct (Hw p w Hp) as [-> | ->]; reflexivity.
  - unfold extractions. rewrite Hx. apply size_empty.
  - intros Hne. destruct (main s) eqn:Hm; [| |congruence|congruence].
    + destruct (decide (unlaunched s = ∅)) as [He|He].
      * eexists. apply launched; assumption.
      * apply set_choose_L in He. destruct He as [p Hp].
        eexists. apply (launch c s p); assumption.
    + destruct (results s) as [|r rest] eqn:Hres; [|discriminate].
      destruct (closed s) eqn:Hcl; [eexists; apply finish; assumption|].
      destruct (decide (map_Forall (fun (_ : string) w => w = Finished) (workers s)))
        as [Hall|Hnot]; [eexists; apply close; assumption|].
      apply map_not_Forall in Hnot; [|intros; apply _].
      destruct Hnot as (p & w & Hp & Hnf).
      destruct (Hw p w Hp) as [-> | ->]; [|congruence].
      eexists. apply (look c s p Hp).
Qed.

(** With a negative [MaxConcurrency] and a repository to read, the call
    panics as it makes the semaphore, and no goroutine was started. *)
Lemma negative_limit_panics :
  limit c < 0 -> repos c <> ∅ ->
  main (init c) = Panicked /\ workers (init c) = ∅ /\ ~ exists s', advance c (init c) s'.
Proof.
  intros Hlimit Hne. unfold init.
  destruct (decide (size (repos c) = 0%nat)) as [E|_].
  - apply map_size_empty_inv in E. contradiction.
  - destruct (Z.ltb_spec (limit c) 0); [|lia].
    split; [reflexivity|split; [reflexivity|]].
    intros [s' Hadv]. inversion Hadv; subst; fields;
      try discriminate;
      try match goal with
          | H : _ !! _ = Some _ |- _ => rewrite lookup_empty in H; discriminate
          | H : _ ∈ _ |- _ => apply elem_of_empty in H; contradiction
          end.
Qed.

End Cancelled.

Lemma ExtractBatch_never_invents_an_entry_witness :
  0 < limit examples.batchCall /\
  forall s, reachable examples.batchCall s ->
            dom (statuses s) ⊆ dom examples.twoRepositories.
Proof.
  split; [reflexivity|].
  intros s Hs.
  exact (proj1 (ExtractBatch_never_invents_an_entry examples.batchCall eq_refl s Hs)).
Defined.

Lemma ExtractBatch_cancelled_from_the_start_witness :
  0 <= limit examples.lateCall /\ doneAtStart examples.lateCall = true /\
  forall s, reachable examples.lateCall s ->
            running s = 0%nat /\ extractions s = 0%nat /\ statuses s = ∅ /\
            (main s <> Returned -> exists s', advance examples.lateCall s s').
Proof.
  split; [discriminate|]. split; [reflexivity|].
  intros s Hs.
  destruct (ExtractBatch_cancelled_from_the_start examples.lateCall
              ltac:(discriminate) eq_refl s Hs)
    as (_ & H1 & H2 & _ & H3 & H4).
  auto.
Defined.

(** ** The tree: no repository lost *)

Section Placement.

Variable fp : filepath.API.

Implicit Types (repo : Repository.t) (t node current : TreeNode.t).
Implicit Types (dirs seen todo : list string).

Lemma insertFrom_step repo relPath seen part x rest currentPath current :
  tree.insertFrom fp repo relPath seen (part :: x :: rest) currentPath current
  = match tree.findChild part (TreeNode.Children current) with
    | Some k =>
        TreeNode.with_Children
          (alter (tree.insertFrom fp repo relPath (seen ++ [part]) (x :: rest)
                                  (filepath.Join fp currentPath part)) k
                 (TreeNode.Children current))
          current
    | None =>
        TreeNode.with_Children
          (TreeNode.Children current
             ++ [tree.insertFrom fp repo relPath (seen ++ [part]) (x :: rest)
                   (filepath.Join fp currentPath part)
                   (TreeNode.mk (Repository.at_path (filepath.Join fp currentPath part) part)
                                0 false [] (strings_Join (seen ++ [part]) "/"))])
          current
    end.
Proof. reflexivity. Qed.

Lemma insertFrom_keeps repo relPath seen todo currentPath current :
  TreeNode.Repository (tree.insertFrom fp repo relPath seen todo currentPath current)
  = TreeNode.Repository current /\
  TreeNode.RelativePath (tree.insertFrom fp repo relPath seen todo currentPath current)
  = TreeNode.RelativePath current.
Proof.
  destruct todo as [|part [|x rest]]; simpl; auto.
  destruct (tree.findChild part (TreeNode.Children current)); simpl; auto.
Qed.

Lemma insertFrom_name repo relPath seen todo currentPath current :
  TreeNode.Name (tree.insertFrom fp repo relPath seen todo currentPath current)
  = TreeNode.Name current.
Proof. unfold TreeNode.Name. rewrite (proj1 (insertFrom_keeps _ _ _ _ _ _)). reflexivity. Qed.

Lemma findChild_Some part (children : list TreeNode.t) k :
  tree.findChild part children = Some k ->
  exists c, children !! k = Some c /\ TreeNode.Name c = part.
Proof.
  unfold tree.findChild. intros H.
  destruct (list_find _ children) as [[i c]|] eqn:E; [|discriminate].
  injection H as <-. apply list_find_Some in E. destruct E as (Hi & Hn & _).
  exists c. auto.
Qed.

(** The insertion puts the repository below the directories of its path. *)
Lemma insertFrom_sits repo relPath todo :
  forall seen currentPath current,
    placement.sits (removelast todo) repo
                   (tree.insertFrom fp repo relPath seen todo currentPath current).
Proof.
  induction todo as [|part rest IH]; intros seen currentPath current.
  - simpl. eexists. split; [apply elem_of_app; right; apply list_elem_of_singleton; reflexivity|].
    reflexivity.
  - destruct rest as [|x rest'].
    + simpl. eexists.
      split; [apply elem_of_app; right; apply list_elem_of_singleton; reflexivity|].
      reflexivity.
    + change (removelast (part :: x :: rest')) with (part :: removelast (x :: rest')).
      rewrite insertFrom_step.
      destruct (tree.findChild part (TreeNode.Children current)) as [k|] eqn:Ef.
      * destruct (findChild_Some _ _ _ Ef) as (c & Hk & Hn).
        cbn [placement.sits TreeNode.with_Children TreeNode.Children].
        exists (tree.insertFrom fp repo relPath (seen ++ [part]) (x :: rest')
                                (filepath.Join fp currentPath part) c).
        split; [|split; [|apply IH]].
        -- apply list_elem_of_lookup. exists k.
           rewrite list_lookup_alter_eq, Hk. reflexivity.
        -- rewrite insertFrom_name. exact Hn.
      * cbn [placement.sits TreeNode.with_Children TreeNode.Children].
        eexists. split; [|split; [|apply IH]].
        -- apply elem_of_app. right. apply list_elem_of_singleton. reflexivity.
        -- rewrite insertFrom_name. reflexivity.
Qed.

(** What sits in a tree sits in every tree whose children match the old
    ones, name for name and repository for repository. *)
Lemma sits_carried dirs repo t t' :
  (forall c, c ∈ TreeNode.Children t ->
     exists c', c' ∈ TreeNode.Children t' /\
                TreeNode.Repository c' = TreeNode.Repository c /\
                forall ds, placement.sits ds repo c -> placement.sits ds repo c') ->
  placement.sits dirs repo t -> placement.sits dirs repo t'.
Proof.
  intros H. destruct dirs as [|d ds]; simpl.
  - intros (c & Hc & Hr). destruct (H c Hc) as (c' & Hc' & Hr' & _).
    exists c'. split; [exact Hc'|congruence].
  - intros (c & Hc & Hn & Hs). destruct (H c Hc) as (c' & Hc' & Hr' & Hs').
    exists c'. split; [exact Hc'|]. split; [|auto].
    unfold TreeNode.Name in *. congruence.
Qed.

Lemma carried_appended (children : list TreeNode.t) (new : TreeNode.t) repo c :
  c ∈ children ->
  exists c', c' ∈ children ++ [new] /\
             TreeNode.Repository c' = TreeNode.Repository c /\
             forall ds, placement.sits ds repo c -> placement.sits ds repo c'.
Proof. intros Hc. exists c. split; [apply elem_of_app; left; exact Hc|auto]. Qed.

(** A later insertion moves nothing that is in the tree. *)
Lemma insertFrom_preserves repo' relPath' todo :
  forall dirs repo seen currentPath t,
    placement.sits dirs repo t ->
    placement.sits dirs repo (tree.insertFrom fp repo' relPath' seen todo currentPath t).
Proof.
  induction todo as [|part rest IH]; intros dirs repo seen currentPath t.
  - apply sits_carried. intros c Hc. apply carried_appended. exact Hc.
  - destruct rest as [|x rest'].
    + apply sits_carried. intros c Hc. apply carried_appended. exact Hc.
    + rewrite insertFrom_step.
      destruct (tree.findChild part (TreeNode.Children t)) as [k|].
      * apply sits_carried. intros c Hc. cbn [TreeNode.with_Children TreeNode.Children].
        apply list_elem_of_lookup in Hc. destruct Hc as [i Hi].
        destruct (decide (k = i)) as [->|Hne].
        -- eexists. split; [|split].
           ++ apply list_elem_of_lookup. exists i.
              rewrite list_lookup_alter_eq, Hi. reflexivity.
           ++ apply insertFrom_keeps.
           ++ intros ds. apply IH.
        -- exists c. split; [|auto].
           apply list_elem_of_lookup. exists i.
           rewrite list_lookup_alter_ne by exact Hne. exact Hi.
      * apply sits_carried. intros c Hc. apply carried_appended. exact Hc.
Qed.

Lemma SortChildren_list_has (l : list TreeNode.t) c0 :
  c0 ∈ l -> exists b, TreeNode.with_IsLast b c0 ∈ TreeNode.SortChildren_list l.
Proof.
  intros Hc0.
  pose proof (SortChildren_list_perm (TreeNode.with_IsLast false) l) as P.
  assert (Hin : TreeNode.with_IsLast false c0
                ∈ map (TreeNode.with_IsLast false) (TreeNode.SortChildren_list l)).
  { rewrite P by (intros b [? ? ? ? ?]; reflexivity).
    change (map ?f l) with (f <$> l). apply list_elem_of_fmap. exists c0. auto. }
  change (map ?f ?x) with (f <$> x) in Hin.
  apply list_elem_of_fmap in Hin. destruct Hin as (c & E & Hc).
  exists (TreeNode.IsLast c).
  replace (TreeNode.with_IsLast (TreeNode.IsLast c) c0) with c; [exact Hc|].
  destruct c, c0. simpl in *. injection E as -> -> -> ->. reflexivity.
Qed.

Lemma sits_with_IsLast dirs repo (b : bool) t :
  placement.sits dirs repo (TreeNode.with_IsLast b t) <-> placement.sits dirs repo t.
Proof. destruct dirs; reflexivity. Qed.

(** Sorting moves the children about, not up or down. *)
Lemma sortTreeFrom_sits dirs repo :
  forall t d, placement.sits dirs repo t -> placement.sits dirs repo (tree.sortTreeFrom d t).
Proof.
  induction dirs as [|d0 ds IH]; intros [r depth isLast children relPath] d;
    cbn [tree.sortTreeFrom placement.sits TreeNode.Children].
  - intros (c & Hc & Hr).
    destruct (SortChildren_list_has (map (tree.sortTreeFrom (incr d)) children)
                (tree.sortTreeFrom (incr d) c)) as [b Hb].
    { change (map ?f ?x) with (f <$> x). apply list_elem_of_fmap. exists c. auto. }
    eexists. split; [exact Hb|].
    rewrite <- Hr. destruct c. reflexivity.
  - intros (c & Hc & Hn & Hs).
    destruct (SortChildren_list_has (map (tree.sortTreeFrom (incr d)) children)
                (tree.sortTreeFrom (incr d) c)) as [b Hb].
    { change (map ?f ?x) with (f <$> x). apply list_elem_of_fmap. exists c. auto. }
    eexists. split; [exact Hb|]. split.
    + rewrite <- Hn. destruct c. reflexivity.
    + apply sits_with_IsLast. apply IH. exact Hs.
Qed.

(** The loop of [Build] over the repositories. *)
#[local] Abbreviation inserted rootPath repos root :=
  (fold_left
     (fun root repo =>
        match filepath.Rel fp rootPath (Repository.Path repo) with
        | Err _ => root
        | Ok relPath => tree.insertIntoTree fp root repo relPath rootPath
        end)
     repos root).

Lemma inserted_preserves rootPath (repos : list Repository.t) :
  forall root dirs repo,
    placement.sits dirs repo root -> placement.sits dirs repo (inserted rootPath repos root).
Proof.
  induction repos as [|r repos IH]; intros root dirs repo H; [exact H|].
  simpl. apply IH.
  destruct (filepath.Rel fp rootPath (Repository.Path r)); [|exact H].
  apply insertFrom_preserves. exact H.
Qed.

(** X10.  [Build] loses no repository: each repository of the list whose
    path [filepath.Rel] can express relative to the root sits in the tree
    below the chain of directories that its relative path names, one node
    per path component. *)
Theorem Build_places_every_repository
    (rootPath : string) (repos : list Repository.t) (opts : option tree.FormatOptions)
    repo (relPath : string)
    (Hrepo : repo ∈ repos)
    (Hrel : filepath.Rel fp rootPath (Repository.Path repo) = Ok relPath) :
  placement.sits (removelast (filepath.splitSlash relPath)) repo
                 (tree.Build fp rootPath repos opts).
Proof.
  unfold tree.Build, tree.sortTree. apply sortTreeFrom_sits.
  apply list_elem_of_split in Hrepo. destruct Hrepo as (l1 & l2 & ->).
  rewrite fold_left_app. simpl. rewrite Hrel.
  apply inserted_preserves. apply insertFrom_sits.
Qed.

End Placement.

Lemma Build_places_every_repository_witness :
  placement.sits ["libs"]
    (Repository.mk "/work/libs/core" "core" false false None None false)
    (tree.Build filepath.unix "/work" examples.discovered None).
Proof.
  refine (Build_places_every_repository filepath.unix "/work" examples.discovered None
            (Repository.mk "/work/libs/core" "core" false false None None false)
            "libs/core" _ eq_refl).
  repeat constructor.
Defined.

(** ** What [Format] reads of a tree, and what it writes *)

Section FormatFacts.

Variable c : Palette.

Implicit Types (node n : TreeNode.t) (prefix : string) (isLast : bool).

(** The loop over the children in [formatNode] and in [Format]. *)
#[local] Abbreviation each prefix :=
  (fix children (l : list TreeNode.t) : string :=
     match l with
     | [] => ""
     | [child] => tree.formatNode c child prefix true
     | child :: rest => tree.formatNode c child prefix false +:+ children rest
     end).

Lemma each_cons prefix (child : TreeNode.t) (rest : list TreeNode.t) :
  each prefix (child :: rest)
  = tree.formatNode c child prefix (bool_decide (rest = [])) +:+ each prefix rest.
Proof.
  destruct rest as [|x rest]; [|reflexivity].
  simpl. symmetry. apply append_empty_r.
Qed.

Lemma each_skeleton prefix (l : list TreeNode.t) :
  Forall (fun child => forall prefix isLast,
            tree.formatNode c (outline.skeleton child) prefix isLast
            = tree.formatNode c child prefix isLast) l ->
  each prefix (map outline.skeleton l) = each prefix l.
Proof.
  induction 1 as [|child rest H _ IH]; [reflexivity|].
  change (map outline.skeleton (child :: rest))
    with (outline.skeleton child :: map outline.skeleton rest).
  rewrite !each_cons, H, IH. do 2 f_equal.
  destruct rest; reflexivity.
Qed.

Lemma formatNode_skeleton node :
  forall prefix isLast,
    tree.formatNode c (outline.skeleton node) prefix isLast
    = tree.formatNode c node prefix isLast.
Proof.
  induction node as [repo depth last children relPath IH] using TreeNode_induction.
  intros prefix isLast.
  cbn [tree.formatNode outline.skeleton TreeNode.Repository TreeNode.Children].
  rewrite (each_skeleton _ children IH). reflexivity.
Qed.

(** X12.  [Format] reads of a tree the repositories and the order of the
    children, nothing else: blanking [Depth], [IsLast] and [RelativePath]
    in every node leaves the text as it is.  The connectors are drawn from
    the place of a node among its siblings, not from its [IsLast]. *)
Theorem Format_reads_repositories_and_order_only
    (root : TreeNode.t) (opts : option tree.FormatOptions) :
  tree.Format c (Some (outline.skeleton root)) opts = tree.Format c (Some root) opts.
Proof.
  destruct root as [repo depth last children relPath].
  unfold tree.Format.
  cbn [outline.skeleton TreeNode.Children].
  rewrite length_map.
  destruct (Z.of_nat (length children) =? 0); [reflexivity|].
  f_equal. apply each_skeleton.
  apply Forall_forall. intros child _. apply formatNode_skeleton.
Qed.

End FormatFacts.

Section BareMarker.

Implicit Types (a b sub : string).

Lemma prefix_append sub a b : String.prefix sub a = true -> String.prefix sub (a +:+ b) = true.
Proof.
  revert a. induction sub as [|x sub IH]; intros a.
  - intros _. destruct (a +:+ b); reflexivity.
  - destruct a as [|y a]; simpl; [discriminate|].
    destruct (Ascii.ascii_dec x y); [apply IH|discriminate].
Qed.

Lemma Contains_append_l a b sub :
  strings_Contains a sub = true -> strings_Contains (a +:+ b) sub = true.
Proof.
  induction a as [|x a IH]; simpl; intros H.
  - rewrite orb_false_r in H. destruct sub; [|discriminate].
    destruct b; reflexivity.
  - apply orb_true_iff in H. apply orb_true_iff. destruct H as [H|H].
    + left. apply (prefix_append sub (String x a) b H).
    + right. apply IH. exact H.
Qed.

Lemma Contains_append_r a b sub :
  strings_Contains b sub = true -> strings_Contains (a +:+ b) sub = true.
Proof.
  intros H. induction a as [|x a IH]; [exact H|].
  simpl. rewrite IH. apply orb_true_r.
Qed.

(** The branch name is part of the formatted status. *)
Lemma Format_holds_the_branch (g : GitStatus.t) sub :
  strings_Contains (GitStatus.Branch g) sub = true ->
  strings_Contains (GitStatus.Format noColor g) sub = true.
Proof.
  intros H. unfold GitStatus.Format, GitStatus.Format_parts.
  cbn [noColor grayColor yellowColor greenColor redColor id].
  assert (Hb : (if String.eqb (GitStatus.Branch g) "main" || String.eqb (GitStatus.Branch g) "master"
                then GitStatus.Branch g else GitStatus.Branch g) = GitStatus.Branch g)
    by (destruct (_ || _); reflexivity).
  rewrite Hb. cbn [app].
  set (rest := _ ++ _).
  assert (Hin : forall tail, strings_Contains ("[[" +:+ " " +:+ GitStatus.Branch g +:+ tail) sub
                             = true).
  { intros tail. apply (Contains_append_r "[["). apply (Contains_append_r " ").
    apply Contains_append_l. exact H. }
  destruct rest as [|r rest]; destruct (negb _);
    first [apply Hin | apply Contains_append_l; apply Hin].
Qed.

(** X13.  A bare repository whose branch name holds the letters [bare]
    is written without the marker [bare]: its line, and all that follows
    it, is what the same repository would get were it not bare. *)
Theorem bare_marker_hides_behind_the_branch_name
    (path name : string) (isSymlink : bool) (g : GitStatus.t) (err : option error)
    (hasTimeout : bool) (depth : int) (last : bool) (children : list TreeNode.t)
    (relPath prefix : string) (isLast : bool)
    (Hbranch : strings_Contains (GitStatus.Branch g) "bare" = true) :
  tree.formatNode noColor
    (TreeNode.mk (Repository.mk path name true isSymlink (Some g) err hasTimeout)
                 depth last children relPath) prefix isLast
  = tree.formatNode noColor
      (TreeNode.mk (Repository.mk path name false isSymlink (Some g) err hasTimeout)
                   depth last children relPath) prefix isLast.
Proof.
  cbn [tree.formatNode TreeNode.Repository TreeNode.Children Repository.GitStatus
       Repository.IsBare Repository.Name Repository.Error Repository.HasTimeout].
  rewrite (Format_holds_the_branch g "bare" Hbranch). reflexivity.
Qed.

End BareMarker.

Lemma bare_marker_hides_behind_the_branch_name_witness :
  strings_Contains "barebones" "bare" = true /\
  tree.formatNode noColor
    (TreeNode.mk (Repository.mk "/srv/x.git" "x.git" true false
                    (Some (GitStatus.mk "barebones" false false 0 0 false false ""))
                    None false)
                 1 true [] "x.git") "" true
  = "└── x.git [[ barebones | ○ ]]" +:+ String "010" "".
Proof.
  split; [reflexivity|].
  rewrite (bare_marker_hides_behind_the_branch_name
             "/srv/x.git" "x.git" false
             (GitStatus.mk "barebones" false false 0 0 false false "")
             None false 1 true [] "x.git" "" true eq_refl).
  vm_compute. reflexivity.
Defined.

(** ** One line for each node *)

Section Lines.

Variable c : Palette.
Hypothesis colours : outline.keepsLines c.

Implicit Types (a b : string) (n node : TreeNode.t) (g : GitStatus.t).

Lemma lineFeeds_append a b :
  outline.lineFeeds (a +:+ b) = (outline.lineFeeds a + outline.lineFeeds b)%nat.
Proof.
  induction a as [|x a IH]; [reflexivity|].
  rewrite append_cons. simpl. rewrite IH. lia.
Qed.

Lemma lineFeeds_digits (d : Decimal.uint) :
  outline.lineFeeds (NilEmpty.string_of_uint d) = 0%nat.
Proof. induction d; simpl; auto. Qed.

Lemma lineFeeds_itoa (k : int) : outline.lineFeeds (itoa k) = 0%nat.
Proof.
  unfold itoa, NilZero.string_of_int, NilZero.string_of_uint.
  destruct (Z.to_int k) as [d|d]; destruct d; simpl; rewrite ?lineFeeds_digits; reflexivity.
Qed.

Lemma lineFeeds_Join (parts : list string) :
  Forall (fun p => outline.lineFeeds p = 0%nat) parts ->
  outline.lineFeeds (strings_Join parts " ") = 0%nat.
Proof.
  induction 1 as [|p rest Hp Hrest IH]; [reflexivity|].
  destruct rest as [|q rest]; [exact Hp|].
  change (strings_Join (p :: q :: rest) " ") with (p +:+ " " +:+ strings_Join (q :: rest) " ").
  rewrite !lineFeeds_append, Hp, IH. reflexivity.
Qed.

Ltac colourless :=
  repeat match goal with
         | |- context [outline.lineFeeds (grayColor c ?s)] =>
             rewrite (proj1 (colours s))
         | |- context [outline.lineFeeds (yellowColor c ?s)] =>
             rewrite (proj1 (proj2 (colours s)))
         | |- context [outline.lineFeeds (greenColor c ?s)] =>
             rewrite (proj1 (proj2 (proj2 (colours s))))
         | |- context [outline.lineFeeds (redColor c ?s)] =>
             rewrite (proj2 (proj2 (proj2 (colours s))))
         end.

(** A status is written on the line of its repository. *)
Lemma lineFeeds_Format g :
  outline.lineFeeds (GitStatus.Format c g) = outline.lineFeeds (GitStatus.Branch g).
Proof.
  unfold GitStatus.Format, GitStatus.Format_parts.
  set (p0 := if _ || _ then _ else _).
  assert (H0 : outline.lineFeeds p0 = outline.lineFeeds (GitStatus.Branch g)).
  { subst p0. destruct (_ || _); colourless; reflexivity. }
  cbn [app]. set (rest := _ ++ _).
  assert (Hrest : Forall (fun p => outline.lineFeeds p = 0%nat) rest).
  { subst rest. repeat apply Forall_app_2;
      repeat match goal with |- context [if ?b then _ else _] => destruct b end;
      repeat constructor; colourless; rewrite ?lineFeeds_append, ?lineFeeds_itoa; reflexivity. }
  clearbody p0 rest.
  pose proof (lineFeeds_Join rest Hrest) as HJ.
  destruct rest as [|r rest]; destruct (negb _);
    rewrite ?lineFeeds_append; colourless; rewrite ?HJ, H0; simpl; lia.
Qed.

#[local] Abbreviation lines prefix :=
  (fix children (l : list TreeNode.t) : string :=
     match l with
     | [] => ""
     | [child] => tree.formatNode c child prefix true
     | child :: rest => tree.formatNode c child prefix false +:+ children rest
     end).

#[local] Abbreviation below :=
  (fix below (l : list TreeNode.t) : list TreeNode.t :=
     match l with
     | [] => []
     | child :: rest => shape.nodes child ++ below rest
     end).

Lemma lines_lineFeeds prefix (l : list TreeNode.t) :
  Forall (fun child => forall prefix isLast,
            outline.lineFeeds prefix = 0%nat ->
            outline.lineFeeds (tree.formatNode c child prefix isLast)
            = length (shape.nodes child)) l ->
  outline.lineFeeds prefix = 0%nat ->
  outline.lineFeeds (lines prefix l) = length (below l).
Proof.
  intros H Hp. induction H as [|child rest Hc _ IH]; [reflexivity|].
  rewrite (each_cons c prefix child rest), lineFeeds_append, length_app, IH, Hc by exact Hp.
  reflexivity.
Qed.

Lemma below_elem_of (l : list TreeNode.t) x :
  x ∈ below l <-> exists child, child ∈ l /\ x ∈ shape.nodes child.
Proof.
  induction l as [|child rest IH].
  - split; [intros H; inversion H|intros (child & H & _); inversion H].
  - rewrite elem_of_app, IH. split.
    + intros [H|(ch & Hch & H)].
      * exists child. split; [apply elem_of_cons; left; reflexivity|exact H].
      * exists ch. split; [apply elem_of_cons; right; exact Hch|exact H].
    + intros (ch & Hch & H). apply elem_of_cons in Hch. destruct Hch as [->|Hch]; eauto.
Qed.

(** A node and all below it take as many lines as they are nodes. *)
Lemma formatNode_lineFeeds node :
  (forall n, n ∈ shape.nodes node -> outline.onOneLine n) ->
  forall prefix isLast,
    outline.lineFeeds prefix = 0%nat ->
    outline.lineFeeds (tree.formatNode c node prefix isLast) = length (shape.nodes node).
Proof.
  induction node as [repo depth last children relPath IH] using TreeNode_induction.
  intros Hall prefix isLast Hp.
  assert (Hkids : outline.lineFeeds
                    (lines (if isLast then prefix +:+ "    " else prefix +:+ "│   ") children)
                  = length (below children)).
  { apply lines_lineFeeds.
    - rewrite Forall_forall in IH. apply Forall_forall. intros child Hchild.
      apply (IH child Hchild). intros n Hn. apply Hall.
      apply elem_of_nodes. right. exists child. auto.
    - destruct isLast; rewrite lineFeeds_append, Hp; reflexivity. }
  destruct (Hall (TreeNode.mk repo depth last children relPath)) as [Hname Hbranch].
  { apply elem_of_nodes. left. reflexivity. }
  unfold TreeNode.Name in Hname. cbn [TreeNode.Repository] in Hname, Hbranch.
  cbn [tree.formatNode shape.nodes TreeNode.Repository TreeNode.Children length].
  rewrite <- Hkids. clear Hkids IH Hall.
  set (kids := lines _ children). clearbody kids.
  assert (Hconn : outline.lineFeeds (if isLast then "└── " else "├── ") = 0%nat)
    by (destruct isLast; reflexivity).
  destruct repo as [path name isBare isSymlink [g|] err hasTimeout];
    cbn [Repository.GitStatus Repository.Error Repository.HasTimeout Repository.IsBare
         Repository.Name] in *.
  - specialize (Hbranch g eq_refl).
    destruct (hasTimeout && _); destruct (isBare && _); destruct err;
      rewrite ?lineFeeds_append, ?lineFeeds_Format, Hp, Hconn, Hname, Hbranch; simpl; lia.
  - destruct err; rewrite ?lineFeeds_append, Hp, Hconn, Hname; simpl; lia.
Qed.

(** X14.  [Format] writes one line for each node below the root, and one
    more for the root when it is shown, provided no name, no branch and
    no root label holds a line feed and the colours add none. *)
Theorem Format_writes_one_line_per_node
    (root : TreeNode.t) (opts : option tree.FormatOptions)
    (Hlabel : outline.lineFeeds (tree.RootLabel (tree.orDefault opts)) = 0%nat)
    (Hnodes : forall child n, child ∈ TreeNode.Children root -> n ∈ shape.nodes child ->
                              outline.onOneLine n) :
  outline.lineFeeds (tree.Format c (Some root) opts)
  = ((if tree.ShowRoot (tree.orDefault opts) then 1 else 0)
     + (length (shape.nodes root) - 1))%nat.
Proof.
  destruct root as [repo depth last children relPath].
  unfold tree.Format. cbn [TreeNode.Children shape.nodes length] in *.
  assert (Hkids : outline.lineFeeds (lines "" children) = length (below children)).
  { apply lines_lineFeeds; [|reflexivity].
    apply Forall_forall. intros child Hchild. apply formatNode_lineFeeds.
    intros n Hn. exact (Hnodes child n Hchild Hn). }
  replace (S (length (below children)) - 1)%nat with (length (below children)) by lia.
  rewrite <- Hkids.
  destruct (Z.of_nat (length children) =? 0) eqn:E.
  - destruct children; [|discriminate]. 
    destruct (tree.ShowRoot _); rewrite ?lineFeeds_append, ?Hlabel; reflexivity.
  - destruct (tree.ShowRoot _); rewrite ?lineFeeds_append, ?Hlabel; reflexivity.
Qed.

End Lines.

Lemma noColor_keepsLines : outline.keepsLines noColor.
Proof. intros s. repeat split. Qed.

Lemma Format_writes_one_line_per_node_witness :
  outline.lineFeeds
    (tree.Format noColor
       (Some (tree.Build filepath.unix "/work" examples.discovered None)) None)
  = 5%nat.
Proof.
  refine (Format_writes_one_line_per_node noColor noColor_keepsLines
            (tree.Build filepath.unix "/work" examples.discovered None) None eq_refl _).
  assert (H : Forall (fun child => Forall outline.onOneLine (shape.nodes child))
                     (TreeNode.Children
                        (tree.Build filepath.unix "/work" examples.discovered None))).
  { let v := eval vm_compute in
             (TreeNode.Children (tree.Build filepath.unix "/work" examples.discovered None)) in
    change (TreeNode.Children (tree.Build filepath.unix "/work" examples.discovered None))
      with v.
    repeat (apply List.Forall_cons || apply List.Forall_nil);
      simpl; repeat (apply List.Forall_cons || apply List.Forall_nil);
      (split; [reflexivity|intros g Hg; discriminate]). }
  intros child n Hchild Hn.
  rewrite Forall_forall in H. specialize (H child Hchild).
  rewrite Forall_forall in H. exact (H n Hn).
Defined.

(** ** The scan: what every walk keeps *)

Section WalkInvariant.

Variable fn : string -> scanner.Visit -> scanner.Run -> scanner.Run * option error.

(** What is true of the paths the walk function is called with, and of the
    state of the walk. *)
Variables (P : string -> Prop) (I : scanner.Run -> Prop).

Hypothesis P_join : forall path name, P path -> P (filepath.joinName path name).
Hypothesis I_step :
  forall path v r r' err, P path -> fn path v r = (r', err) -> I r -> I r'.

Lemma walkEntries_invariant path (entries : list os.Entry) :
  Forall (fun d => forall path r r' err,
            P path -> scanner.walkDir fn path d r = (r', err) -> I r -> I r') entries ->
  forall r r' err,
    P path -> scanner.walkEntries fn path entries r = (r', err) -> I r -> I r'.
Proof.
  induction entries as [|d1 rest IH]; intros Hall r r' err Hp; simpl.
  - intros [= <- _]. auto.
  - apply Forall_cons in Hall. destruct Hall as [H1 Hrest].
    destruct (scanner.walkDir fn (filepath.joinName path (os.Name d1)) d1 r)
      as [r1 err1] eqn:E1.
    intros Hres Hr.
    assert (I1 : I r1) by (eapply H1; [apply P_join; exact Hp|exact E1|exact Hr]).
    destruct err1 as [e1|].
    + assert (r' = r1) as -> by (destruct (bool_decide _); congruence). exact I1.
    + eapply IH; eauto.
Qed.

(** What every call of the walk function keeps, the walk keeps. *)
Lemma walkDir_invariant d :
  forall path r r' err,
    P path -> scanner.walkDir fn path d r = (r', err) -> I r -> I r'.
Proof.
  induction d as [n ino|n t|n info entries IH] using Entry_induction;
    intros path r r' err Hp; rewrite walkDir_unfold;
    destruct (fn path (scanner.Entered _) r) as [r1 [e1|]] eqn:E;
    intros Hres Hr;
    assert (I1 : I r1) by (eapply I_step; eauto);
    try (injection Hres as <- _; exact I1).
  destruct (os.ReadDirErr info) as [en|].
  - destruct (fn path (scanner.Failed _ _) r1) as [r2 [e2|]] eqn:E2;
      injection Hres as <- _; eapply I_step; eauto.
  - eapply walkEntries_invariant; eauto.
Qed.

End WalkInvariant.

Section ScanKeeps.

Variables (fp : filepath.API) (ctx : scanner.Context).

Implicit Types (r : scanner.Run) (d : os.Entry) (path : string).

(** The counters of a walk: as long as the calls of the walk function fit
    an [int], the directories counted are no more than the calls and no
    fewer than the repositories found. *)
#[local] Abbreviation counted r :=
  (Z.of_nat (scanner.calls r) <= maxInt ->
   Z.of_nat (length (scanner.repositories (scanner.sc r))) <= scanner.dirCount (scanner.sc r)
   /\ scanner.dirCount (scanner.sc r) <= Z.of_nat (scanner.calls r)).

Lemma shouldVisit_counts path d (s : scanner.scanner) :
  scanner.dirCount (fst (scanner.shouldVisit path d s)) = scanner.dirCount s.
Proof.
  unfold scanner.shouldVisit.
  destruct (os.Lstat path d) as [info|e]; [|reflexivity].
  destruct (os.fi_IsSymlink info).
  - destruct (os.Stat path d) as [info'|e]; [|reflexivity].
    destruct (negb _); [reflexivity|].
    destruct (os.fi_Ino info'); [|reflexivity]. destruct (default _ _); reflexivity.
  - destruct (os.fi_Ino info); [|reflexivity]. destruct (default _ _); reflexivity.
Qed.

Lemma walkFunc_counted path (v : scanner.Visit) r r' (err : option error) :
  scanner.walkFunc fp ctx path v r = (r', err) -> counted r -> counted r'.
Proof.
  unfold scanner.walkFunc.
  destruct (scanner.ctx_Err ctx (scanner.calls r)).
  { intros [= <- _]. simpl. lia. }
  destruct v as [d|d e].
  - destruct (os.IsDir d); cbn [negb]; [|intros [= <- _]; simpl; lia].
    pose proof (shouldVisit_counts path d (scanner.count_dir (scanner.sc
                  (scanner.mkRun (scanner.sc r) (scanner.probes r) (S (scanner.calls r))))))
      as Hc.
    pose proof (shouldVisit_repositories path d (scanner.count_dir (scanner.sc
                  (scanner.mkRun (scanner.sc r) (scanner.probes r) (S (scanner.calls r))))))
      as Hr.
    destruct (scanner.shouldVisit path d _) as [s [[visit isSymlink] [e|]]];
      cbn [fst scanner.count_dir scanner.sc scanner.dirCount scanner.repositories] in Hc, Hr.
    + destruct visit; intros [= <- _] H Hb; simpl in *; rewrite Hc, Hr;
        rewrite incr_small by lia; lia.
    + destruct visit.
      * destruct (scanner.IsGitRepository path d) as [[|] bare];
          intros [= <- _] H Hb; simpl in *; rewrite ?length_app, Hc, Hr;
          rewrite incr_small by lia; simpl; lia.
      * intros [= <- _] H Hb; simpl in *; rewrite Hc, Hr; rewrite incr_small by lia; lia.
  - destruct (os_IsPermission e); intros [= <- _]; simpl; lia.
Qed.

Lemma Scan_walk_counted (w : scanner.World) (absPath : string) :
  counted (fst (scanner.Scan_walk w fp ctx absPath)).
Proof.
  unfold scanner.Scan_walk, scanner.WalkDir.
  set (r0 := scanner.mkRun _ _ _).
  assert (H0 : counted r0) by (simpl; lia).
  destruct (scanner.LstatRoot w absPath) as [d|e].
  - destruct (scanner.walkDir _ absPath d r0) as [r' err] eqn:E.
    assert (H : counted r').
    { refine (walkDir_invariant (scanner.walkFunc fp ctx) (fun _ => True)
                (fun r => counted r) _ _ d absPath r0 r' err I E H0); [auto|].
      intros path v r1 r2 err' _. apply walkFunc_counted. }
    destruct err as [e|]; [destruct (_ || _)|]; exact H.
  - destruct (scanner.walkFunc fp ctx absPath _ r0) as [r' err] eqn:E.
    pose proof (walkFunc_counted _ _ _ _ _ E H0) as H.
    destruct err as [e'|]; [destruct (_ || _)|]; exact H.
Qed.

End ScanKeeps.

(** X15.  What [Scan] returns passes [ScanResult.Validate], given that
    [filepath.Abs] answers with an absolute path, the clock does not run
    backwards and the walk makes no more calls than an [int] can count:
    [TotalRepos] is the length of [Repositories], and [TotalScanned],
    the directories entered, is no less. *)
Theorem Scan_result_passes_Validate
    (w : scanner.World) (fp : filepath.API) (ctx : scanner.Context)
    (opts : scanner.ScanOptions) (res : ScanResult.t) (absPath : string)
    (Habs : filepath.Abs fp (scanner.RootPath opts) = Ok absPath)
    (Habsolute : filepath_IsAbs absPath = true)
    (Hclock : 0 <= scanner.elapsed w)
    (Hcalls : Z.of_nat (scanner.calls (fst (scanner.Scan_walk w fp ctx absPath))) <= maxInt)
    (Hscan : scanner.Scan w fp ctx opts = (Some res, None)) :
  ScanResult.Validate res = None /\
  ScanResult.TotalRepos res = Z.of_nat (length (ScanResult.Repositories res)) /\
  ScanResult.TotalRepos res <= ScanResult.TotalScanned res.
Proof.
  pose proof (Scan_walk_counted fp ctx w absPath Hcalls) as [Hrepos _].
  revert Hscan. unfold scanner.Scan. rewrite Habs.
  destruct (scanner.StatRoot w (scanner.RootPath opts)) as [[|]|e]; try discriminate.
  cbn [negb].
  destruct (scanner.Scan_walk w fp ctx absPath) as [r err]. cbn [fst] in Hrepos.
  destruct (match err with
            | Some e => if negb (errors_Is e context_Canceled) then Some e else None
            | None => None
            end); [discriminate|].
  intros [= <-].
  unfold ScanResult.Validate, ScanResult.Validate_fields.
  cbn [ScanResult.RootPath ScanResult.Repositories ScanResult.Tree ScanResult.TotalScanned
       ScanResult.TotalRepos ScanResult.Duration].
  assert (Hne : String.eqb absPath "" = false).
  { destruct absPath; [discriminate Habsolute|reflexivity]. }
  rewrite Hne, Habsolute, Z.eqb_refl. cbn [negb].
  destruct (Z.ltb_spec (scanner.dirCount (scanner.sc r))
                       (Z.of_nat (length (scanner.repositories (scanner.sc r)))));
    [lia|].
  destruct (Z.ltb_spec (scanner.elapsed w) 0); [lia|].
  auto.
Qed.

Section ScanFinds.

Variables (fp : filepath.API) (ctx : scanner.Context) (root : string).

Implicit Types (r : scanner.Run) (d : os.Entry) (path : string).

Lemma within_trans (a b p : string) :
  paths.within a b -> paths.within b p -> paths.within a p.
Proof.
  intros Hab [->|[rest ->]]; [exact Hab|].
  destruct (dirPrefix_within a b Hab) as [t ->].
  right. exists (t +:+ rest). apply append_assoc.
Qed.

Lemma within_child path (name : string) :
  paths.within root path -> paths.within root (filepath.joinName path name).
Proof.
  intros H. apply (within_trans root path); [exact H|].
  right. exists name. reflexivity.
Qed.

(** On a directory [os.Lstat] reports no symbolic link. *)
Lemma shouldVisit_directory path d (s : scanner.scanner) :
  os.IsDir d = true ->
  snd (fst (snd (scanner.shouldVisit path d s))) = false.
Proof.
  destruct d as [n ino|n t|n info entries]; try discriminate. intros _.
  unfold scanner.shouldVisit. simpl.
  destruct (os.LstatErr info); [reflexivity|]. simpl.
  destruct (os.Ino info); [|reflexivity]. destruct (default _ _); reflexivity.
Qed.

Lemma walkFunc_fresh path (v : scanner.Visit) r r' (err : option error) :
  paths.within root path ->
  scanner.walkFunc fp ctx path v r = (r', err) ->
  Forall (found.fresh fp root) (scanner.repositories (scanner.sc r)) ->
  Forall (found.fresh fp root) (scanner.repositories (scanner.sc r')).
Proof.
  intros Hpath. unfold scanner.walkFunc.
  destruct (scanner.ctx_Err ctx (scanner.calls r)); [intros [= <- _]; auto|].
  destruct v as [d|d e].
  - destruct (os.IsDir d) eqn:Hd; cbn [negb]; [|intros [= <- _]; auto].
    pose proof (shouldVisit_directory path d (scanner.count_dir (scanner.sc
                  (scanner.mkRun (scanner.sc r) (scanner.probes r) (S (scanner.calls r)))))
                  Hd) as Hs.
    pose proof (shouldVisit_repositories path d (scanner.count_dir (scanner.sc
                  (scanner.mkRun (scanner.sc r) (scanner.probes r) (S (scanner.calls r))))))
      as Hr.
    destruct (scanner.shouldVisit path d _) as [s [[visit isSymlink] [e|]]];
      cbn [fst snd scanner.count_dir scanner.sc scanner.repositories] in Hs, Hr; subst.
    + destruct visit; intros [= <- _]; simpl; rewrite Hr; auto.
    + destruct visit.
      * destruct (scanner.IsGitRepository path d) as [[|] bare];
          intros [= <- _] H; simpl; rewrite Hr; [|exact H].
        apply Forall_app. split; [exact H|].
        constructor; [|constructor]. repeat split. exact Hpath.
      * intros [= <- _]. simpl. rewrite Hr. auto.
  - destruct (os_IsPermission e); intros [= <- _]; auto.
Qed.

Lemma Scan_walk_fresh (w : scanner.World) :
  Forall (found.fresh fp root)
         (scanner.repositories (scanner.sc (fst (scanner.Scan_walk w fp ctx root)))).
Proof.
  unfold scanner.Scan_walk, scanner.WalkDir.
  set (r0 := scanner.mkRun _ _ _).
  assert (H0 : Forall (found.fresh fp root) (scanner.repositories (scanner.sc r0)))
    by constructor.
  assert (Hroot : paths.within root root) by (left; reflexivity).
  destruct (scanner.LstatRoot w root) as [d|e].
  - destruct (scanner.walkDir _ root d r0) as [r' err] eqn:E.
    assert (H : Forall (found.fresh fp root) (scanner.repositories (scanner.sc r'))).
    { refine (walkDir_invariant (scanner.walkFunc fp ctx) (paths.within root)
                (fun r => Forall (found.fresh fp root) (scanner.repositories (scanner.sc r)))
                _ _ d root r0 r' err Hroot E H0).
      - intros path name. apply within_child.
      - intros path v r1 r2 err'. apply walkFunc_fresh. }
    destruct err as [e|]; [destruct (_ || _)|]; exact H.
  - destruct (scanner.walkFunc fp ctx root _ r0) as [r' err] eqn:E.
    pose proof (walkFunc_fresh _ _ _ _ _ Hroot E H0) as H.
    destruct err as [e'|]; [destruct (_ || _)|]; exact H.
Qed.

End ScanFinds.

(** X16.  Every repository that [Scan] reports lies at the root or below
    it and is named by [filepath.Base] of its path; it carries no status,
    no error and no timeout, and its [IsSymlink] is [false]: the walk
    hands over no symbolic link as a directory, so the flag is never
    set. *)
Theorem Scan_reports_plain_directories_below_the_root
    (w : scanner.World) (fp : filepath.API) (ctx : scanner.Context)
    (opts : scanner.ScanOptions) (res : ScanResult.t) (repo : Repository.t)
    (Hscan : scanner.Scan w fp ctx opts = (Some res, None))
    (Hrepo : repo ∈ ScanResult.Repositories res) :
  paths.within (ScanResult.RootPath res) (Repository.Path repo) /\
  Repository.Name repo = filepath.Base fp (Repository.Path repo) /\
  Repository.IsSymlink repo = false /\
  Repository.GitStatus repo = None /\
  Repository.Error repo = None /\
  Repository.HasTimeout repo = false.
Proof.
  destruct (Scan_result w fp ctx opts res Hscan) as (absPath & _ & Hroot & Hrepos & _).
  pose proof (Scan_walk_fresh fp ctx absPath w) as H.
  rewrite <- Hrepos in H. rewrite Forall_forall in H.
  rewrite Hroot. exact (H repo Hrepo).
Qed.

(** ** The diagnostics of a scan *)

Section Diagnostics.

Variables (fp : filepath.API) (ctx : scanner.Context) (root : string).

Implicit Types (r : scanner.Run) (d : os.Entry) (path : string).

Lemma shouldVisit_errors path d (s : scanner.scanner) :
  scanner.errors (fst (scanner.shouldVisit path d s)) = scanner.errors s.
Proof.
  unfold scanner.shouldVisit.
  destruct (os.Lstat path d) as [info|e]; [|reflexivity].
  destruct (os.fi_IsSymlink info).
  - destruct (os.Stat path d) as [info'|e]; [|reflexivity].
    destruct (negb _); [reflexivity|].
    destruct (os.fi_Ino info'); [|reflexivity]. destruct (default _ _); reflexivity.
  - destruct (os.fi_Ino info); [|reflexivity]. destruct (default _ _); reflexivity.
Qed.

(** On a directory [shouldVisit] fails only when [os.Lstat] does. *)
Lemma shouldVisit_failure path d (s : scanner.scanner) (e : error) :
  os.IsDir d = true ->
  snd (snd (scanner.shouldVisit path d s)) = Some e ->
  exists errno, e = PathError "lstat" path errno.
Proof.
  destruct d as [n ino|n t|n info entries]; try discriminate. intros _.
  unfold scanner.shouldVisit. simpl.
  destruct (os.LstatErr info) as [errno|]; simpl.
  - intros [= <-]. eauto.
  - destruct (os.Ino info); [|discriminate]. destruct (default _ _); discriminate.
Qed.

Lemma walkFunc_diagnostics path (v : scanner.Visit) r r' (err : option error) :
  paths.within root path ->
  scanner.walkFunc fp ctx path v r = (r', err) ->
  Forall (found.diagnostic root) (scanner.errors (scanner.sc r)) ->
  Forall (found.diagnostic root) (scanner.errors (scanner.sc r')).
Proof.
  intros Hpath. unfold scanner.walkFunc.
  destruct (scanner.ctx_Err ctx (scanner.calls r)); [intros [= <- _]; auto|].
  destruct v as [d|d e].
  - destruct (os.IsDir d) eqn:Hd; cbn [negb]; [|intros [= <- _]; auto].
    pose proof (shouldVisit_failure path d (scanner.count_dir (scanner.sc
                  (scanner.mkRun (scanner.sc r) (scanner.probes r) (S (scanner.calls r)))))) as Hf.
    pose proof (shouldVisit_errors path d (scanner.count_dir (scanner.sc
                  (scanner.mkRun (scanner.sc r) (scanner.probes r) (S (scanner.calls r))))))
      as He.
    destruct (scanner.shouldVisit path d _) as [s [[visit isSymlink] [e|]]];
      cbn [fst snd scanner.count_dir scanner.sc scanner.errors] in Hf, He.
    + destruct (Hf e Hd eq_refl) as [errno ->].
      destruct visit; intros [= <- _] H; simpl; rewrite He;
        (apply Forall_app; split; [exact H|]); apply Forall_singleton;
        right; exists path, errno; (split; [exact Hpath|reflexivity]).
    + destruct visit.
      * destruct (scanner.IsGitRepository path d) as [[|] bare];
          intros [= <- _] H; simpl; rewrite He; exact H.
      * intros [= <- _]. simpl. rewrite He. auto.
  - destruct (os_IsPermission e); intros [= <- _] H; [|exact H].
    simpl. apply Forall_app. split; [exact H|]. apply Forall_singleton.
    left. exists path. split; [exact Hpath|reflexivity].
Qed.

Lemma Scan_walk_diagnostics (w : scanner.World) :
  Forall (found.diagnostic root)
         (scanner.errors (scanner.sc (fst (scanner.Scan_walk w fp ctx root)))).
Proof.
  unfold scanner.Scan_walk, scanner.WalkDir.
  set (r0 := scanner.mkRun _ _ _).
  assert (H0 : Forall (found.diagnostic root) (scanner.errors (scanner.sc r0)))
    by constructor.
  assert (Hroot : paths.within root root) by (left; reflexivity).
  destruct (scanner.LstatRoot w root) as [d|e].
  - destruct (scanner.walkDir _ root d r0) as [r' err] eqn:E.
    assert (H : Forall (found.diagnostic root) (scanner.errors (scanner.sc r'))).
    { refine (walkDir_invariant (scanner.walkFunc fp ctx) (paths.within root)
                (fun r => Forall (found.diagnostic root) (scanner.errors (scanner.sc r)))
                _ _ d root r0 r' err Hroot E H0).
      - intros path name. apply within_child.
      - intros path v r1 r2 err'. apply walkFunc_diagnostics. }
    destruct err as [e|]; [destruct (_ || _)|]; exact H.
  - destruct (scanner.walkFunc fp ctx root _ r0) as [r' err] eqn:E.
    pose proof (walkFunc_diagnostics _ _ _ _ _ Hroot E H0) as H.
    destruct err as [e'|]; [destruct (_ || _)|]; exact H.
Qed.

End Diagnostics.

(** X23.  The [Errors] of a scan result hold two kinds of diagnostic and
    no other: ["permission denied: <path>: permission denied"], which
    wraps [errPermissionDenied], for a directory that could not be read,
    and ["error checking path <path>: ..."] around the failure of
    [os.Lstat] on a directory; each names a path at the root or below
    it.  Any other failure is not recorded: it ends the walk. *)
Theorem Scan_records_two_kinds_of_diagnostic
    (w : scanner.World) (fp : filepath.API) (ctx : scanner.Context)
    (opts : scanner.ScanOptions) (res : ScanResult.t) (e : error)
    (Hscan : scanner.Scan w fp ctx opts = (Some res, None))
    (He : e ∈ ScanResult.Errors res) :
  found.diagnostic (ScanResult.RootPath res) e /\
  (errors_Is e scanner.errPermissionDenied = true \/
   exists path errno, errors_Is e (PathError "lstat" path errno) = true).
Proof.
  destruct (Scan_result w fp ctx opts res Hscan) as (absPath & _ & Hroot & _ & Herrors).
  pose proof (Scan_walk_diagnostics fp ctx absPath w) as H.
  rewrite <- Herrors in H. rewrite Forall_forall in H.
  rewrite Hroot. specialize (H e He). split; [exact H|].
  destruct H as [(path & _ & ->)|(path & errno & _ & ->)].
  - left. reflexivity.
  - right. exists path, errno. unfold wrapf. cbn [errors_Is].
    destruct (decide _) as [|_]; [reflexivity|].
    destruct (decide _) as [|N]; [reflexivity|]. destruct N. reflexivity.
Qed.

(** X17.  A root path that is a symbolic link to a directory passes the
    check of [Scan], but the walk does not follow it: the result has no
    repository, no directory counted and no diagnostic, whatever lies
    behind the link. *)
Theorem Scan_does_not_follow_a_link_at_the_root
    (w : scanner.World) (fp : filepath.API) (ctx : scanner.Context)
    (opts : scanner.ScanOptions) (absPath name : string) (target : os.LinkTarget)
    (Hstat : scanner.StatRoot w (scanner.RootPath opts) = Ok true)
    (Habs : filepath.Abs fp (scanner.RootPath opts) = Ok absPath)
    (Hlink : scanner.LstatRoot w absPath = Ok (os.Symlink name target))
    (Hctx : scanner.ctx_Err ctx 0 = None) :
  exists res,
    scanner.Scan w fp ctx opts = (Some res, None) /\
    ScanResult.Repositories res = [] /\
    ScanResult.TotalScanned res = 0 /\
    ScanResult.TotalRepos res = 0 /\
    ScanResult.Errors res = [] /\
    TreeNode.Children (ScanResult.Tree res) = [].
Proof.
  unfold scanner.Scan. rewrite Hstat, Habs. cbn [negb].
  unfold scanner.Scan_walk, scanner.WalkDir. rewrite Hlink.
  rewrite walkDir_unfold. unfold scanner.walkFunc.
  cbn [scanner.calls]. rewrite Hctx. cbn.
  eexists. split; [reflexivity|]. repeat split.
Qed.

(** ** The scan and a context that is done on the way *)

Section ContextFires.

Variables (fp : filepath.API) (ctx : scanner.Context) (k : nat).

Hypothesis fires : scanner.firesAt ctx = Some k.
Hypothesis no_skip : scanner.cause ctx <> scanner.fs_SkipDir
                     /\ scanner.cause ctx <> scanner.fs_SkipAll.

Implicit Types (r : scanner.Run) (d : os.Entry) (path : string).

(** After a call of the walk function: the context was not yet done, or
    the call answered with its error. *)
#[local] Abbreviation stopped r err :=
  ((scanner.calls r <= k)%nat \/ err = Some (scanner.cause ctx)).

Lemma walkFunc_calls path (v : scanner.Visit) r :
  scanner.calls (fst (scanner.walkFunc fp ctx path v r)) = S (scanner.calls r).
Proof.
  unfold scanner.walkFunc.
  destruct (scanner.ctx_Err ctx (scanner.calls r)); [reflexivity|].
  destruct v as [d|d e].
  - destruct (os.IsDir d); cbn [negb]; [|reflexivity].
    destruct (scanner.shouldVisit path d _) as [s [[visit isSymlink] [e|]]];
      [destruct visit; reflexivity|].
    destruct visit; [|reflexivity].
    destruct (scanner.IsGitRepository path d) as [[|] bare]; reflexivity.
  - destruct (os_IsPermission e); reflexivity.
Qed.

Lemma walkFunc_fires path (v : scanner.Visit) r r' (err : option error) :
  (scanner.calls r <= k)%nat ->
  scanner.walkFunc fp ctx path v r = (r', err) ->
  stopped r' err.
Proof.
  intros Hr E. pose proof (walkFunc_calls path v r) as Hc. rewrite E in Hc. cbn [fst] in Hc.
  destruct (decide (scanner.calls r = k)) as [Hk|Hk]; [|left; lia].
  right. revert E. unfold scanner.walkFunc, scanner.ctx_Err. rewrite fires.
  rewrite (proj2 (Nat.leb_le k (scanner.calls r))) by lia.
  intros [= _ <-]. reflexivity.
Qed.

Lemma walkEntries_fires path (entries : list os.Entry) :
  Forall (fun d => forall path r r' err,
            (scanner.calls r <= k)%nat ->
            scanner.walkDir (scanner.walkFunc fp ctx) path d r = (r', err) ->
            stopped r' err) entries ->
  forall r r' err,
    (scanner.calls r <= k)%nat ->
    scanner.walkEntries (scanner.walkFunc fp ctx) path entries r = (r', err) ->
    stopped r' err.
Proof.
  induction entries as [|d1 rest IH]; intros Hall r r' err Hr; simpl.
  - intros [= <- _]. left. exact Hr.
  - apply Forall_cons in Hall. destruct Hall as [H1 Hrest].
    destruct (scanner.walkDir _ (filepath.joinName path (os.Name d1)) d1 r)
      as [r1 err1] eqn:E1.
    destruct (H1 _ _ _ _ Hr E1) as [Hle | ->].
    + destruct err1 as [e1|]; [|apply IH; assumption].
      destruct (bool_decide _); intros [= <- _]; left; exact Hle.
    + rewrite bool_decide_eq_false_2 by apply no_skip.
      intros [= _ <-]. right. reflexivity.
Qed.

Lemma walkDir_fires d :
  forall path r r' err,
    (scanner.calls r <= k)%nat ->
    scanner.walkDir (scanner.walkFunc fp ctx) path d r = (r', err) ->
    stopped r' err.
Proof.
  assert (Hskip : forall (b : bool),
            (if bool_decide (scanner.cause ctx = scanner.fs_SkipDir) && b
             then None else Some (scanner.cause ctx)) = Some (scanner.cause ctx)).
  { intros b. rewrite bool_decide_eq_false_2 by apply no_skip. reflexivity. }
  induction d as [n ino|n t|n info entries IH] using Entry_induction;
    intros path r r' err Hr; rewrite walkDir_unfold;
    destruct (scanner.walkFunc fp ctx path (scanner.Entered _) r) as [r1 err1] eqn:E;
    destruct (walkFunc_fires _ _ _ _ _ Hr E) as [Hle | ->];
    try (rewrite Hskip; intros [= _ <-]; right; reflexivity);
    try (destruct err1; intros [= <- _]; left; exact Hle).
  destruct err1 as [e1|]; [intros [= <- _]; left; exact Hle|].
  destruct (os.ReadDirErr info) as [en|].
  - destruct (scanner.walkFunc fp ctx path (scanner.Failed _ _) r1) as [r2 err2] eqn:E2.
    destruct (walkFunc_fires _ _ _ _ _ Hle E2) as [Hle2 | ->].
    + destruct err2; intros [= <- _]; left; exact Hle2.
    + rewrite Hskip. intros [= _ <-]. right. reflexivity.
  - apply walkEntries_fires; [|exact Hle].
    rewrite Forall_forall in IH. apply Forall_forall. intros e He. apply IH. exact He.
Qed.

Lemma Scan_walk_fires (w : scanner.World) (absPath : string) :
  stopped (fst (scanner.Scan_walk w fp ctx absPath)) (snd (scanner.Scan_walk w fp ctx absPath)).
Proof.
  unfold scanner.Scan_walk, scanner.WalkDir.
  set (r0 := scanner.mkRun _ _ _).
  assert (H0 : (scanner.calls r0 <= k)%nat) by (simpl; lia).
  assert (Hskip : (bool_decide (scanner.cause ctx = scanner.fs_SkipDir)
                   || bool_decide (scanner.cause ctx = scanner.fs_SkipAll)) = false).
  { rewrite !bool_decide_eq_false_2 by apply no_skip. reflexivity. }
  destruct (scanner.LstatRoot w absPath) as [d|e].
  - destruct (scanner.walkDir _ absPath d r0) as [r' err] eqn:E.
    destruct (walkDir_fires d _ _ _ _ H0 E) as [Hle | ->].
    + left. clear Hskip. destruct err as [e|]; [destruct (_ || _)|]; exact Hle.
    + right. rewrite Hskip. reflexivity.
  - destruct (scanner.walkFunc fp ctx absPath _ r0) as [r' err] eqn:E.
    destruct (walkFunc_fires _ _ _ _ _ H0 E) as [Hle | ->].
    + left. clear Hskip. destruct err as [e'|]; [destruct (_ || _)|]; exact Hle.
    + right. rewrite Hskip. reflexivity.
Qed.

End ContextFires.

(** X18.  When the context is done while the walk is still calling the
    walk function, [Scan] keeps what it found only if the context was
    cancelled: it then returns the repositories found so far and no
    error.  When the deadline has passed it returns no result, and the
    error ["error walking directory tree: context deadline exceeded"]. *)
Theorem Scan_keeps_its_finds_on_cancel_only
    (w : scanner.World) (fp : filepath.API) (ctx : scanner.Context)
    (opts : scanner.ScanOptions) (absPath : string) (k : nat)
    (Hstat : scanner.StatRoot w (scanner.RootPath opts) = Ok true)
    (Habs : filepath.Abs fp (scanner.RootPath opts) = Ok absPath)
    (Hfires : scanner.firesAt ctx = Some k)
    (Hcalled : (k < scanner.calls (fst (scanner.Scan_walk w fp ctx absPath)))%nat) :
  (scanner.cause ctx = context_Canceled ->
   exists res,
     scanner.Scan w fp ctx opts = (Some res, None) /\
     ScanResult.Repositories res
     = scanner.repositories (scanner.sc (fst (scanner.Scan_walk w fp ctx absPath)))) /\
  (scanner.cause ctx = context_DeadlineExceeded ->
   scanner.Scan w fp ctx opts
   = (None, Some (Errorf "error walking directory tree: context deadline exceeded"
                         context_DeadlineExceeded))).
Proof.
  split; intros Hcause.
  - destruct (Scan_walk_fires fp ctx k Hfires) with (w := w) (absPath := absPath)
      as [Hle|Hsnd]; [rewrite Hcause; split; discriminate|lia|].
    unfold scanner.Scan. rewrite Hstat, Habs. cbn [negb].
    destruct (scanner.Scan_walk w fp ctx absPath) as [r err]. cbn [snd fst] in *.
    rewrite Hsnd, Hcause. cbn. eexists. split; reflexivity.
  - destruct (Scan_walk_fires fp ctx k Hfires) with (w := w) (absPath := absPath)
      as [Hle|Hsnd]; [rewrite Hcause; split; discriminate|lia|].
    unfold scanner.Scan. rewrite Hstat, Habs. cbn [negb].
    destruct (scanner.Scan_walk w fp ctx absPath) as [r err]. cbn [snd fst] in *.
    rewrite Hsnd, Hcause. reflexivity.
Qed.

(** The theorems above on the directory tree of [examples.world]. *)

Lemma Scan_result_passes_Validate_witness :
  exists res,
    scanner.Scan examples.world filepath.unix scanner.Background
                 (scanner.mkScanOptions "/work") = (Some res, None) /\
    ScanResult.Validate res = None /\
    ScanResult.TotalRepos res = Z.of_nat (length (ScanResult.Repositories res)) /\
    ScanResult.TotalRepos res <= ScanResult.TotalScanned res.
Proof.
  destruct (scanner.Scan examples.world filepath.unix scanner.Background
                         (scanner.mkScanOptions "/work")) as [[res|] [e|]] eqn:E;
    try (exfalso; vm_compute in E; discriminate).
  exists res. split; [reflexivity|].
  refine (Scan_result_passes_Validate examples.world filepath.unix scanner.Background
            (scanner.mkScanOptions "/work") res "/work" eq_refl eq_refl _ _ E).
  - vm_compute. discriminate.
  - vm_compute. discriminate.
Defined.

Lemma Scan_reports_plain_directories_below_the_root_witness :
  exists res,
    scanner.Scan examples.world filepath.unix scanner.Background
                 (scanner.mkScanOptions "/work") = (Some res, None) /\
    map Repository.Path (ScanResult.Repositories res)
    = ["/work/app"; "/work/libs/core"; "/work/libs/tool.git"] /\
    Forall (found.fresh filepath.unix (ScanResult.RootPath res))
           (ScanResult.Repositories res).
Proof.
  destruct (scanner.Scan examples.world filepath.unix scanner.Background
                         (scanner.mkScanOptions "/work")) as [[res|] [e|]] eqn:E;
    try (exfalso; vm_compute in E; discriminate).
  exists res. split; [reflexivity|]. split.
  - vm_compute in E. injection E as <-. reflexivity.
  - apply Forall_forall. intros repo Hrepo.
    exact (Scan_reports_plain_directories_below_the_root
             examples.world filepath.unix scanner.Background
             (scanner.mkScanOptions "/work") res repo E Hrepo).
Defined.

Lemma Scan_does_not_follow_a_link_at_the_root_witness :
  exists res,
    scanner.Scan examples.linkedWorld filepath.unix scanner.Background
                 (scanner.mkScanOptions "/home/me/work") = (Some res, None) /\
    ScanResult.Repositories res = [] /\
    ScanResult.TotalScanned res = 0 /\
    ScanResult.TotalRepos res = 0 /\
    ScanResult.Errors res = [] /\
    TreeNode.Children (ScanResult.Tree res) = [].
Proof.
  exact (Scan_does_not_follow_a_link_at_the_root
           examples.linkedWorld filepath.unix scanner.Background
           (scanner.mkScanOptions "/home/me/work") "/home/me/work" "work"
           (os.ToDir (Some 1%N)) eq_refl eq_refl eq_refl eq_refl).
Defined.

Lemma Scan_keeps_its_finds_on_cancel_only_witness :
  (exists res,
     scanner.Scan examples.world filepath.unix examples.cancelledSoon
                  (scanner.mkScanOptions "/work") = (Some res, None) /\
     map Repository.Path (ScanResult.Repositories res) = ["/work/app"]) /\
  scanner.Scan examples.world filepath.unix examples.overdue
               (scanner.mkScanOptions "/work")
  = (None, Some (Errorf "error walking directory tree: context deadline exceeded"
                        context_DeadlineExceeded)).
Proof.
  split.
  - destruct (Scan_keeps_its_finds_on_cancel_only
                examples.world filepath.unix examples.cancelledSoon
                (scanner.mkScanOptions "/work") "/work" 2 eq_refl eq_refl eq_refl)
      as [Hcancel _].
    { apply Nat.ltb_lt. vm_compute. reflexivity. }
    destruct (Hcancel eq_refl) as (res & E & Hrepos).
    exists res. split; [exact E|]. rewrite Hrepos. vm_compute. reflexivity.
  - destruct (Scan_keeps_its_finds_on_cancel_only
                examples.world filepath.unix examples.overdue
                (scanner.mkScanOptions "/work") "/work" 2 eq_refl eq_refl eq_refl)
      as [_ Hdeadline].
    { apply Nat.ltb_lt. vm_compute. reflexivity. }
    exact (Hdeadline eq_refl).
Defined.

Lemma Scan_records_two_kinds_of_diagnostic_witness :
  exists res,
    scanner.Scan examples.world filepath.unix scanner.Background
                 (scanner.mkScanOptions "/work") = (Some res, None) /\
    map Error (ScanResult.Errors res)
    = ["permission denied: /work/private: permission denied"] /\
    Forall (found.diagnostic (ScanResult.RootPath res)) (ScanResult.Errors res).
Proof.
  destruct (scanner.Scan examples.world filepath.unix scanner.Background
                         (scanner.mkScanOptions "/work")) as [[res|] [e|]] eqn:E;
    try (exfalso; vm_compute in E; discriminate).
  exists res. split; [reflexivity|]. split.
  - vm_compute in E. injection E as <-. reflexivity.
  - apply Forall_forall. intros e He.
    exact (proj1 (Scan_records_two_kinds_of_diagnostic
                    examples.world filepath.unix scanner.Background
                    (scanner.mkScanOptions "/work") res e E He)).
Defined.

(** ** The scan: every repository once *)

Section Distinct.

Variables (fp : filepath.API) (ctx : scanner.Context).

Implicit Types (r : scanner.Run) (d : os.Entry) (path : string).

(** A path inside the entry [n] of the directory [P]: the name of the
    entry, and then nothing or a slash and more. *)
Lemma within_entry P n p :
  n <> "" ->
  paths.within (filepath.joinName P n) p ->
  exists u, p = filepath.dirPrefix P +:+ n +:+ u /\ (u = "" \/ exists u', u = "/" +:+ u').
Proof.
  intros Hn [->|[rest ->]].
  - exists "". split; [|auto]. unfold filepath.joinName. rewrite append_empty_r. reflexivity.
  - exists ("/" +:+ rest). split; [|eauto].
    rewrite (dirPrefix_join P n Hn), !append_assoc. reflexivity.
Qed.

(** Two entries of a directory have no path in common. *)
Lemma siblings_differ P n1 n2 p :
  paths.plainName n1 -> paths.plainName n2 -> n1 <> n2 ->
  paths.within (filepath.joinName P n1) p ->
  paths.within (filepath.joinName P n2) p ->
  False.
Proof.
  intros [Hn1 Hs1] [Hn2 Hs2] Hne H1 H2.
  destruct (within_entry P n1 p Hn1 H1) as (u1 & -> & Hu1).
  destruct (within_entry P n2 _ Hn2 H2) as (u2 & E & Hu2).
  apply append_cancel in E.
  destruct Hu1 as [->|[v1 ->]].
  - destruct Hu2 as [->|[v2 ->]].
    + rewrite !append_empty_r in E. auto.
    + apply Hne. symmetry. apply (plain_names_meet n2 n1 "" v2); auto.
  - apply Hne. apply (plain_names_meet n1 n2 u2 v1); auto.
Qed.

(** A directory is none of the paths inside one of its entries. *)
Lemma parent_differs P n :
  n <> "" -> ~ paths.within (filepath.joinName P n) P.
Proof.
  intros Hn H. apply within_length in H.
  unfold filepath.joinName in H. rewrite append_length in H.
  pose proof (dirPrefix_length P).
  destruct n; [contradiction|]. simpl in H. lia.
Qed.

#[local] Abbreviation apart new := (NoDup (map scanner.probed new)).

Lemma walkEntries_distinct path (entries : list os.Entry) :
  Forall (fun d => forall path r r' err,
            scanner.walkDir (scanner.walkFunc fp ctx) path d r = (r', err) ->
            exists new, paths.extends r r' new /\
                        Forall (fun q => paths.within path (scanner.probed q)) new /\
                        apart new) entries ->
  NoDup (map os.Name entries) ->
  Forall (fun e => paths.plainName (os.Name e)) entries ->
  forall r r' err,
    scanner.walkEntries (scanner.walkFunc fp ctx) path entries r = (r', err) ->
    exists new,
      paths.extends r r' new /\
      Forall (fun q => exists n, n ∈ map os.Name entries /\ paths.plainName n /\
                                 paths.within (filepath.joinName path n) (scanner.probed q))
             new /\
      apart new.
Proof.
  induction entries as [|d1 rest IH]; intros Hall Hnd Hplain r r' err; simpl.
  - intros [= <- <-]. exists []. split; [apply extends_nil|]. split; constructor.
  - apply Forall_cons in Hall. destruct Hall as [H1 Hrest].
    apply NoDup_cons in Hnd. destruct Hnd as [Hfresh Hnd].
    apply Forall_cons in Hplain. destruct Hplain as [Hp1 Hplain].
    destruct (scanner.walkDir _ (filepath.joinName path (os.Name d1)) d1 r)
      as [r1 err1] eqn:E1.
    destruct (H1 _ _ _ _ E1) as (new1 & X1 & W1 & P1).
    assert (W1' : Forall (fun q => exists n, n ∈ os.Name d1 :: map os.Name rest /\
                                     paths.plainName n /\
                                     paths.within (filepath.joinName path n)
                                                  (scanner.probed q)) new1).
    { eapply Forall_impl; [exact W1|]. intros q Hq. exists (os.Name d1).
      split; [left|]. auto. }
    destruct err1 as [e1|].
    { intros Hres.
      assert (r' = r1) as -> by (destruct (bool_decide _); congruence).
      exists new1. auto. }
    intros Hres. destruct (IH Hrest Hnd Hplain _ _ _ Hres) as (new2 & X2 & W2 & P2).
    exists (new1 ++ new2). split; [eapply extends_trans; eauto|]. split.
    + apply Forall_app. split; [exact W1'|].
      eapply Forall_impl; [exact W2|]. intros q (n & Hn & Hq). exists n.
      split; [right; exact Hn|exact Hq].
    + rewrite map_app. apply NoDup_app. split; [exact P1|]. split; [|exact P2].
      intros p Hp1' Hp2'.
      change (map ?f ?x) with (f <$> x) in Hp1', Hp2'.
      apply list_elem_of_fmap in Hp1', Hp2'.
      destruct Hp1' as (q1 & -> & Hq1). destruct Hp2' as (q2 & E & Hq2).
      rewrite Forall_forall in W1, W2.
      destruct (W2 _ Hq2) as (n & Hn & Hpn & Hw2).
      apply (siblings_differ path (os.Name d1) n (scanner.probed q1)); auto.
      * intros En. apply Hfresh. rewrite En. exact Hn.
      * rewrite E. exact Hw2.
Qed.

(** The walk of an entry probes no path twice. *)
Lemma walkDir_distinct d :
  paths.wellNamed d ->
  forall path r r' err,
    scanner.walkDir (scanner.walkFunc fp ctx) path d r = (r', err) ->
    exists new, paths.extends r r' new /\
                Forall (fun q => paths.within path (scanner.probed q)) new /\
                apart new.
Proof.
  assert (Hone : forall q : scanner.Probe, apart [q]).
  { intros q. simpl. constructor; [|constructor]. intros H. inversion H. }
  induction d as [n ino|n t|n info entries IH] using Entry_induction;
    intros Hwn path r r' err; rewrite walkDir_unfold.
  1,2: destruct (scanner.walkFunc fp ctx path _ r) as [r1 err1] eqn:E;
       destruct (walkFunc_Entered _ _ _ _ _ _ _ E) as [[X _]|[(bare & X & _)|(bare & X & _)]];
       intros Hres;
       (assert (r' = r1) as -> by (destruct err1; simpl in Hres; congruence));
       eexists; (split; [exact X|]);
       (split; [repeat constructor|first [apply Hone|constructor]]).
  inversion Hwn as [| |n' info' entries' Hnd Hplain Hsub]; subst.
  destruct (scanner.walkFunc fp ctx path _ r) as [r1 err1] eqn:E.
  destruct (walkFunc_Entered _ _ _ _ _ _ _ E) as [[X Hnone]|[(bare & X & ->)|(bare & X & ->)]].
  - destruct err1 as [e1|]; [|specialize (Hnone eq_refl); discriminate].
    intros [= <- _]. exists []. split; [exact X|]. split; constructor.
  - intros [= <- _]. eexists. split; [exact X|].
    split; [repeat constructor|apply Hone].
  - destruct (os.ReadDirErr info) as [en|].
    + destruct (scanner.walkFunc fp ctx path (scanner.Failed _ _) r1) as [r2 err2] eqn:E2.
      destruct (walkFunc_Failed _ _ _ _ _ _ _ _ E2) as [X2 _].
      intros Hres. assert (r' = r2) as -> by (destruct err2; congruence).
      exists ([scanner.mkProbe path false bare] ++ []).
      split; [eapply extends_trans; eauto|].
      split; [repeat constructor|apply Hone].
    + intros Hres.
      assert (Hall : Forall (fun d => forall path r r' err,
                        scanner.walkDir (scanner.walkFunc fp ctx) path d r = (r', err) ->
                        exists new, paths.extends r r' new /\
                          Forall (fun q => paths.within path (scanner.probed q)) new /\
                          apart new) entries).
      { rewrite Forall_forall in IH, Hsub. apply Forall_forall. intros e He.
        apply IH; auto. }
      destruct (walkEntries_distinct path entries Hall Hnd Hplain _ _ _ Hres)
        as (new & X2 & W2 & P2).
      exists ([scanner.mkProbe path false bare] ++ new).
      split; [eapply extends_trans; eauto|].
      rewrite Forall_forall in W2. split.
      * apply Forall_app. split; [repeat constructor|].
        apply Forall_forall. intros q Hq. destruct (W2 _ Hq) as (m & _ & _ & Hw).
        eapply within_join. exact Hw.
      * simpl. constructor; [|exact P2].
        intros Hin. change (map ?f ?x) with (f <$> x) in Hin.
        apply list_elem_of_fmap in Hin. destruct Hin as (q & Eq & Hq).
        destruct (W2 _ Hq) as (m & _ & [Hm _] & Hw).
        rewrite <- Eq in Hw. exact (parent_differs path m Hm Hw).
Qed.

Lemma matched_distinct (log : list scanner.Probe) :
  apart log -> NoDup (paths.matched log).
Proof.
  unfold paths.matched. induction log as [|q log IH]; intros H; [constructor|].
  simpl in H. apply NoDup_cons in H. destruct H as [Hq H].
  rewrite filter_cons. destruct (decide (scanner.isRepo q = true)); [|auto].
  simpl. constructor; [|auto].
  intros Hin. apply Hq.
  change (map ?f ?x) with (f <$> x) in Hin |- *.
  apply list_elem_of_fmap in Hin. destruct Hin as (q' & E & Hq').
  apply list_elem_of_fmap. exists q'. split; [exact E|].
  apply list_elem_of_filter in Hq'. tauto.
Qed.

End Distinct.

Lemma Scan_walk_distinct (w : scanner.World) (fp : filepath.API) (ctx : scanner.Context)
    (absPath : string) :
  (forall d, scanner.LstatRoot w absPath = Ok d -> paths.wellNamed d) ->
  NoDup (map Repository.Path
             (scanner.repositories (scanner.sc (fst (scanner.Scan_walk w fp ctx absPath))))).
Proof.
  intros Hnames.
  destruct (Scan_walk_spec w fp ctx absPath Hnames) as [-> _].
  apply matched_distinct.
  unfold scanner.Scan_walk, scanner.WalkDir.
  set (r0 := scanner.mkRun _ _ _).
  destruct (scanner.LstatRoot w absPath) as [d|e] eqn:El.
  - destruct (scanner.walkDir _ absPath d r0) as [r' err] eqn:E.
    destruct (walkDir_distinct fp ctx d (Hnames d eq_refl) _ _ _ _ E) as (new & [X _] & _ & H).
    simpl in X. subst new.
    destruct err as [e|]; [destruct (_ || _)|]; exact H.
  - destruct (scanner.walkFunc fp ctx absPath _ r0) as [r' err] eqn:E.
    destruct (walkFunc_Failed _ _ _ _ _ _ _ _ E) as [[X _] _].
    destruct err as [e'|]; [destruct (_ || _)|]; cbn [fst]; rewrite X; constructor.
Qed.

(** X19.  In a file system whose directories list plain names, each one
    once, [Scan] reports no repository twice: the paths of the
    repositories of the result are all different. *)
Theorem Scan_reports_every_repository_once
    (w : scanner.World) (fp : filepath.API) (ctx : scanner.Context)
    (opts : scanner.ScanOptions) (absPath : string) (res : ScanResult.t)
    (Habs : filepath.Abs fp (scanner.RootPath opts) = Ok absPath)
    (Hnames : forall d, scanner.LstatRoot w absPath = Ok d -> paths.wellNamed d)
    (Hscan : scanner.Scan w fp ctx opts = (Some res, None)) :
  NoDup (map Repository.Path (ScanResult.Repositories res)).
Proof.
  destruct (Scan_result w fp ctx opts res Hscan) as (absPath' & Habs' & _ & Hrepos & _).
  assert (absPath' = absPath) as -> by congruence.
  rewrite Hrepos. apply Scan_walk_distinct. exact Hnames.
Qed.

Lemma Scan_reports_every_repository_once_witness :
  exists res,
    scanner.Scan examples.world filepath.unix scanner.Background
                 (scanner.mkScanOptions "/work") = (Some res, None) /\
    NoDup (map Repository.Path (ScanResult.Repositories res)).
Proof.
  destruct (scanner.Scan examples.world filepath.unix scanner.Background
                         (scanner.mkScanOptions "/work")) as [[res|] [e|]] eqn:E;
    try (exfalso; vm_compute in E; discriminate).
  exists res. split; [reflexivity|].
  refine (Scan_reports_every_repository_once examples.world filepath.unix scanner.Background
            (scanner.mkScanOptions "/work") "/work" res eq_refl _ E).
  intros d Hd. injection Hd as <-. exact examples_workTree_wellNamed.
Defined.

(** ** The records of the scan are valid *)

Lemma within_absolute (root p : string) :
  filepath_IsAbs root = true -> paths.within root p -> filepath_IsAbs p = true.
Proof.
  unfold filepath_IsAbs, strings_HasPrefix.
  intros Hroot [->|[rest ->]]; [exact Hroot|].
  apply prefix_append. unfold filepath.dirPrefix.
  destruct (String.eqb root "/"); [reflexivity|].
  apply prefix_append. exact Hroot.
Qed.

(** X21.  Every repository that [Scan] reports passes
    [Repository.Validate], given that [filepath.Abs] answers with an
    absolute path and [filepath.Base] never with an empty name: its path
    is absolute, its name is there, and it has no status that could
    contradict [IsBare]. *)
Theorem Scan_repositories_pass_Validate
    (w : scanner.World) (fp : filepath.API) (ctx : scanner.Context)
    (opts : scanner.ScanOptions) (res : ScanResult.t) (repo : Repository.t)
    (Habsolute : filepath_IsAbs (ScanResult.RootPath res) = true)
    (Hbase : forall p, filepath.Base fp p <> "")
    (Hscan : scanner.Scan w fp ctx opts = (Some res, None))
    (Hrepo : repo ∈ ScanResult.Repositories res) :
  Repository.Validate repo = None.
Proof.
  destruct (Scan_result w fp ctx opts res Hscan) as (absPath & _ & Hroot & Hrepos & _).
  pose proof (Scan_walk_fresh fp ctx absPath w) as H.
  rewrite <- Hrepos in H. rewrite Forall_forall in H.
  destruct (H repo Hrepo) as (Hin & Hname & _ & Hstatus & _).
  rewrite <- Hroot in Hin.
  pose proof (within_absolute _ _ Habsolute Hin) as Habs.
  unfold Repository.Validate. rewrite Habs, Hstatus, Hname.
  destruct (Repository.Path repo) as [|x p] eqn:Ep; [discriminate Habs|].
  cbn [String.eqb negb].
  destruct (String.eqb_spec (filepath.Base fp (String x p)) "") as [E|_];
    [destruct (Hbase _ E)|].
  rewrite andb_false_r. reflexivity.
Qed.

Lemma Base_named (p : string) : pathnames.Base p <> "".
Proof.
  unfold pathnames.Base. destruct (String.eqb p ""); [discriminate|].
  destruct (String.eqb_spec
              (List.last (filepath.splitSlash (pathnames.stripTrailingSlashes p)) "") "");
    [discriminate|assumption].
Qed.

Lemma Scan_repositories_pass_Validate_witness :
  exists res,
    scanner.Scan examples.world pathnames.posix scanner.Background
                 (scanner.mkScanOptions "/work") = (Some res, None) /\
    map Repository.Name (ScanResult.Repositories res) = ["app"; "core"; "tool.git"] /\
    Forall (fun repo => Repository.Validate repo = None) (ScanResult.Repositories res).
Proof.
  destruct (scanner.Scan examples.world pathnames.posix scanner.Background
                         (scanner.mkScanOptions "/work")) as [[res|] [e|]] eqn:E;
    try (exfalso; vm_compute in E; discriminate).
  exists res. split; [reflexivity|].
  assert (Hroot : ScanResult.RootPath res = "/work")
    by (vm_compute in E; injection E as <-; reflexivity).
  split; [vm_compute in E; injection E as <-; reflexivity|].
  apply Forall_forall. intros repo Hrepo.
  refine (Scan_repositories_pass_Validate examples.world pathnames.posix scanner.Background
            (scanner.mkScanOptions "/work") res repo _ Base_named E Hrepo).
  rewrite Hroot. reflexivity.
Defined.

(** ** What counts as a repository *)

(** X22.  [IsGitRepository] never calls a directory bare without calling
    it a repository.  A directory whose [.git] is a regular file (the
    working tree of a submodule, or one added with [git worktree]) and
    that has no [HEAD] of its own is no repository for it; neither is any
    directory in which names cannot be looked up, whatever it holds. *)
Theorem IsGitRepository_wants_a_git_directory :
  (forall path d,
      fst (scanner.IsGitRepository path d) = false ->
      snd (scanner.IsGitRepository path d) = false) /\
  (forall path n info entries name ino,
      os.Search info = true ->
      List.find (fun e => String.eqb (os.Name e) ".git") entries = Some (os.File name ino) ->
      List.find (fun e => String.eqb (os.Name e) "HEAD") entries = None ->
      scanner.IsGitRepository path (os.Dir n info entries) = (false, false)) /\
  (forall path n info entries,
      os.Search info = false ->
      scanner.IsGitRepository path (os.Dir n info entries) = (false, false)).
Proof.
  split; [|split].
  - intros path d. unfold scanner.IsGitRepository.
    destruct (match os.StatIn path d ".git" with Ok info => _ | Err _ => false end);
      [discriminate|].
    destruct (_ && _); [discriminate|reflexivity].
  - intros path n info entries name ino Hsearch Hgit Hhead.
    unfold scanner.IsGitRepository, os.StatIn. rewrite Hsearch, Hgit, Hhead. reflexivity.
  - intros path n info entries Hsearch.
    unfold scanner.IsGitRepository, os.StatIn. rewrite Hsearch. reflexivity.
Qed.

(** * From the scan to the tree that [main] prints *)

(** X24.  [main] scans its working directory, gives the repositories the
    statuses of [ExtractBatch] and builds the tree from them.  In a file
    system whose directories list plain names, each one once, a
    repository that the scan found and that has an entry in the map of
    statuses sits in that tree together with its status, below the
    directories that its path relative to the working directory names. *)
Theorem main_builds_the_tree_of_the_scan_with_statuses
    (w : scanner.World) (fp : filepath.API) (ctx : scanner.Context)
    (cwd absPath : string) (res : ScanResult.t)
    (statuses : gmap string GitStatus.t)
    (repo : Repository.t) (status : GitStatus.t) (relPath : string)
    (Habs : filepath.Abs fp cwd = Ok absPath)
    (Hnames : forall d, scanner.LstatRoot w absPath = Ok d -> paths.wellNamed d)
    (Hscan : scanner.Scan w fp ctx (scanner.mkScanOptions cwd) = (Some res, None))
    (Hrepo : repo ∈ ScanResult.Repositories res)
    (Hstatus : statuses !! Repository.Path repo = Some status)
    (Hrel : filepath.Rel fp cwd (Repository.Path repo) = Ok relPath) :
  placement.sits (removelast (filepath.splitSlash relPath))
                 (Repository.with_GitStatus (Some status) repo)
                 (tree.Build fp cwd (cmd.populate statuses (ScanResult.Repositories res))
                             None).
Proof.
  destruct (Scan_result w fp ctx _ res Hscan) as (absPath' & Habs' & _ & Hrepos & _).
  cbn [scanner.RootPath] in Habs'.
  assert (absPath' = absPath) as -> by congruence.
  rewrite populate_by_path
    by (rewrite Hrepos; apply Scan_walk_distinct; exact Hnames).
  set (given := fun r : Repository.t =>
                  match statuses !! Repository.Path r with
                  | Some st => Repository.with_GitStatus (Some st) r
                  | None => r
                  end).
  assert (Hin : given repo ∈ map given (ScanResult.Repositories res)).
  { change (map given ?l) with (given <$> l). apply list_elem_of_fmap. eauto. }
  assert (Hgiven : given repo = Repository.with_GitStatus (Some status) repo)
    by (unfold given; rewrite Hstatus; reflexivity).
  rewrite Hgiven in Hin.
  unfold tree.Build, tree.sortTree. apply sortTreeFrom_sits.
  apply list_elem_of_split in Hin. destruct Hin as (l1 & l2 & ->).
  rewrite fold_left_app. simpl.
  replace (Repository.Path (Repository.with_GitStatus (Some status) repo))
    with (Repository.Path repo) by (destruct repo; reflexivity).
  rewrite Hrel.
  apply inserted_preserves. apply insertFrom_sits.
Qed.

Lemma main_builds_the_tree_of_the_scan_with_statuses_witness :
  exists res,
    scanner.Scan examples.world filepath.unix scanner.Background
                 (scanner.mkScanOptions "/work") = (Some res, None) /\
    placement.sits ["libs"]
      (Repository.mk "/work/libs/tool.git" "tool.git" true false
                     (Some (GitStatus.mk "main" false false 0 0 false false ""))
                     None false)
      (tree.Build filepath.unix "/work"
                  (cmd.populate examples.someStatuses (ScanResult.Repositories res)) None).
Proof.
  destruct (scanner.Scan examples.world filepath.unix scanner.Background
                         (scanner.mkScanOptions "/work")) as [[res|] [e|]] eqn:E;
    try (exfalso; vm_compute in E; discriminate).
  exists res. split; [reflexivity|].
  refine (main_builds_the_tree_of_the_scan_with_statuses
            examples.world filepath.unix scanner.Background "/work" "/work" res
            examples.someStatuses
            (Repository.mk "/work/libs/tool.git" "tool.git" true false None None false)
            (GitStatus.mk "main" false false 0 0 false false "") "libs/tool.git"
            eq_refl _ E _ eq_refl eq_refl).
  - intros d Hd. injection Hd as <-. exact examples_workTree_wellNamed.
  - pose proof E as E'. vm_compute in E'. injection E' as <-.
    do 2 apply list_elem_of_further. apply list_elem_of_here.
Defined.

(** * The tree of [Build]: its order, and what it is made of *)

(** ** The entries of a tree *)

Section Content.
Implicit Types (repo : Repository.t) (t node current c : TreeNode.t).
Implicit Types (seen todo q : list string) (e : list string * TreeNode.t).

Lemma elem_of_content t e :
  e ∈ placement.content t <->
  exists c, c ∈ TreeNode.Children t /\
            (e = ([TreeNode.Name c], placement.bare c) \/
             exists e', e' ∈ placement.content c /\ e = placement.under (TreeNode.Name c) e').
Proof.
  destruct t as [r d l children rp]. simpl.
  induction children as [|c cs IH].
  - split; [intros H; inversion H|intros (c & H & _); inversion H].
  - rewrite elem_of_cons, elem_of_app, IH. clear IH.
    change (map ?f ?x) with (f <$> x). rewrite list_elem_of_fmap. split.
    + intros [->|[(e' & -> & He')|(c' & Hc' & H)]].
      * exists c. split; [left|left; reflexivity].
      * exists c. split; [left|right; eauto].
      * exists c'. split; [right; exact Hc'|exact H].
    + intros (c' & Hc' & H). apply elem_of_cons in Hc'. destruct Hc' as [->|Hc'].
      * destruct H as [->|(e' & He' & ->)]; [left; reflexivity|right; left; eauto].
      * right. right. eauto.
Qed.

Lemma distinct_iff t :
  placement.distinct t <->
  NoDup (map TreeNode.Name (TreeNode.Children t)) /\
  Forall placement.distinct (TreeNode.Children t).
Proof.
  destruct t as [r d l children rp]. simpl. apply and_iff_compat_l.
  induction children as [|c cs IH].
  - split; [constructor|auto].
  - rewrite Forall_cons, IH. reflexivity.
Qed.

Lemma content_named t e : e ∈ placement.content t -> fst e <> [].
Proof.
  intros H. apply elem_of_content in H.
  destruct H as (c & _ & [->|(e' & _ & ->)]); discriminate.
Qed.

Lemma content_top t (n : string) (b : TreeNode.t) :
  ([n], b) ∈ placement.content t <->
  exists c, c ∈ TreeNode.Children t /\ TreeNode.Name c = n /\ placement.bare c = b.
Proof.
  rewrite elem_of_content. split.
  - intros (c & Hc & [H|(e' & He' & H)]).
    + injection H as -> ->. eauto.
    + apply content_named in He'. injection H as -> Hq ->.
      symmetry in Hq. contradiction.
  - intros (c & Hc & <- & <-). exists c. split; [exact Hc|left; reflexivity].
Qed.

Lemma same_name {A : Type} (f : A -> string) (l : list A) x y :
  NoDup (map f l) -> x ∈ l -> y ∈ l -> f x = f y -> x = y.
Proof.
  induction l as [|z l IH]; intros Hn Hx Hy E; [inversion Hx|].
  simpl in Hn. apply NoDup_cons in Hn. destruct Hn as [Hz Hn].
  apply elem_of_cons in Hx. apply elem_of_cons in Hy.
  destruct Hx as [->|Hx], Hy as [->|Hy]; auto.
  - exfalso. apply Hz. rewrite E. change (map f l) with (f <$> l).
    apply list_elem_of_fmap. eauto.
  - exfalso. apply Hz. rewrite <- E. change (map f l) with (f <$> l).
    apply list_elem_of_fmap. eauto.
Qed.

Lemma content_below t c q (b : TreeNode.t) :
  NoDup (map TreeNode.Name (TreeNode.Children t)) -> c ∈ TreeNode.Children t ->
  q <> [] ->
  ((TreeNode.Name c :: q, b) ∈ placement.content t <-> (q, b) ∈ placement.content c).
Proof.
  intros Hn Hc Hq. rewrite elem_of_content. split.
  - intros (c' & Hc' & [H|(e' & He' & H)]).
    + injection H as _ -> _. contradiction.
    + destruct e' as [q' b']. injection H as E -> ->.
      assert (c' = c) as -> by (eapply same_name; eauto).
      exact He'.
  - intros H. exists c. split; [exact Hc|]. right. exists (q, b). auto.
Qed.

End Content.

(** ** Sorting trees with the same entries *)

Section Alike.
Implicit Types (repo : Repository.t) (t node current c : TreeNode.t).
Implicit Types (seen todo q : list string) (e : list string * TreeNode.t).
Implicit Types (l cs : list TreeNode.t).

(** Children with names all different have one sorted arrangement only. *)
Lemma sorted_arrangement_unique l l' :
  l ≡ₚ l' -> NoDup (map TreeNode.Name l) ->
  shape.sortedByName l -> shape.sortedByName l' -> l = l'.
Proof.
  intros Hp Hn Hs Hs'.
  pose proof (sorted_order_is_forced l' l Hp Hs' Hs) as Hnames.
  clear Hs Hs'. revert l' Hp Hnames.
  induction l as [|x xs IH]; intros [|y ys] Hp Hnames; try discriminate; [reflexivity|].
  simpl in Hnames. injection Hnames as Hxy Hrest.
  assert (x = y) as ->.
  { apply (same_name TreeNode.Name (x :: xs)); [exact Hn|left| |exact Hxy].
    rewrite Hp. left. }
  f_equal. apply IH.
  - simpl in Hn. apply NoDup_cons in Hn. tauto.
  - eapply Permutation_cons_inv. exact Hp.
  - exact Hrest.
Qed.

Lemma sort_Slice_unique l l' :
  l ≡ₚ l' -> NoDup (map TreeNode.Name l) ->
  sort_Slice TreeNode.less l = sort_Slice TreeNode.less l'.
Proof.
  intros Hp Hn. apply sorted_arrangement_unique.
  - rewrite !(sort_Slice_perm TreeNode.Name). exact Hp.
  - rewrite (sort_Slice_perm TreeNode.Name). exact Hn.
  - apply (sort_Slice_sorted TreeNode.Name).
  - apply (sort_Slice_sorted TreeNode.Name).
Qed.

(** Two trees with the same entries, in which no two children of a node
    share a name, are sorted into the same tree. *)
Lemma sorted_alike t1 :
  forall t2 d,
    placement.distinct t1 -> placement.distinct t2 ->
    (forall e, e ∈ placement.content t1 <-> e ∈ placement.content t2) ->
    placement.bare t1 = placement.bare t2 ->
    tree.sortTreeFrom d t1 = tree.sortTreeFrom d t2.
Proof.
  induction t1 as [r1 d1 l1 cs1 rp1 IH] using TreeNode_induction.
  intros [r2 d2 l2 cs2 rp2] d Hd1 Hd2 Hsame Hbare.
  injection Hbare as <- <- <-.
  apply distinct_iff in Hd1. apply distinct_iff in Hd2.
  cbn [TreeNode.Children] in Hd1, Hd2. destruct Hd1 as [Hn1 Hc1], Hd2 as [Hn2 Hc2].
  rewrite Forall_forall in IH, Hc1, Hc2.
  cbn [tree.sortTreeFrom]. f_equal. unfold TreeNode.SortChildren_list. f_equal.
  set (t1 := TreeNode.mk r1 d1 l1 cs1 rp1) in *.
  set (t2 := TreeNode.mk r1 d2 l1 cs2 rp1) in *.
  assert (Hpair : forall c1 c2, c1 ∈ cs1 -> c2 ∈ cs2 ->
                    TreeNode.Name c1 = TreeNode.Name c2 ->
                    placement.bare c1 = placement.bare c2 ->
                    tree.sortTreeFrom (incr d) c1 = tree.sortTreeFrom (incr d) c2).
  { intros c1 c2 H1 H2 Hname Hb. apply (IH c1 H1); auto.
    intros [q b]. destruct (decide (q = [])) as [->|Hq].
    - split; intros H; apply content_named in H; contradiction.
    - rewrite <- (content_below t1 c1 q b Hn1 H1 Hq).
      rewrite <- (content_below t2 c2 q b Hn2 H2 Hq).
      rewrite Hname. apply Hsame. }
  assert (Hnames : forall l, map TreeNode.Name (map (tree.sortTreeFrom (incr d)) l)
                             = map TreeNode.Name l).
  { intros l. rewrite map_map. apply map_ext. intros c. apply sortTreeFrom_name. }
  apply sort_Slice_unique; [|rewrite Hnames; exact Hn1].
  apply NoDup_Permutation.
  - apply (NoDup_fmap_1 TreeNode.Name). change (TreeNode.Name <$> ?x) with (map TreeNode.Name x).
    rewrite Hnames. exact Hn1.
  - apply (NoDup_fmap_1 TreeNode.Name). change (TreeNode.Name <$> ?x) with (map TreeNode.Name x).
    rewrite Hnames. exact Hn2.
  - intros x. change (map ?f ?y) with (f <$> y). rewrite !list_elem_of_fmap. split.
    + intros (c1 & -> & H1).
      assert (H : ([TreeNode.Name c1], placement.bare c1) ∈ placement.content t2).
      { apply Hsame. apply content_top. eauto. }
      apply content_top in H. destruct H as (c2 & H2 & Hname & Hb).
      exists c2. split; [|exact H2]. apply Hpair; auto.
    + intros (c2 & -> & H2).
      assert (H : ([TreeNode.Name c2], placement.bare c2) ∈ placement.content t1).
      { apply Hsame. apply content_top. eauto. }
      apply content_top in H. destruct H as (c1 & H1 & Hname & Hb).
      exists c1. split; [|exact H1]. symmetry. apply Hpair; auto.
Qed.

End Alike.

(** ** One insertion *)

Section Inserted.
Variable fp : filepath.API.
Implicit Types (repo : Repository.t) (t node current c : TreeNode.t).
Implicit Types (seen todo q : list string) (e : list string * TreeNode.t).
Implicit Types (l cs : list TreeNode.t).

Lemma added_step repo relPath seen part x rest currentPath :
  placement.added fp repo relPath seen (part :: x :: rest) currentPath
  = ([part],
     TreeNode.mk (Repository.at_path (filepath.Join fp currentPath part) part) 0 false []
                 (strings_Join (seen ++ [part]) "/"))
    :: map (placement.under part)
           (placement.added fp repo relPath (seen ++ [part]) (x :: rest)
                            (filepath.Join fp currentPath part)).
Proof. reflexivity. Qed.

(** What the nodes made for a repository are: its own node, at the end of
    the directories of its path, and a directory node for each of them. *)
Lemma added_named repo relPath todo :
  forall seen currentPath e,
    e ∈ placement.added fp repo relPath seen todo currentPath ->
    e = (removelast todo ++ [Repository.Name repo], TreeNode.mk repo 0 false [] relPath) \/
    exists q, q <> [] /\ q `prefix_of` removelast todo /\
              e = (q, placement.dirNode fp seen currentPath q).
Proof.
  induction todo as [|part rest IH]; intros seen currentPath e He.
  { apply list_elem_of_singleton in He. left. exact He. }
  destruct rest as [|x rest].
  { apply list_elem_of_singleton in He. left. exact He. }
  rewrite added_step in He. apply elem_of_cons in He.
  change (removelast (part :: x :: rest)) with (part :: removelast (x :: rest)).
  destruct He as [->|He].
  - right. exists [part]. split; [discriminate|]. split; [|reflexivity].
    apply prefix_cons, prefix_nil.
  - change (map ?f ?y) with (f <$> y) in He. apply list_elem_of_fmap in He.
    destruct He as (e' & -> & He'). apply IH in He'.
    destruct He' as [->|(q & Hq & Hpre & ->)].
    + left. reflexivity.
    + right. exists (part :: q). split; [discriminate|]. split; [apply prefix_cons; exact Hpre|].
      unfold placement.under, placement.dirNode. cbn [fst snd fold_left]. f_equal. f_equal.
      * f_equal. destruct q; [contradiction|reflexivity].
      * rewrite <- app_assoc. reflexivity.
Qed.

Lemma insertFrom_bare repo relPath seen todo currentPath current :
  placement.bare (tree.insertFrom fp repo relPath seen todo currentPath current)
  = placement.bare current.
Proof.
  destruct todo as [|part [|x rest]]; try reflexivity.
  rewrite insertFrom_step. destruct (tree.findChild part _); reflexivity.
Qed.

Lemma alter_middle {A : Type} (f : A -> A) (xs : list A) (k : nat) (x : A) :
  xs !! k = Some x -> exists ys zs, xs = ys ++ x :: zs /\ alter f k xs = ys ++ f x :: zs.
Proof.
  intros H. apply list_elem_of_split_length in H. destruct H as (ys & zs & -> & ->).
  exists ys, zs. split; [reflexivity|].
  rewrite <- (Nat.add_0_r (length ys)), alter_app_r. reflexivity.
Qed.

Lemma findChild_None part (children : list TreeNode.t) :
  tree.findChild part children = None ->
  forall c, c ∈ children -> TreeNode.Name c <> part.
Proof.
  unfold tree.findChild. intros H.
  destruct (list_find _ children) as [[i c]|] eqn:E; [discriminate|].
  apply list_find_None in E. rewrite Forall_forall in E. exact E.
Qed.

(** The children of a node after an insertion below it. *)
Lemma insertFrom_children repo relPath seen todo currentPath current :
  let after := tree.insertFrom fp repo relPath seen todo currentPath current in
  (placement.added fp repo relPath seen todo currentPath
   = [([Repository.Name repo], TreeNode.mk repo 0 false [] relPath)] /\
   removelast todo = [] /\
   TreeNode.Children after
   = TreeNode.Children current ++ [TreeNode.mk repo 0 false [] relPath]) \/
  (exists part x rest,
      todo = part :: x :: rest /\
      let below := tree.insertFrom fp repo relPath (seen ++ [part]) (x :: rest)
                                   (filepath.Join fp currentPath part) in
      let new := TreeNode.mk (Repository.at_path (filepath.Join fp currentPath part) part)
                             0 false [] (strings_Join (seen ++ [part]) "/") in
      (exists l1 ck l2,
          TreeNode.Children current = l1 ++ ck :: l2 /\ TreeNode.Name ck = part /\
          TreeNode.Children after = l1 ++ below ck :: l2) \/
      ((forall c, c ∈ TreeNode.Children current -> TreeNode.Name c <> part) /\
       TreeNode.Children after = TreeNode.Children current ++ [below new])).
Proof.
  destruct todo as [|part [|x rest]]; [left; auto|left; auto|].
  right. exists part, x, rest. split; [reflexivity|]. cbv zeta.
  rewrite insertFrom_step.
  destruct (tree.findChild part (TreeNode.Children current)) as [k|] eqn:E.
  - left. apply findChild_Some in E. destruct E as (ck & Hk & Hname).
    destruct (alter_middle
                (tree.insertFrom fp repo relPath (seen ++ [part]) (x :: rest)
                                 (filepath.Join fp currentPath part))
                _ _ _ Hk) as (l1 & l2 & Hl & Ha).
    exists l1, ck, l2. split; [exact Hl|]. split; [exact Hname|].
    destruct current. exact Ha.
  - right. split; [apply findChild_None; exact E|]. destruct current. reflexivity.
Qed.


(** An insertion adds nodes it makes for the repository, and no other. *)
Lemma insertFrom_sound repo relPath todo :
  forall seen currentPath current e,
    e ∈ placement.content (tree.insertFrom fp repo relPath seen todo currentPath current) ->
    e ∈ placement.content current \/
    e ∈ placement.added fp repo relPath seen todo currentPath.
Proof.
  induction todo as [|part rest IH]; intros seen currentPath current e He;
    apply elem_of_content in He; destruct He as (c & Hc & He);
    [pose proof (insertFrom_children repo relPath seen [] currentPath current) as Hcs
    |pose proof (insertFrom_children repo relPath seen (part :: rest) currentPath current)
       as Hcs];
    cbv zeta in Hcs;
    destruct Hcs as [(Ha & _ & Hch)|(part' & x & rest' & Htodo & Hcase)];
    try discriminate.
  1,2: rewrite Hch in Hc; apply elem_of_app in Hc; destruct Hc as [Hc|Hc];
    [left; apply elem_of_content; eauto|];
    apply list_elem_of_singleton in Hc; subst c; right; rewrite Ha;
    destruct He as [->|(e' & He' & _)]; [left|inversion He'].
  injection Htodo as <- ->. rewrite added_step.
  destruct Hcase as [(l1 & ck & l2 & Hcur & Hname & Hch)|[Hnone Hch]];
    rewrite Hch in Hc.
  - assert (Hck : ck ∈ TreeNode.Children current)
      by (rewrite Hcur; apply elem_of_app; right; left).
    apply elem_of_app in Hc. rewrite elem_of_cons in Hc.
    destruct Hc as [Hc|[->|Hc]].
    + left. apply elem_of_content. exists c. split; [|exact He].
      rewrite Hcur. apply elem_of_app. left. exact Hc.
    + rewrite insertFrom_name, insertFrom_bare in He.
      destruct He as [->|(e' & He' & ->)].
      * left. apply elem_of_content. eauto.
      * apply IH in He'. destruct He' as [He'|He'].
        -- left. apply elem_of_content. exists ck. split; [exact Hck|].
           right. exists e'. split; [exact He'|reflexivity].
        -- right. right. rewrite Hname.
           change (map ?f ?y) with (f <$> y). apply list_elem_of_fmap. eauto.
    + left. apply elem_of_content. exists c. split; [|exact He].
      rewrite Hcur. apply elem_of_app. right. right. exact Hc.
  - apply elem_of_app in Hc. destruct Hc as [Hc|Hc].
    + left. apply elem_of_content. eauto.
    + apply list_elem_of_singleton in Hc. subst c.
      rewrite insertFrom_name, insertFrom_bare in He.
      destruct He as [->|(e' & He' & ->)]; [right; left|].
      apply IH in He'. destruct He' as [He'|He']; [inversion He'|].
      right. right. change (map ?f ?y) with (f <$> y). apply list_elem_of_fmap. eauto.
Qed.

(** An insertion takes no node away. *)
Lemma insertFrom_content_kept repo relPath todo :
  forall seen currentPath current e,
    e ∈ placement.content current ->
    e ∈ placement.content (tree.insertFrom fp repo relPath seen todo currentPath current).
Proof.
  induction todo as [|part rest IH]; intros seen currentPath current e He;
    apply elem_of_content in He; destruct He as (c & Hc & He);
    apply elem_of_content;
    [pose proof (insertFrom_children repo relPath seen [] currentPath current) as Hcs
    |pose proof (insertFrom_children repo relPath seen (part :: rest) currentPath current)
       as Hcs];
    cbv zeta in Hcs;
    destruct Hcs as [(Ha & _ & Hch)|(part' & x & rest' & Htodo & Hcase)];
    try discriminate.
  1,2: exists c; split; [rewrite Hch; apply elem_of_app; left; exact Hc|exact He].
  injection Htodo as <- ->.
  destruct Hcase as [(l1 & ck & l2 & Hcur & Hname & Hch)|[Hnone Hch]]; rewrite Hch.
  - rewrite Hcur in Hc. apply elem_of_app in Hc. rewrite elem_of_cons in Hc.
    destruct Hc as [Hc|[->|Hc]].
    + exists c. split; [apply elem_of_app; left; exact Hc|exact He].
    + eexists. split; [apply elem_of_app; right; left|].
      rewrite insertFrom_name, insertFrom_bare.
      destruct He as [->|(e' & He' & ->)]; [left; reflexivity|].
      right. exists e'. split; [apply IH; exact He'|reflexivity].
    + exists c. split; [apply elem_of_app; right; right; exact Hc|exact He].
  - exists c. split; [apply elem_of_app; left; exact Hc|exact He].
Qed.

(** Every node made for the repository is in the tree after the
    insertion, when the nodes it finds on its way are directory nodes like
    those it would make. *)
Lemma insertFrom_complete repo relPath todo :
  forall seen currentPath current,
    (forall e b, e ∈ placement.added fp repo relPath seen todo currentPath ->
                 (fst e, b) ∈ placement.content current -> b = snd e) ->
    forall e, e ∈ placement.added fp repo relPath seen todo currentPath ->
              e ∈ placement.content
                    (tree.insertFrom fp repo relPath seen todo currentPath current).
Proof.
  induction todo as [|part rest IH]; intros seen currentPath current Hclear e He;
    apply elem_of_content;
    [pose proof (insertFrom_children repo relPath seen [] currentPath current) as Hcs
    |pose proof (insertFrom_children repo relPath seen (part :: rest) currentPath current)
       as Hcs];
    cbv zeta in Hcs;
    destruct Hcs as [(Ha & _ & Hch)|(part' & x & rest' & Htodo & Hcase)];
    try discriminate.
  1,2: rewrite Ha in He; apply list_elem_of_singleton in He; subst e;
    eexists; split; [rewrite Hch; apply elem_of_app; right; left|left; reflexivity].
  injection Htodo as <- ->. rewrite added_step in He. setoid_rewrite added_step in Hclear.
  apply elem_of_cons in He.
  destruct Hcase as [(l1 & ck & l2 & Hcur & Hname & Hch)|[Hnone Hch]]; rewrite Hch.
  - assert (Hck : ck ∈ TreeNode.Children current)
      by (rewrite Hcur; apply elem_of_app; right; left).
    eexists. split; [apply elem_of_app; right; left|].
    rewrite insertFrom_name, insertFrom_bare, Hname.
    destruct He as [->|He].
    + left. f_equal. symmetry.
      match goal with
      | |- _ = ?n => apply (Hclear ([part], n) (placement.bare ck)); [left|]
      end.
      apply content_top. eauto.
    + change (map ?f ?y) with (f <$> y) in He. apply list_elem_of_fmap in He.
      destruct He as (e' & -> & He'). right. exists e'. split; [|reflexivity].
      apply IH; [|exact He'].
      intros e1 b He1 Hb.
      apply (Hclear (placement.under part e1) b).
      * right. change (map ?f ?y) with (f <$> y). apply list_elem_of_fmap. eauto.
      * apply elem_of_content. exists ck. split; [exact Hck|]. right.
        exists (fst e1, b). split; [exact Hb|]. rewrite Hname. reflexivity.
  - eexists. split; [apply elem_of_app; right; left|].
    rewrite insertFrom_name, insertFrom_bare.
    destruct He as [->|He]; [left; reflexivity|].
    change (map ?f ?y) with (f <$> y) in He. apply list_elem_of_fmap in He.
    destruct He as (e' & -> & He'). right. exists e'. split; [|reflexivity].
    apply IH; [|exact He'].
    intros e1 b _ Hb. inversion Hb.
Qed.

(** No two children of a node share a name after an insertion, when that
    was so before and the place of the repository was free. *)
Lemma insertFrom_distinct repo relPath todo :
  forall seen currentPath current,
    placement.distinct current ->
    (forall b, (removelast todo ++ [Repository.Name repo], b) ∉ placement.content current) ->
    placement.distinct (tree.insertFrom fp repo relPath seen todo currentPath current).
Proof.
  induction todo as [|part rest IH]; intros seen currentPath current Hd Hfree;
    apply distinct_iff in Hd; destruct Hd as [Hn Hall];
    apply distinct_iff;
    [pose proof (insertFrom_children repo relPath seen [] currentPath current) as Hcs
    |pose proof (insertFrom_children repo relPath seen (part :: rest) currentPath current)
       as Hcs];
    cbv zeta in Hcs;
    destruct Hcs as [(Ha & Hlast & Hch)|(part' & x & rest' & Htodo & Hcase)];
    try discriminate.
  1,2: rewrite Hch, map_app, Forall_app; rewrite Hlast in Hfree;
    (split; [|split; [exact Hall|repeat constructor]]);
    apply NoDup_app; (split; [exact Hn|split; [|apply NoDup_singleton]]);
    intros n Hin Hn'; apply list_elem_of_singleton in Hn'; subst n;
    change (map ?f ?y) with (f <$> y) in Hin; apply list_elem_of_fmap in Hin;
    destruct Hin as (c & Hname & Hc);
    apply (Hfree (placement.bare c)); apply content_top; eauto.
  injection Htodo as <- ->.
  change (removelast (part :: x :: rest')) with (part :: removelast (x :: rest')) in Hfree.
  destruct Hcase as [(l1 & ck & l2 & Hcur & Hname & Hch)|[Hnone Hch]]; rewrite Hch.
  - assert (Hck : ck ∈ TreeNode.Children current)
      by (rewrite Hcur; apply elem_of_app; right; left).
    rewrite Hcur in Hn, Hall.
    rewrite map_app in *. cbn [map] in *. rewrite insertFrom_name.
    split; [exact Hn|].
    apply Forall_app in Hall. destruct Hall as [H1 H2].
    apply Forall_cons in H2. destruct H2 as [Hk H2].
    apply Forall_app. split; [exact H1|]. apply Forall_cons. split; [|exact H2].
    apply IH; [exact Hk|].
    intros b Hb. apply (Hfree b). apply elem_of_content.
    exists ck. split; [exact Hck|]. right. eexists. split; [exact Hb|].
    rewrite Hname. reflexivity.
  - rewrite map_app, Forall_app. cbn [map]. rewrite insertFrom_name.
    split.
    + apply NoDup_app. split; [exact Hn|]. split; [|apply NoDup_singleton].
      intros n Hin Hn'. apply list_elem_of_singleton in Hn'. subst n.
      change (map ?f ?y) with (f <$> y) in Hin. apply list_elem_of_fmap in Hin.
      destruct Hin as (c & Hc1 & Hc2). apply (Hnone c Hc2). symmetry. exact Hc1.
    + split; [exact Hall|]. constructor; [|constructor].
      apply IH.
      * apply distinct_iff. split; [constructor|constructor].
      * intros b Hb. inversion Hb.
Qed.

End Inserted.

(** ** The loop of [Build] *)

Section Held.
Variables (fp : filepath.API) (rootPath : string).
Implicit Types (repo r s : Repository.t) (t node current c : TreeNode.t).
Implicit Types (seen todo q a b : list string) (e : list string * TreeNode.t).
Implicit Types (done rest : list Repository.t).

#[local] Abbreviation inserting root repo :=
  (match filepath.Rel fp rootPath (Repository.Path repo) with
   | Err _ => root
   | Ok relPath => tree.insertIntoTree fp root repo relPath rootPath
   end).

(** The tree holds the nodes of the repositories [done], and no two
    children of a node share a name. *)
#[local] Abbreviation held t done :=
  (placement.distinct t /\
   forall e, e ∈ placement.content t <->
             exists r, r ∈ done /\ e ∈ placement.entries fp rootPath r).

(** The entry of a node made for a repository lies on the way to the
    place of the repository; short of it, it is a directory node. *)
Lemma entries_spot r e :
  e ∈ placement.entries fp rootPath r ->
  exists a, placement.spot fp rootPath r = Some a /\ fst e `prefix_of` a /\
            (snd e = placement.dirNode fp [] rootPath (fst e) \/ fst e = a).
Proof.
  unfold placement.entries, placement.spot.
  destruct (filepath.Rel fp rootPath (Repository.Path r)) as [relPath|err];
    [|intros H; inversion H].
  intros H. apply added_named in H. eexists. split; [reflexivity|].
  destruct H as [->|(q & _ & Hq & ->)].
  - split; [reflexivity|right; reflexivity].
  - split; [apply prefix_app_r; exact Hq|left; reflexivity].
Qed.

Lemma apart_between done r rest s a b :
  placement.apart (placement.spots fp rootPath (done ++ r :: rest)) ->
  s ∈ done -> placement.spot fp rootPath s = Some a -> placement.spot fp rootPath r = Some b ->
  ~ a `prefix_of` b /\ ~ b `prefix_of` a.
Proof.
  unfold placement.spots. rewrite omap_app. intros [Hn Hp] Hs Ha Hb.
  assert (E : omap (placement.spot fp rootPath) (r :: rest)
              = b :: omap (placement.spot fp rootPath) rest).
  { change (omap ?f (r :: rest))
      with (match f r with Some y => y :: omap f rest | None => omap f rest end).
    rewrite Hb. reflexivity. }
  rewrite E in Hn, Hp.
  assert (Hin : a ∈ omap (placement.spot fp rootPath) done)
    by (apply list_elem_of_omap; eauto).
  apply NoDup_app in Hn. destruct Hn as (_ & Hsep & _).
  assert (Hne : a <> b).
  { intros ->. apply (Hsep b Hin). left. }
  split; intros Hpre.
  - apply Hne. apply Hp; [apply elem_of_app; left; exact Hin| |exact Hpre].
    apply elem_of_app. right. left.
  - apply Hne. symmetry. apply Hp; [|apply elem_of_app; left; exact Hin|exact Hpre].
    apply elem_of_app. right. left.
Qed.

Lemma inserting_held r :
  forall done rest t,
    held t done ->
    placement.apart (placement.spots fp rootPath (done ++ r :: rest)) ->
    held (inserting t r) (done ++ [r]).
Proof.
  intros done rest t [Hd Hc] Hap.
  pose proof (entries_spot r) as Hr.
  unfold placement.entries, placement.spot in Hr.
  assert (Hold : forall e, (exists s, s ∈ done ++ [r] /\ e ∈ placement.entries fp rootPath s) <->
                           e ∈ placement.content t \/ e ∈ placement.entries fp rootPath r).
  { intros e. rewrite Hc. split.
    - intros (s & Hs & He). apply elem_of_app in Hs. destruct Hs as [Hs|Hs]; [left; eauto|].
      apply list_elem_of_singleton in Hs. subst s. right. exact He.
    - intros [(s & Hs & He)|He].
      + exists s. split; [apply elem_of_app; left; exact Hs|exact He].
      + exists r. split; [apply elem_of_app; right; left|exact He]. }
  unfold placement.entries in Hold.
  destruct (filepath.Rel fp rootPath (Repository.Path r)) as [relPath|err] eqn:Erel.
  2:{ split; [exact Hd|]. intros e. rewrite Hold. split; [auto|].
      intros [H|H]; [exact H|inversion H]. }
  assert (Hspot : placement.spot fp rootPath r
                  = Some (removelast (filepath.splitSlash relPath) ++ [Repository.Name r]))
    by (unfold placement.spot; rewrite Erel; reflexivity).
  assert (Hother : forall e, e ∈ placement.content t ->
            exists s a, s ∈ done /\ placement.spot fp rootPath s = Some a /\
                        fst e `prefix_of` a /\
                        (snd e = placement.dirNode fp [] rootPath (fst e) \/ fst e = a)).
  { intros e He. apply Hc in He. destruct He as (s & Hs & He).
    destruct (entries_spot s e He) as (a & Ha & H). eauto. }
  unfold tree.insertIntoTree. split.
  - apply insertFrom_distinct; [exact Hd|].
    intros b Hb. destruct (Hother _ Hb) as (s & a & Hs & Ha & Hpre & _).
    destruct (apart_between done r rest s a _ Hap Hs Ha Hspot) as [_ H]. exact (H Hpre).
  - intros e. rewrite Hold. split.
    + apply insertFrom_sound.
    + intros [He|He]; [apply insertFrom_content_kept; exact He|].
      apply insertFrom_complete; [|exact He].
      intros e1 b He1 Hb.
      destruct (Hr e1 He1) as (a1 & Ha1 & Hpre1 & Hkind1). injection Ha1 as <-.
      destruct (Hother _ Hb) as (s & a & Hs & Ha & Hpre & Hkind). cbn [fst snd] in *.
      destruct (apart_between done r rest s a _ Hap Hs Ha Hspot) as [H1 H2].
      destruct Hkind as [-> | <-]; [|contradiction].
      destruct Hkind1 as [-> | E]; [reflexivity|].
      rewrite E in Hpre. contradiction.
Qed.

Lemma inserted_held rest :
  forall done t,
    held t done ->
    placement.apart (placement.spots fp rootPath (done ++ rest)) ->
    held (fold_left (fun root repo => inserting root repo) rest t) (done ++ rest).
Proof.
  induction rest as [|r rest IH]; intros done t H Hap.
  - rewrite app_nil_r. exact H.
  - cbn [fold_left].
    replace (done ++ r :: rest) with ((done ++ [r]) ++ rest) in *
      by (rewrite <- app_assoc; reflexivity).
    apply IH; [|exact Hap].
    apply (inserting_held r done rest); [exact H|].
    rewrite <- app_assoc in Hap. exact Hap.
Qed.

Lemma inserted_root rest :
  forall t,
    placement.bare (fold_left (fun root repo => inserting root repo) rest t)
    = placement.bare t /\
    TreeNode.Depth (fold_left (fun root repo => inserting root repo) rest t)
    = TreeNode.Depth t.
Proof.
  induction rest as [|r rest IH]; intros t; [auto|].
  cbn [fold_left]. destruct (IH (inserting t r)) as [-> ->].
  destruct (filepath.Rel fp rootPath (Repository.Path r)); [|auto].
  unfold tree.insertIntoTree. rewrite insertFrom_bare.
  split; [reflexivity|]. apply insertIntoTree_depth.
Qed.

(** The tree of [Build] does not depend on the order of the list, when
    the places of the repositories are apart. *)
Lemma Build_order_free (repos repos' : list Repository.t) (opts : option tree.FormatOptions) :
  placement.apart (placement.spots fp rootPath repos) -> repos' ≡ₚ repos ->
  tree.Build fp rootPath repos' opts = tree.Build fp rootPath repos opts.
Proof.
  intros Hap Hp.
  assert (Hap' : placement.apart (placement.spots fp rootPath repos')).
  { unfold placement.apart, placement.spots in *. destruct Hap as [Hn Hpre].
    split; [rewrite Hp; exact Hn|].
    intros a b Ha Hb. rewrite Hp in Ha, Hb. auto. }
  unfold tree.Build, tree.sortTree.
  set (root := TreeNode.mk _ 0 false [] _).
  assert (H0 : held root []).
  { split; [apply distinct_iff; split; constructor|].
    intros e. split; [intros H; inversion H|intros (r & H & _); inversion H]. }
  pose proof (inserted_held repos [] root H0 Hap) as [Hd Hc].
  pose proof (inserted_held repos' [] root H0 Hap') as [Hd' Hc'].
  destruct (inserted_root repos root) as [Hb Hdepth].
  destruct (inserted_root repos' root) as [Hb' Hdepth'].
  cbn [app] in *. rewrite Hdepth, Hdepth'.
  apply sorted_alike; [exact Hd'|exact Hd| |congruence].
  intros e. rewrite Hc, Hc'. split; intros (r & Hr & He); exists r; split; auto.
  - rewrite <- Hp. exact Hr.
  - rewrite Hp. exact Hr.
Qed.

End Held.

(** C8 as stated fails: the tree depends on the order of
    the list.  With one repository inside another, [Build] puts the inner
    one below the node of the outer one when the outer one comes first,
    and makes a directory node beside the node of the outer one when the
    inner one comes first; the two trees are drawn differently. *)
Lemma Build_depends_on_the_order :
  rev examples.nested ≡ₚ examples.nested /\
  length (TreeNode.Children (tree.Build filepath.unix "/work" examples.nested None)) = 1%nat /\
  length (TreeNode.Children (tree.Build filepath.unix "/work" (rev examples.nested) None))
  = 2%nat /\
  tree.Format noColor (Some (tree.Build filepath.unix "/work" (rev examples.nested) None)) None
  <> tree.Format noColor (Some (tree.Build filepath.unix "/work" examples.nested None)) None.
Proof.
  split; [symmetry; apply Permutation_rev|].
  split; [vm_compute; reflexivity|].
  split; [vm_compute; reflexivity|].
  vm_compute. discriminate.
Qed.

(** C8, as the code has it.  In the tree [Build] returns, as long as its depths fit
    an [int]: the root stands at depth 0, and for every node the children
    are sorted alphabetically (byte-wise) by name, each child stands one
    level below the node, and the last child of the list and no other
    carries the [IsLast] flag.  Every repository of the list that
    [filepath.Rel] accepts sits in the tree, below the directories of its
    relative path.  And the tree is the same for every order of the list
    when the places of the repositories (the directories of the relative
    path, then the name) are apart: no two the same and none below
    another. *)
Theorem Build_sorts_and_numbers_every_level
    (fp : filepath.API) (rootPath : string) (repos : list Repository.t)
    (opts : option tree.FormatOptions) :
  Z.of_nat (shape.height (tree.Build fp rootPath repos opts)) <= maxInt ->
  (TreeNode.Depth (tree.Build fp rootPath repos opts) = 0 /\
   forall n, n ∈ shape.nodes (tree.Build fp rootPath repos opts) ->
     shape.sortedByName (TreeNode.Children n) /\
     (forall (i : nat) c, TreeNode.Children n !! i = Some c ->
         TreeNode.Depth c = TreeNode.Depth n + 1 /\
         TreeNode.IsLast c = bool_decide (S i = length (TreeNode.Children n)))) /\
  (forall repo relPath,
      repo ∈ repos ->
      filepath.Rel fp rootPath (Repository.Path repo) = Ok relPath ->
      placement.sits (removelast (filepath.splitSlash relPath)) repo
                     (tree.Build fp rootPath repos opts)) /\
  (placement.apart (placement.spots fp rootPath repos) ->
   forall repos', repos' ≡ₚ repos ->
     tree.Build fp rootPath repos' opts = tree.Build fp rootPath repos opts).
Proof.
  intros Hfit. split; [|split].
  - split; [apply Build_root_depth|].
    intros n Hn.
    assert (Ho : shape.ordered n).
    { pose proof (Build_root_depth fp rootPath repos opts) as H0.
      revert Hfit Hn H0. unfold tree.Build, tree.sortTree.
      set (root := fold_left _ repos _). rewrite sortTreeFrom_depth.
      intros Hfit Hn H0. rewrite H0 in Hfit, Hn.
      apply (sortTreeFrom_ordered root 0); [lia|lia|exact Hn]. }
    destruct Ho as (Hs & Hd & Hl).
    split; [exact Hs|].
    intros i c Hi. split; [|apply Hl; exact Hi].
    unfold shape.oneLevelDown in Hd. rewrite Forall_forall in Hd.
    apply Hd. apply list_elem_of_lookup. eauto.
  - intros repo relPath Hrepo Hrel.
    unfold tree.Build, tree.sortTree. apply sortTreeFrom_sits.
    apply list_elem_of_split in Hrepo. destruct Hrepo as (l1 & l2 & ->).
    rewrite fold_left_app. simpl. rewrite Hrel.
    apply inserted_preserves. apply insertFrom_sits.
  - intros Hap repos' Hp. apply Build_order_free; assumption.
Qed.

Lemma examples_discovered_apart :
  placement.apart (placement.spots filepath.unix "/work" examples.discovered).
Proof.
  split; [apply (bool_decide_unpack _); vm_compute; exact I|].
  intros a b Ha Hb.
  change (placement.spots filepath.unix "/work" examples.discovered)
    with [["libs"; "tool.git"]; ["app"]; ["libs"; "core"]] in Ha, Hb.
  repeat (apply elem_of_cons in Ha; destruct Ha as [->|Ha]); [| | |inversion Ha];
    (repeat (apply elem_of_cons in Hb; destruct Hb as [->|Hb]); [| | |inversion Hb]);
    intros [k Hk]; first [reflexivity|discriminate].
Qed.

(** C8 at concrete inputs: the three repositories of
    [examples.discovered], whose places are apart, in the order given and
    in the reverse order. *)
Lemma Build_sorts_and_numbers_every_level_witness :
  Z.of_nat (shape.height (tree.Build filepath.unix "/work" examples.discovered None))
  <= maxInt /\
  placement.apart (placement.spots filepath.unix "/work" examples.discovered) /\
  map TreeNode.Name
      (TreeNode.Children (tree.Build filepath.unix "/work" examples.discovered None))
  = ["app"; "libs"] /\
  placement.sits ["libs"]
    (Repository.mk "/work/libs/core" "core" false false None None false)
    (tree.Build filepath.unix "/work" examples.discovered None) /\
  tree.Build filepath.unix "/work" (rev examples.discovered) None
  = tree.Build filepath.unix "/work" examples.discovered None.
Proof.
  assert (Hfit : Z.of_nat (shape.height
                   (tree.Build filepath.unix "/work" examples.discovered None)) <= maxInt)
    by (vm_compute; discriminate).
  destruct (Build_sorts_and_numbers_every_level
              filepath.unix "/work" examples.discovered None Hfit) as (_ & Hsits & Horder).
  split; [exact Hfit|]. split; [exact examples_discovered_apart|].
  split; [vm_compute; reflexivity|]. split.
  - apply (Hsits _ "libs/core"); [|reflexivity].
    do 2 apply list_elem_of_further. apply list_elem_of_here.
  - apply Horder; [exact examples_discovered_apart|].
    symmetry. apply Permutation_rev.
Defined.

(** ** Nothing in the tree but what the list asks for *)

Section Accounted.
Variables (fp : filepath.API) (rootPath : string).
Implicit Types (repo r s : Repository.t) (t node current c : TreeNode.t).
Implicit Types (seen todo q a b : list string) (e : list string * TreeNode.t).

#[local] Abbreviation inserting root repo :=
  (match filepath.Rel fp rootPath (Repository.Path repo) with
   | Err _ => root
   | Ok relPath => tree.insertIntoTree fp root repo relPath rootPath
   end).

(** The same entry, up to the [IsLast] flag that [SortChildren] sets. *)
#[local] Abbreviation alike e e0 :=
  (fst e = fst e0 /\
   TreeNode.Repository (snd e) = TreeNode.Repository (snd e0) /\
   TreeNode.RelativePath (snd e) = TreeNode.RelativePath (snd e0)).

(** [sortTree] adds no node and moves none to another place. *)
Lemma sortTreeFrom_content t :
  forall d e, e ∈ placement.content (tree.sortTreeFrom d t) ->
              exists e0, e0 ∈ placement.content t /\ alike e e0.
Proof.
  induction t as [r depth isLast children relPath IH] using TreeNode_induction.
  intros d e He. rewrite Forall_forall in IH.
  apply elem_of_content in He. destruct He as (c & Hc & He).
  cbn [tree.sortTreeFrom TreeNode.Children] in Hc.
  apply SortChildren_list_elem_of in Hc. destruct Hc as (b & c0 & Hc0 & ->).
  change (map ?f ?x) with (f <$> x) in Hc0.
  apply list_elem_of_fmap in Hc0. destruct Hc0 as (c1 & -> & Hc1).
  assert (Hname : TreeNode.Name (TreeNode.with_IsLast b (tree.sortTreeFrom (incr d) c1))
                  = TreeNode.Name c1) by (destruct c1; reflexivity).
  rewrite Hname in He. destruct He as [->|(e' & He' & ->)].
  - exists ([TreeNode.Name c1], placement.bare c1). split.
    + apply elem_of_content. exists c1. split; [exact Hc1|left; reflexivity].
    + destruct c1. repeat split.
  - assert (He0 : e' ∈ placement.content (tree.sortTreeFrom (incr d) c1))
      by (destruct (tree.sortTreeFrom (incr d) c1); exact He').
    destruct (IH c1 Hc1 _ _ He0) as (e0 & Hin & H1 & H2 & H3).
    exists (placement.under (TreeNode.Name c1) e0). split.
    + apply elem_of_content. exists c1. split; [exact Hc1|]. right. eauto.
    + cbn [placement.under fst snd]. rewrite H1. auto.
Qed.

(** The loop of [Build] puts into the tree nodes made for the
    repositories of the list, and no other. *)
Lemma inserted_sound (rest : list Repository.t) :
  forall t e,
    e ∈ placement.content (fold_left (fun root repo => inserting root repo) rest t) ->
    e ∈ placement.content t \/
    exists r, r ∈ rest /\ e ∈ placement.entries fp rootPath r.
Proof.
  induction rest as [|r rest IH]; intros t e He; [left; exact He|].
  cbn [fold_left] in He. apply IH in He. destruct He as [He|(s & Hs & He)].
  - unfold placement.entries.
    destruct (filepath.Rel fp rootPath (Repository.Path r)) as [relPath|err] eqn:E;
      [|left; exact He].
    apply insertFrom_sound in He. destruct He as [He|He]; [left; exact He|].
    right. exists r. split; [left|]. unfold placement.entries. rewrite E. exact He.
  - right. exists s. split; [right; exact Hs|exact He].
Qed.

(** The loop of [Build] passes over the repositories that [filepath.Rel]
    refuses. *)
Lemma inserted_accepted (rest : list Repository.t) :
  forall t,
    fold_left (fun root repo => inserting root repo)
              (List.filter (placement.accepted fp rootPath) rest) t
    = fold_left (fun root repo => inserting root repo) rest t.
Proof.
  induction rest as [|r rest IH]; intros t; [reflexivity|].
  cbn [List.filter fold_left]. unfold placement.accepted at 1.
  destruct (filepath.Rel fp rootPath (Repository.Path r)) as [relPath|err] eqn:E.
  - cbn [fold_left]. rewrite E. apply IH.
  - apply IH.
Qed.

End Accounted.

(** X11.  [Build] invents nothing.  The tree is the one built from the
    list without the repositories that [filepath.Rel] refuses.  And every
    node below the root is the node of a repository of the list that
    [filepath.Rel] accepts, at the place of that repository (the
    directories of its relative path, then its name) and with its
    relative path; or it is a directory on the way to such a repository,
    with the record and the relative path of that directory. *)
Theorem Build_accounts_for_every_node
    (fp : filepath.API) (rootPath : string) (repos : list Repository.t)
    (opts : option tree.FormatOptions) :
  tree.Build fp rootPath repos opts
  = tree.Build fp rootPath (List.filter (placement.accepted fp rootPath) repos) opts /\
  forall q n, (q, n) ∈ placement.content (tree.Build fp rootPath repos opts) ->
              placement.accounted fp rootPath repos q n.
Proof.
  split.
  - unfold tree.Build. rewrite inserted_accepted. reflexivity.
  - intros q n He. unfold tree.Build, tree.sortTree in He.
    apply sortTreeFrom_content in He. destruct He as ([q0 n0] & He0 & Hq & Hr & Hp).
    cbn [fst snd] in Hq, Hr, Hp. subst q0.
    apply inserted_sound in He0. destruct He0 as [He0|(r & Hin & He0)]; [inversion He0|].
    unfold placement.entries in He0.
    destruct (filepath.Rel fp rootPath (Repository.Path r)) as [relPath|err] eqn:E;
      [|inversion He0].
    exists r, relPath. split; [exact Hin|]. split; [exact E|].
    apply added_named in He0. destruct He0 as [H|(q' & Hne & Hpre & H)].
    + left. injection H as -> ->. auto.
    + right. injection H as -> ->. rewrite Hr, Hp. auto.
Qed.

(** X11 at concrete inputs: a repository with a relative path, which
    [filepath.Rel] cannot express under [/work], leaves no trace in the
    tree of [examples.discovered]. *)
Lemma Build_accounts_for_every_node_witness :
  tree.Build filepath.unix "/work"
             (Repository.at_path "other/x" "x" :: examples.discovered) None
  = tree.Build filepath.unix "/work" examples.discovered None /\
  Forall (fun e => placement.accounted filepath.unix "/work" examples.discovered (fst e) (snd e))
         (placement.content (tree.Build filepath.unix "/work" examples.discovered None)) /\
  map fst (placement.content (tree.Build filepath.unix "/work" examples.discovered None))
  = [["app"]; ["libs"]; ["libs"; "core"]; ["libs"; "tool.git"]].
Proof.
  split; [|split].
  - exact (proj1 (Build_accounts_for_every_node
                    filepath.unix "/work"
                    (Repository.at_path "other/x" "x" :: examples.discovered) None)).
  - apply Forall_forall. intros [q n] He.
    exact (proj2 (Build_accounts_for_every_node
                    filepath.unix "/work" examples.discovered None) q n He).
  - vm_compute. reflexivity.
Defined.
